(** * yocto_commonio.h: the JSON value, its views and the conversion protocol

    A shallow embedding of the JSON part of [libs/yocto/yocto_commonio.h]
    (namespace [yocto], section "JSON SUPPORT") and the properties of it that
    the specification states.

    Conventions of the embedding.
    - [json_value] is the tagged union of the source, one constructor per
      [json_type], carrying the active union member.
    - Integers are [Z]; the casts between the fixed-width integer types are the
      wrap-around functions [to_int64], [to_uint64], [to_int32], [to_uint32].
      [size_t] quantities that are container sizes or indices are [nat]
      (allocation never fails in the model).
    - [double] is the primitive binary64 [float]; a C++ [float] is a [double]
      that the narrowing cast [to_float] leaves unchanged.
    - A pointer [json_value*] is a position in a store of separately
      allocated values: the allocation and the chain of element positions
      below it.  [None] is [nullptr].  Dereferencing a pointer that names no
      node of the store is undefined in C++; the view operations return
      [None] there, [Some _] being a normal return.
    - An exception thrown by a [json_value] method is the [throw] outcome of
      [Value.result].
    - Overloads are told apart by a suffix: [get_element] (index) and
      [get_element_key]; [get_integral] ([int64_t]) and [get_integral_u]
      ([uint64_t]); the two-argument templates [get_value]/[set_value] that
      drop the error string are [get_value']/[set_value']. *)

From Stdlib Require Import ZArith List String Ascii Bool Lia Arith.
From Stdlib Require Import DecimalString Floats.
From Stdlib Require Import Strings.Byte.
Import ListNotations.

Local Open Scope string_scope.
Local Open Scope list_scope.

(* ------------------------------------------------------------------------- *)
(** ** Machine integers, floating point, strings and vectors *)
(* ------------------------------------------------------------------------- *)

Definition to_uint64 (z : Z) : Z := (z mod 2 ^ 64)%Z.
Definition to_int64 (z : Z) : Z := ((z + 2 ^ 63) mod 2 ^ 64 - 2 ^ 63)%Z.
Definition to_uint32 (z : Z) : Z := (z mod 2 ^ 32)%Z.
Definition to_int32 (z : Z) : Z := ((z + 2 ^ 31) mod 2 ^ 32 - 2 ^ 31)%Z.

Definition is_int64 (z : Z) : bool := ((- 2 ^ 63 <=? z) && (z <? 2 ^ 63))%Z.
Definition is_uint64 (z : Z) : bool := ((0 <=? z) && (z <? 2 ^ 64))%Z.
Definition is_int32 (z : Z) : bool := ((- 2 ^ 31 <=? z) && (z <? 2 ^ 31))%Z.
Definition is_uint32 (z : Z) : bool := ((0 <=? z) && (z <? 2 ^ 32))%Z.

(** [(double)z] for an integer [z]: round to nearest even in binary64. *)
Definition to_double (z : Z) : float :=
  SF2Prim (binary_normalize 53 1024 z 0 false).

(** [(float)d] for a double [d]: round to nearest even in binary32, kept in
    a double. *)
Definition to_float (d : float) : float :=
  match Prim2SF d with
  | S754_finite s m e =>
      SF2Prim (binary_normalize 24 128 (if s then Z.neg m else Z.pos m) e s)
  | _ => d
  end.

(** [std::to_string] on an [int] and on a [size_t]. *)
Definition to_string_int (z : Z) : string := NilZero.string_of_int (Z.to_int z).
Definition to_string (n : nat) : string := NilEmpty.string_of_uint (Nat.to_uint n).

(** [std::string::back] and [pop_back]. *)
Fixpoint back (s : string) : option ascii :=
  match s with
  | EmptyString => None
  | String c EmptyString => Some c
  | String _ s' => back s'
  end.

Fixpoint pop_back (s : string) : string :=
  match s with
  | EmptyString => EmptyString
  | String _ EmptyString => EmptyString
  | String c s' => String c (pop_back s')
  end.

Definition back_is (s : string) (c : ascii) : bool :=
  match back s with
  | Some c' => Ascii.eqb c' c
  | None => false
  end.

(** [std::vector::resize(n)] with [d] the value-initialised element. *)
Definition vector_resize {A : Type} (d : A) (n : nat) (l : list A) : list A :=
  firstn n l ++ repeat d (n - List.length l).

(** [std::string::resize(n)]: pads with the NUL character. *)
Definition string_resize (n : nat) (s : string) : string :=
  string_of_list_ascii (vector_resize Ascii.zero n (list_ascii_of_string s)).

(** Apply [f] to the element at position [i]; nothing happens out of range. *)
Fixpoint list_alter {A : Type} (i : nat) (f : A -> A) (l : list A) : list A :=
  match l, i with
  | [], _ => []
  | x :: l', O => f x :: l'
  | x :: l', S i' => x :: list_alter i' f l'
  end.

(* ------------------------------------------------------------------------- *)
(** ** The JSON value *)
(* ------------------------------------------------------------------------- *)

(** [enum struct json_type]. *)
Inductive json_type : Set :=
| null | integer | unsigned_ | real | boolean | string_ | array | object
| binary.

Definition json_type_eq_dec (a b : json_type) : {a = b} + {a <> b}.
Proof. decide equality. Defined.

Definition json_type_eqb (a b : json_type) : bool :=
  if json_type_eq_dec a b then true else false.

#[local] Set Warnings "-register-all".

(** [struct json_value]: the discriminant [_type] is the constructor, the
    argument is the active member of the union.  The null kind keeps the
    bits of [_unsigned]. *)
Inductive json_value : Type :=
| j_null (bits : Z)
| j_integer (i : Z)
| j_unsigned (u : Z)
| j_real (r : float)
| j_boolean (b : bool)
| j_string (s : string)
| j_array (a : list json_value)
| j_object (o : list (string * json_value))
| j_binary (d : list byte).

Definition json_array := list json_value.
Definition json_object := list (string * json_value).
Definition json_binary := list byte.

(** [json_value{}] *)
Definition json_value_default : json_value := j_null 0.

(** The first pair of [o] whose key is [key], as its position: the loop
    [for (auto& [key_, value] : ...) if (key_ == key) return &value;]. *)
Fixpoint find_from (key : string) (o : json_object) (i : nat) : option nat :=
  match o with
  | [] => None
  | (key_, _) :: o' =>
      if String.eqb key_ key then Some i else find_from key o' (S i)
  end.

Definition find_key (key : string) (o : json_object) : option nat :=
  find_from key o 0.

(** Replace the value of the pair at position [i], keeping its key. *)
Definition set_second (w : json_value) (kv : string * json_value)
  : string * json_value := (fst kv, w).

Module Value.

(** The outcome of a method that may throw. *)
Inductive result (A : Type) : Type :=
| ret (a : A)
| throw_json_error (what : string)
| throw_out_of_range (what : string).
Arguments ret {A} a.
Arguments throw_json_error {A} what.
Arguments throw_out_of_range {A} what.

Definition bind {A B : Type} (m : result A) (k : A -> result B) : result B :=
  match m with
  | ret a => k a
  | throw_json_error w => throw_json_error w
  | throw_out_of_range w => throw_out_of_range w
  end.

Definition type (v : json_value) : json_type :=
  match v with
  | j_null _ => null
  | j_integer _ => integer
  | j_unsigned _ => unsigned_
  | j_real _ => real
  | j_boolean _ => boolean
  | j_string _ => string_
  | j_array _ => array
  | j_object _ => object
  | j_binary _ => binary
  end.

Definition is_null (v : json_value) : bool := json_type_eqb (type v) null.
Definition is_integer (v : json_value) : bool := json_type_eqb (type v) integer.
Definition is_unsigned (v : json_value) : bool :=
  json_type_eqb (type v) unsigned_.
Definition is_real (v : json_value) : bool := json_type_eqb (type v) real.
Definition is_bool (v : json_value) : bool := json_type_eqb (type v) boolean.
Definition is_string (v : json_value) : bool := json_type_eqb (type v) string_.
Definition is_array (v : json_value) : bool := json_type_eqb (type v) array.
Definition is_object (v : json_value) : bool := json_type_eqb (type v) object.
Definition is_binary (v : json_value) : bool := json_type_eqb (type v) binary.

(** The second switch of [set_type]: the payload installed for [t]. *)
Definition zero (t : json_type) : json_value :=
  match t with
  | null => j_null 0
  | integer => j_integer 0
  | unsigned_ => j_unsigned 0
  | real => j_real 0%float
  | boolean => j_boolean false
  | string_ => j_string ""
  | array => j_array []
  | object => j_object []
  | binary => j_binary []
  end.

(** [json_value::set_type]: the old payload is deleted, then the tag and
    the payload of [t] are written. *)
Definition set_type (t : json_type) (v : json_value) : json_value := zero t.

(** Typed accessors. *)
Definition get_integer (v : json_value) : result Z :=
  match v with j_integer i => ret i | _ => throw_json_error "integer expected" end.
Definition get_unsigned (v : json_value) : result Z :=
  match v with j_unsigned u => ret u | _ => throw_json_error "unsigned expected" end.
Definition get_real (v : json_value) : result float :=
  match v with j_real r => ret r | _ => throw_json_error "real expected" end.
Definition get_boolean (v : json_value) : result bool :=
  match v with j_boolean b => ret b | _ => throw_json_error "boolean expected" end.
Definition get_string (v : json_value) : result string :=
  match v with j_string s => ret s | _ => throw_json_error "string expected" end.
Definition get_array (v : json_value) : result json_array :=
  match v with j_array a => ret a | _ => throw_json_error "array expected" end.
Definition get_object (v : json_value) : result json_object :=
  match v with j_object o => ret o | _ => throw_json_error "object expected" end.
Definition get_binary (v : json_value) : result json_binary :=
  match v with j_binary d => ret d | _ => throw_json_error "binary expected" end.

(** Structure support. *)
Definition size (v : json_value) : result nat :=
  match type v with
  | string_ => bind (get_string v) (fun s => ret (String.length s))
  | array => bind (get_array v) (fun a => ret (List.length a))
  | object => bind (get_object v) (fun o => ret (List.length o))
  | binary => bind (get_binary v) (fun d => ret (List.length d))
  | _ => throw_json_error "bad json type"
  end.

Definition empty (v : json_value) : result bool :=
  bind (size v) (fun n => ret (Nat.eqb n 0)).

Definition resize (n : nat) (v : json_value) : result json_value :=
  match type v with
  | string_ => bind (get_string v) (fun s => ret (j_string (string_resize n s)))
  | array =>
      bind (get_array v)
        (fun a => ret (j_array (vector_resize json_value_default n a)))
  | binary =>
      bind (get_binary v) (fun d => ret (j_binary (vector_resize x00 n d)))
  | _ => throw_json_error "bad json type"
  end.

(** Capacity is not part of the model: a successful [reserve] leaves the
    value as it is. *)
Definition reserve (n : nat) (v : json_value) : result json_value :=
  match type v with
  | string_ => bind (get_string v) (fun _ => ret v)
  | array => bind (get_array v) (fun _ => ret v)
  | object => bind (get_object v) (fun _ => ret v)
  | binary => bind (get_binary v) (fun _ => ret v)
  | _ => throw_json_error "bad json type"
  end.

(** Factories. *)
Definition array : json_value := j_array [].
Definition object : json_value := j_object [].
Definition binary : json_value := j_binary [].

(** [find(key)]: the position of the first pair with that key, [None]
    for [nullptr]. *)
Definition find (key : string) (v : json_value) : result (option nat) :=
  bind (get_object v) (fun o => ret (find_key key o)).

Definition contains (key : string) (v : json_value) : result bool :=
  bind (find key v)
    (fun p => ret (match p with Some _ => true | None => false end)).

(** [operator[](key)]: the value after the call and the position of the
    pair whose second component the returned reference names. *)
Definition subscript (key : string) (v : json_value)
  : result (json_value * nat) :=
  bind (find key v) (fun ptr =>
    match ptr with
    | Some i => ret (v, i)
    | None =>
        bind (get_object v) (fun o =>
          ret (j_object (o ++ [(key, json_value_default)]), List.length o))
    end).

(** [at(key)]. *)
Definition at_key (key : string) (v : json_value) : result nat :=
  bind (find key v) (fun ptr =>
    match ptr with
    | Some i => ret i
    | None => throw_out_of_range ("missing key " ++ key)
    end).

(** Assignment through the reference returned by [operator[]]:
    [obj[key] = w], where [w] is the value built by the converting
    constructor ([operator=] builds it and swaps it in). *)
Definition assign_subscript (key : string) (w : json_value) (v : json_value)
  : result json_value :=
  bind (subscript key v) (fun '(v', i) =>
    bind (get_object v') (fun o =>
      ret (j_object (list_alter i (set_second w) o)))).

(** The converting constructors used by the assignments. *)
Definition of_int32 (x : Z) : json_value := j_integer x.
Definition of_int64 (x : Z) : json_value := j_integer x.
Definition of_uint32 (x : Z) : json_value := j_unsigned x.
Definition of_uint64 (x : Z) : json_value := j_unsigned x.

(** The conversion operators ([operator int64_t] and the others). *)
Definition operator_int64_t (v : json_value) : result Z :=
  if is_unsigned v then bind (get_unsigned v) (fun u => ret (to_int64 u))
  else get_integer v.

Definition operator_int32_t (v : json_value) : result Z :=
  if is_unsigned v then bind (get_unsigned v) (fun u => ret (to_int32 u))
  else bind (get_integer v) (fun i => ret (to_int32 i)).

Definition operator_uint64_t (v : json_value) : result Z :=
  if is_integer v then bind (get_integer v) (fun i => ret (to_uint64 i))
  else get_unsigned v.

Definition operator_uint32_t (v : json_value) : result Z :=
  if is_integer v then bind (get_integer v) (fun i => ret (to_uint32 i))
  else bind (get_unsigned v) (fun u => ret (to_uint32 u)).

Definition operator_double (v : json_value) : result float :=
  if is_integer v then bind (get_integer v) (fun i => ret (to_double i))
  else if is_unsigned v then bind (get_unsigned v) (fun u => ret (to_double u))
  else get_real v.

Definition operator_bool (v : json_value) : result bool := get_boolean v.
Definition operator_string (v : json_value) : result string := get_string v.

(** Array support.  [at(idx)] and [operator[](idx)] are
    [get_array().at(idx)]; the message of the [std::out_of_range] that
    [std::vector::at] throws is the library's, [what] here. *)
Definition at_idx (what : string) (idx : nat) (v : json_value)
  : result json_value :=
  bind (get_array v) (fun a =>
    match nth_error a idx with
    | Some e => ret e
    | None => throw_out_of_range what
    end).

Definition push_back (w : json_value) (v : json_value) : result json_value :=
  bind (get_array v) (fun a => ret (j_array (a ++ [w]))).

End Value.

(* ------------------------------------------------------------------------- *)
(** ** Pointers, the store and views *)
(* ------------------------------------------------------------------------- *)

(** A [json_value*]: the allocation [obj] and the positions of the elements
    to go through below it (an index in an array, the position of a pair in
    an object). *)
Record ptr : Set := { obj : nat; path : list nat }.

Definition ptr_eqb (p q : ptr) : bool :=
  Nat.eqb (obj p) (obj q)
  && (if list_eq_dec Nat.eq_dec (path p) (path q) then true else false).

(** The pointer to element [i] of the container at [p]. *)
Definition child (p : ptr) (i : nat) : ptr :=
  {| obj := obj p; path := path p ++ [i] |}.

Definition store := list json_value.

Fixpoint subvalue (v : json_value) (p : list nat) : option json_value :=
  match p with
  | [] => Some v
  | i :: p' =>
      match v with
      | j_array a =>
          match nth_error a i with
          | Some e => subvalue e p'
          | None => None
          end
      | j_object o =>
          match nth_error o i with
          | Some (_, e) => subvalue e p'
          | None => None
          end
      | _ => None
      end
  end.

Fixpoint put (v : json_value) (p : list nat) (w : json_value) : json_value :=
  match p with
  | [] => w
  | i :: p' =>
      match v with
      | j_array a => j_array (list_alter i (fun e => put e p' w) a)
      | j_object o =>
          j_object (list_alter i (fun kv => (fst kv, put (snd kv) p' w)) o)
      | _ => v
      end
  end.

(** [*p] read and written. *)
Definition load (st : store) (p : ptr) : option json_value :=
  match nth_error st (obj p) with
  | Some v => subvalue v (path p)
  | None => None
  end.

Definition store_put (st : store) (p : ptr) (w : json_value) : store :=
  list_alter (obj p) (fun v => put v (path p) w) st.

(** [struct json_view] and [struct json_cview]: the same pair of pointers;
    the conversion from one to the other copies it. *)
Record json_view : Set := { value : option ptr; root : option ptr }.
Definition json_cview := json_view.

(** Sequencing of operations that may dereference. *)
Definition obind {A B : Type} (m : option A) (k : A -> option B) : option B :=
  match m with
  | Some a => k a
  | None => None
  end.

Notation "x <- m ;; k" := (obind m (fun x => k))
  (at level 61, m at next level, right associativity).
Notation "' p <- m ;; k" := (obind m (fun p => k))
  (at level 61, p pattern, m at next level, right associativity).

(** [*js.value], with [js.value] known to be non-null at the call site. *)
Definition deref (st : store) (js : json_cview) : option json_value :=
  p <- value js ;; load st p.

(** The union members read through a view. *)
Definition _integer (v : json_value) : option Z :=
  match v with j_integer i => Some i | _ => None end.
Definition _unsigned (v : json_value) : option Z :=
  match v with j_unsigned u => Some u | j_null u => Some u | _ => None end.
Definition _real (v : json_value) : option float :=
  match v with j_real r => Some r | _ => None end.
Definition _boolean (v : json_value) : option bool :=
  match v with j_boolean b => Some b | _ => None end.
Definition _string (v : json_value) : option string :=
  match v with j_string s => Some s | _ => None end.
Definition _array (v : json_value) : option json_array :=
  match v with j_array a => Some a | _ => None end.
Definition _object (v : json_value) : option json_object :=
  match v with j_object o => Some o | _ => None end.
Definition _binary (v : json_value) : option json_binary :=
  match v with j_binary d => Some d | _ => None end.

(** Get view from value: [js] is the allocation the value lives in. *)
Definition get_root (js : nat) : json_view :=
  {| value := Some {| obj := js; path := [] |};
     root := Some {| obj := js; path := [] |} |}.

(* ------------------------------------------------------------------------- *)
(** ** Type queries and scalar access through a view *)
(* ------------------------------------------------------------------------- *)

Definition get_type (st : store) (js : json_cview) : option json_type :=
  match value js with
  | Some p => v <- load st p ;; Some (Value.type v)
  | None => Some null
  end.

Definition set_type (st : store) (js : json_view) (type : json_type)
  : option (store * bool) :=
  match value js with
  | Some p => _ <- load st p ;; Some (store_put st p (Value.zero type), true)
  | None => Some (st, false)
  end.

Definition is_valid (js : json_cview) : bool :=
  match value js with Some _ => true | None => false end.

Definition is_null (st : store) (js : json_cview) : option bool :=
  if is_valid js then t <- get_type st js ;; Some (json_type_eqb t null)
  else Some false.
Definition is_integer (st : store) (js : json_cview) : option bool :=
  t <- get_type st js ;; Some (json_type_eqb t integer).
Definition is_unsigned (st : store) (js : json_cview) : option bool :=
  t <- get_type st js ;; Some (json_type_eqb t unsigned_).
Definition is_real (st : store) (js : json_cview) : option bool :=
  t <- get_type st js ;; Some (json_type_eqb t real).
Definition is_integral (st : store) (js : json_cview) : option bool :=
  t <- get_type st js ;;
  if json_type_eqb t integer then Some true
  else t' <- get_type st js ;; Some (json_type_eqb t' unsigned_).
Definition is_number (st : store) (js : json_cview) : option bool :=
  t <- get_type st js ;;
  if json_type_eqb t integer then Some true
  else
    t' <- get_type st js ;;
    if json_type_eqb t' unsigned_ then Some true
    else t'' <- get_type st js ;; Some (json_type_eqb t'' real).
Definition is_boolean (st : store) (js : json_cview) : option bool :=
  t <- get_type st js ;; Some (json_type_eqb t boolean).
Definition is_string (st : store) (js : json_cview) : option bool :=
  t <- get_type st js ;; Some (json_type_eqb t string_).
Definition is_array (st : store) (js : json_cview) : option bool :=
  t <- get_type st js ;; Some (json_type_eqb t array).
Definition is_object (st : store) (js : json_cview) : option bool :=
  t <- get_type st js ;; Some (json_type_eqb t object).
Definition is_binary (st : store) (js : json_cview) : option bool :=
  t <- get_type st js ;; Some (json_type_eqb t binary).

(** [js.value->member = x] right after [set_type]: the tag is the one of the
    member, the node becomes [w]. *)
Definition write (st : store) (js : json_view) (w : json_value) : option store :=
  p <- value js ;; _ <- load st p ;; Some (store_put st p w).

(** Initialization to basic types. *)
Definition set_null (st : store) (js : json_view) : option (store * bool) :=
  '(st1, ok) <- set_type st js null ;;
  if negb ok then Some (st1, false) else Some (st1, true).

Definition set_integer (st : store) (js : json_view) (x : Z)
  : option (store * bool) :=
  '(st1, ok) <- set_type st js integer ;;
  if ok then st2 <- write st1 js (j_integer x) ;; Some (st2, true)
  else Some (st1, false).

Definition set_unsigned (st : store) (js : json_view) (x : Z)
  : option (store * bool) :=
  '(st1, ok) <- set_type st js unsigned_ ;;
  if ok then st2 <- write st1 js (j_unsigned x) ;; Some (st2, true)
  else Some (st1, false).

Definition set_real (st : store) (js : json_view) (x : float)
  : option (store * bool) :=
  '(st1, ok) <- set_type st js real ;;
  if ok then st2 <- write st1 js (j_real x) ;; Some (st2, true)
  else Some (st1, false).

Definition set_boolean (st : store) (js : json_view) (x : bool)
  : option (store * bool) :=
  '(st1, ok) <- set_type st js boolean ;;
  if ok then st2 <- write st1 js (j_boolean x) ;; Some (st2, true)
  else Some (st1, false).

Definition set_string (st : store) (js : json_view) (x : string)
  : option (store * bool) :=
  '(st1, ok) <- set_type st js string_ ;;
  if ok then st2 <- write st1 js (j_string x) ;; Some (st2, true)
  else Some (st1, false).

(** Get basic values: the out-parameter comes back as the second component,
    unchanged when the getter returns [false]. *)
Definition get_integer (st : store) (js : json_cview) (out : Z)
  : option (bool * Z) :=
  b <- is_integer st js ;;
  if b then v <- deref st js ;; i <- _integer v ;; Some (true, i)
  else Some (false, out).

Definition get_unsigned (st : store) (js : json_cview) (out : Z)
  : option (bool * Z) :=
  b <- is_unsigned st js ;;
  if b then v <- deref st js ;; u <- _unsigned v ;; Some (true, u)
  else Some (false, out).

Definition get_real (st : store) (js : json_cview) (out : float)
  : option (bool * float) :=
  b <- is_real st js ;;
  if b then v <- deref st js ;; r <- _real v ;; Some (true, r)
  else Some (false, out).

Definition get_boolean (st : store) (js : json_cview) (out : bool)
  : option (bool * bool) :=
  b <- is_boolean st js ;;
  if b then v <- deref st js ;; x <- _boolean v ;; Some (true, x)
  else Some (false, out).

Definition get_string (st : store) (js : json_cview) (out : string)
  : option (bool * string) :=
  b <- is_string st js ;;
  if b then v <- deref st js ;; s <- _string v ;; Some (true, s)
  else Some (false, out).

(** Get numbers with casts. *)
Definition get_integral (st : store) (js : json_cview) (out : Z)
  : option (bool * Z) :=
  b <- is_integer st js ;;
  if b then v <- deref st js ;; i <- _integer v ;; Some (true, to_int64 i)
  else
    b' <- is_unsigned st js ;;
    if b' then v <- deref st js ;; u <- _unsigned v ;; Some (true, to_int64 u)
    else Some (false, out).

Definition get_integral_u (st : store) (js : json_cview) (out : Z)
  : option (bool * Z) :=
  b <- is_integer st js ;;
  if b then v <- deref st js ;; i <- _integer v ;; Some (true, to_uint64 i)
  else
    b' <- is_unsigned st js ;;
    if b' then v <- deref st js ;; u <- _unsigned v ;; Some (true, to_uint64 u)
    else Some (false, out).

Definition get_number (st : store) (js : json_cview) (out : float)
  : option (bool * float) :=
  b <- is_real st js ;;
  if b then v <- deref st js ;; r <- _real v ;; Some (true, r)
  else
    b' <- is_integer st js ;;
    if b' then v <- deref st js ;; i <- _integer v ;; Some (true, to_double i)
    else
      b'' <- is_unsigned st js ;;
      if b'' then
        v <- deref st js ;; u <- _unsigned v ;; Some (true, to_double u)
      else Some (false, out).

(** The conversion of a [bool] to [size_t]. *)
Definition size_t_of_bool (b : bool) : nat := if b then 1 else 0.

(** Compound type.  [size] ends in [return true], converted to [size_t]. *)
Definition empty (st : store) (js : json_cview) : option bool :=
  b1 <- is_array st js ;;
  if b1 then v <- deref st js ;; a <- _array v ;; Some (Nat.eqb (List.length a) 0)
  else
    b2 <- is_object st js ;;
    if b2 then
      v <- deref st js ;; o <- _object v ;; Some (Nat.eqb (List.length o) 0)
    else
      b3 <- is_string st js ;;
      if b3 then
        v <- deref st js ;; s <- _string v ;; Some (Nat.eqb (String.length s) 0)
      else
        b4 <- is_binary st js ;;
        if b4 then
          v <- deref st js ;; d <- _binary v ;; Some (Nat.eqb (List.length d) 0)
        else Some true.

Definition size (st : store) (js : json_cview) : option nat :=
  b1 <- is_array st js ;;
  if b1 then v <- deref st js ;; a <- _array v ;; Some (List.length a)
  else
    b2 <- is_object st js ;;
    if b2 then v <- deref st js ;; o <- _object v ;; Some (List.length o)
    else
      b3 <- is_string st js ;;
      if b3 then v <- deref st js ;; s <- _string v ;; Some (String.length s)
      else
        b4 <- is_binary st js ;;
        if b4 then v <- deref st js ;; d <- _binary v ;; Some (List.length d)
        else Some (size_t_of_bool true).

(** The view-level [resize] and [reserve]. *)
Definition resize (st : store) (js : json_view) (n : nat)
  : option (store * bool) :=
  b1 <- is_array st js ;;
  if b1 then
    v <- deref st js ;; a <- _array v ;;
    st1 <- write st js (j_array (vector_resize json_value_default n a)) ;;
    Some (st1, true)
  else
    b2 <- is_string st js ;;
    if b2 then
      v <- deref st js ;; s <- _string v ;;
      st1 <- write st js (j_string (string_resize n s)) ;; Some (st1, true)
    else
      b3 <- is_binary st js ;;
      if b3 then
        v <- deref st js ;; d <- _binary v ;;
        st1 <- write st js (j_binary (vector_resize x00 n d)) ;;
        Some (st1, true)
      else Some (st, false).

Definition reserve (st : store) (js : json_view) (n : nat)
  : option (store * bool) :=
  b1 <- is_array st js ;;
  if b1 then Some (st, true)
  else
    b2 <- is_object st js ;;
    if b2 then Some (st, true)
    else
      b3 <- is_string st js ;;
      if b3 then Some (st, true)
      else
        b4 <- is_binary st js ;; if b4 then Some (st, true) else Some (st, false).

(* ------------------------------------------------------------------------- *)
(** ** Arrays and objects through a view *)
(* ------------------------------------------------------------------------- *)

(** The view [{&container[i], js.root}] onto element [i] of the container
    that [js] points to. *)
Definition element (js : json_view) (i : nat) : json_view :=
  {| value := option_map (fun p => child p i) (value js); root := root js |}.

(** The view [{nullptr, js.root}]. *)
Definition no_element (js : json_view) : json_view :=
  {| value := None; root := root js |}.

Definition array_empty (st : store) (js : json_cview) : option bool :=
  b <- is_array st js ;;
  if b then v <- deref st js ;; a <- _array v ;; Some (Nat.eqb (List.length a) 0)
  else Some false.

Definition array_size (st : store) (js : json_cview) : option nat :=
  b <- is_array st js ;;
  if b then v <- deref st js ;; a <- _array v ;; Some (List.length a)
  else Some 0%nat.

Definition resize_array (st : store) (js : json_view) (n : nat)
  : option (store * bool) :=
  b <- is_array st js ;;
  if b then
    v <- deref st js ;; a <- _array v ;;
    st1 <- write st js (j_array (vector_resize json_value_default n a)) ;;
    Some (st1, true)
  else Some (st, false).

Definition set_array (st : store) (js : json_view) : option (store * bool) :=
  set_type st js array.

Definition set_array_size (st : store) (js : json_view) (n : nat)
  : option (store * bool) :=
  '(st1, ok) <- set_type st js array ;;
  if ok then resize_array st1 js n else Some (st1, false).

Definition has_index (st : store) (js : json_view) (idx : nat) : option bool :=
  b <- is_array st js ;;
  if b then v <- deref st js ;; a <- _array v ;; Some (Nat.ltb idx (List.length a))
  else Some false.

Definition get_element (st : store) (js : json_view) (idx : nat)
  : option json_view :=
  b <- is_array st js ;;
  if b then
    n <- array_size st js ;;
    if Nat.ltb idx n then Some (element js idx) else Some (no_element js)
  else Some (no_element js).

Definition append_element (st : store) (js : json_view)
  : option (store * json_view) :=
  b <- is_array st js ;;
  if b then
    v <- deref st js ;; a <- _array v ;;
    st1 <- write st js (j_array (a ++ [json_value_default])) ;;
    Some (st1, element js (List.length a))
  else Some (st, no_element js).

(** [iterate_array]: the element views between [data()] and
    [data() + size()], in order. *)
Definition iterate_array (st : store) (js : json_view) : option (list json_view) :=
  b <- is_array st js ;;
  if b then
    v <- deref st js ;; a <- _array v ;;
    Some (map (element js) (seq 0 (List.length a)))
  else Some [].

Definition set_object (st : store) (js : json_view) : option (store * bool) :=
  set_type st js object.

Definition object_empty (st : store) (js : json_cview) : option bool :=
  b <- is_object st js ;;
  if b then v <- deref st js ;; o <- _object v ;; Some (Nat.eqb (List.length o) 0)
  else Some true.

Definition object_size (st : store) (js : json_cview) : option nat :=
  b <- is_object st js ;;
  if b then v <- deref st js ;; o <- _object v ;; Some (List.length o)
  else Some 0%nat.

Definition get_element_key (st : store) (js : json_view) (key : string)
  : option json_view :=
  b <- is_object st js ;;
  if b then
    v <- deref st js ;; o <- _object v ;;
    match find_key key o with
    | Some i => Some (element js i)
    | None => Some (no_element js)
    end
  else Some (no_element js).

Definition has_element (st : store) (js : json_view) (key : string)
  : option bool :=
  e <- get_element_key st js key ;; Some (is_valid e).

Definition insert_element (st : store) (js : json_view) (key : string)
  : option (store * json_view) :=
  b <- is_object st js ;;
  if b then
    v <- deref st js ;; o <- _object v ;;
    match find_key key o with
    | Some i => Some (st, element js i)
    | None =>
        st1 <- write st js (j_object (o ++ [(key, json_value_default)])) ;;
        Some (st1, element js (List.length o))
    end
  else Some (st, no_element js).


Definition set_binary (st : store) (js : json_view) (x : json_binary)
  : option (store * bool) :=
  '(st1, ok) <- set_type st js binary ;;
  if ok then st2 <- write st1 js (j_binary x) ;; Some (st2, true)
  else Some (st1, false).

Definition get_binary (st : store) (js : json_cview) (out : json_binary)
  : option (bool * json_binary) :=
  b <- is_binary st js ;;
  if b then v <- deref st js ;; d <- _binary v ;; Some (true, d)
  else Some (false, out).

(* ------------------------------------------------------------------------- *)
(** ** The path of a view *)
(* ------------------------------------------------------------------------- *)

Definition is_some {A : Type} (o : option A) : bool :=
  match o with Some _ => true | None => false end.

Definition same_target (js jsv : json_cview) : bool :=
  match value js, value jsv with
  | Some p, Some q => ptr_eqb p q
  | None, None => true
  | _, _ => false
  end.

(** The body of [_compute_path(js, jsv, path)], with [v] the node [*js.value]
    (read by [is_array], [is_object] and the two iterations).  The recursive
    calls are on the elements of [v], which are the nodes the element views
    point to.  The pair returned is the result and the final [path].  In the
    array loop [idx] is initialised to [0] and never changed; [i] is the
    position of the iterator. *)
Fixpoint _compute_path_in (v : json_value) (js jsv : json_cview) (path : string)
  {struct v} : bool * string :=
  if negb (is_some (value js)) || negb (is_some (root js))
     || negb (is_some (value jsv)) || negb (is_some (root jsv))
  then (false, path)
  else if same_target js jsv then (true, "/")
  else
    match v with
    | j_array a =>
        let idx := 0%Z in
        (fix iterate (es : list json_value) (i : nat) (path : string)
           {struct es} : bool * string :=
           match es with
           | [] => (false, path)
           | e :: es' =>
               let '(found, path1) :=
                 _compute_path_in e (element js i) jsv path in
               if negb found then iterate es' (S i) path1
               else
                 let path2 :=
                   if back_is path1 "/" then pop_back path1 else path1 in
                 (true, ("/" ++ to_string_int idx ++ path2)%string)
           end) a 0%nat path
    | j_object o =>
        (fix iterate (es : list (string * json_value)) (i : nat)
           (path : string) {struct es} : bool * string :=
           match es with
           | [] => (false, path)
           | (key, e) :: es' =>
               let '(found, path1) :=
                 _compute_path_in e (element js i) jsv path in
               if negb found then iterate es' (S i) path1
               else
                 let path2 :=
                   if back_is path1 "/" then pop_back path1 else path1 in
                 (true, ("/" ++ key ++ path2)%string)
           end) o 0%nat path
    | _ => (false, path)
    end.

(** [_compute_path]: the two first tests read no node. *)
Definition _compute_path (st : store) (js jsv : json_cview) (path : string)
  : option (bool * string) :=
  if negb (is_some (value js)) || negb (is_some (root js))
     || negb (is_some (value jsv)) || negb (is_some (root jsv))
  then Some (false, path)
  else if same_target js jsv then Some (true, "/")
  else v <- deref st js ;; Some (_compute_path_in v js jsv path).

Definition compute_path (st : store) (js : json_cview) : option string :=
  '(found, path) <-
    _compute_path st {| value := root js; root := root js |} js "" ;;
  if found then Some path else Some "".

(** Error formatting for conversion. *)
Definition format_error (st : store) (js : json_cview) (message : string)
  : option string :=
  path <- compute_path st js ;;
  if Nat.eqb (String.length path) 0 then Some (message ++ " in json")%string
  else Some (message ++ " at " ++ path)%string.

(* ------------------------------------------------------------------------- *)
(** ** Native types and the conversion protocol *)
(* ------------------------------------------------------------------------- *)

(** The native types with a [get_value]/[set_value] overload.  (The model
    has every vector; in C++ [vector<bool>], whose [emplace_back] yields a
    proxy, does not instantiate [get_value].) *)
Inductive native_type : Set :=
| t_int64 | t_int32 | t_uint64 | t_uint32
| t_double | t_float | t_bool | t_string
| t_vector (T : native_type)
| t_array (T : native_type) (N : nat).

Fixpoint native (T : native_type) : Type :=
  match T with
  | t_int64 | t_int32 | t_uint64 | t_uint32 => Z
  | t_double | t_float => float
  | t_bool => bool
  | t_string => string
  | t_vector T' => list (native T')
  | t_array T' _ => list (native T')
  end.

(** The values of the model that are values of the C++ type: integers in
    range, floats that are single precision, arrays of [N] elements. *)
Fixpoint native_ok (T : native_type) : native T -> Prop :=
  match T return native T -> Prop with
  | t_int64 => fun x => is_int64 x = true
  | t_int32 => fun x => is_int32 x = true
  | t_uint64 => fun x => is_uint64 x = true
  | t_uint32 => fun x => is_uint32 x = true
  | t_double => fun _ => True
  | t_float => fun x => to_float x = x
  | t_bool => fun _ => True
  | t_string => fun _ => True
  | t_vector T' => fun l => Forall (native_ok T') l
  | t_array T' N => fun l => List.length l = N /\ Forall (native_ok T') l
  end.

(** [T{}] *)
Fixpoint native_default (T : native_type) : native T :=
  match T return native T with
  | t_int64 | t_int32 | t_uint64 | t_uint32 => 0%Z
  | t_double | t_float => 0%float
  | t_bool => false
  | t_string => ""
  | t_vector _ => []
  | t_array T' N => repeat (native_default T') N
  end.

(** A loop whose body leaves the function with [false] when a step fails,
    and that is followed by [return true]. *)
Fixpoint for_each {X S : Type} (body : X -> S -> option (bool * S))
  (xs : list X) (s : S) {struct xs} : option (bool * S) :=
  match xs with
  | [] => Some (true, s)
  | x :: xs' =>
      '(ok, s1) <- body x s ;;
      if negb ok then Some (false, s1) else for_each body xs' s1
  end.

(** The two-argument templates: [auto error = string{};] and the call of
    the three-argument overload; the message is dropped. *)
Definition without_error {A R : Type}
  (f : A -> string -> option (R * string)) (x : A) : option R :=
  '(r, _) <- f x "" ;; Some r.

(** *** Conversion from json to values *)

Definition get_value_int64 (st : store) (js : json_cview) (value : Z)
  (error : string) : option (bool * Z * string) :=
  '(ok, value1) <- get_integral st js value ;;
  if ok then Some (true, value1, error)
  else
    msg <- format_error st js "integer expected" ;; Some (false, value1, msg).

Definition get_value_int32 (st : store) (js : json_cview) (value : Z)
  (error : string) : option (bool * Z * string) :=
  let value64 := 0%Z in
  '(ok, value64, error1) <- get_value_int64 st js value64 error ;;
  if negb ok then Some (false, value, error1)
  else Some (true, to_int32 value64, error1).

Definition get_value_uint64 (st : store) (js : json_cview) (value : Z)
  (error : string) : option (bool * Z * string) :=
  '(ok, value1) <- get_integral_u st js value ;;
  if ok then Some (true, value1, error)
  else
    msg <- format_error st js "integer expected" ;; Some (false, value1, msg).

Definition get_value_uint32 (st : store) (js : json_cview) (value : Z)
  (error : string) : option (bool * Z * string) :=
  let value64 := 0%Z in
  '(ok, value64, error1) <- get_value_uint64 st js value64 error ;;
  if negb ok then Some (false, value, error1)
  else Some (true, to_uint32 value64, error1).

Definition get_value_double (st : store) (js : json_cview) (value : float)
  (error : string) : option (bool * float * string) :=
  '(ok, value1) <- get_number st js value ;;
  if ok then Some (true, value1, error)
  else
    msg <- format_error st js "number expected" ;; Some (false, value1, msg).

Definition get_value_float (st : store) (js : json_cview) (value : float)
  (error : string) : option (bool * float * string) :=
  let value64 := 0%float in
  '(ok, value64, error1) <- get_value_double st js value64 error ;;
  if negb ok then Some (false, value, error1)
  else Some (true, to_float value64, error1).

Definition get_value_bool (st : store) (js : json_cview) (value : bool)
  (error : string) : option (bool * bool * string) :=
  '(ok, value1) <- get_boolean st js value ;;
  if ok then Some (true, value1, error)
  else
    msg <- format_error st js "boolean expected" ;; Some (false, value1, msg).

Definition get_value_string (st : store) (js : json_cview) (value : string)
  (error : string) : option (bool * string * string) :=
  '(ok, value1) <- get_string st js value ;;
  if ok then Some (true, value1, error)
  else
    msg <- format_error st js "string expected" ;; Some (false, value1, msg).

(** [get_value(js, value, error)] at type [T].  The result is the boolean
    returned, the final [value] and the final [error].

    [vector<T>]: [value.emplace_back()] appends a [T{}] and the element
    conversion, called without [error], fills it.
    [array<T, N>]: [value.at(idx)] is converted in place, again without
    [error]; [value] has [N] elements, so the position exists whenever the
    size test has passed. *)
Fixpoint get_value (T : native_type) (st : store) (js : json_cview)
  {struct T} : native T -> string -> option (bool * native T * string) :=
  match T return native T -> string -> option (bool * native T * string) with
  | t_int64 => get_value_int64 st js
  | t_int32 => get_value_int32 st js
  | t_uint64 => get_value_uint64 st js
  | t_uint32 => get_value_uint32 st js
  | t_double => get_value_double st js
  | t_float => get_value_float st js
  | t_bool => get_value_bool st js
  | t_string => get_value_string st js
  | t_vector T' => fun value error =>
      b <- is_array st js ;;
      if b then
        let value := @nil (native T') in
        _ <- array_size st js ;;
        ejss <- iterate_array st js ;;
        '(ok, value1) <-
          for_each
            (fun ejs value =>
               '(ok, x) <-
                 without_error (get_value T' st ejs) (native_default T') ;;
               Some (ok, value ++ [x]))
            ejss value ;;
        Some (ok, value1, error)
      else
        msg <- format_error st js "array expected" ;; Some (false, value, msg)
  | t_array T' N => fun value error =>
      b <- is_array st js ;;
      n <- (if b then array_size st js else Some 0%nat) ;;
      if b && Nat.eqb n N then
        sz <- size st js ;;
        '(ok, value1) <-
          for_each
            (fun idx value =>
               ejs <- get_element st js idx ;;
               x0 <- nth_error value idx ;;
               '(ok, x) <- without_error (get_value T' st ejs) x0 ;;
               Some (ok, list_alter idx (fun _ => x) value))
            (seq 0 sz) value ;;
        Some (ok, value1, error)
      else
        b' <- is_array st js ;;
        msg <-
          format_error st js
            (if negb b' then "array expected" else "array size mismatched") ;;
        Some (false, value, msg)
  end.

Definition get_value' (T : native_type) (st : store) (js : json_cview)
  (value : native T) : option (bool * native T) :=
  without_error (get_value T st js) value.

(** Get value at a key or index. *)
Definition get_value_at_key (T : native_type) (st : store) (js : json_cview)
  (key : string) (value : native T) (error : string)
  : option (bool * native T * string) :=
  elem <- get_element_key st js key ;;
  if is_valid elem then get_value T st elem value error
  else
    msg <- format_error st js ("missing key " ++ key) ;;
    Some (false, value, msg).

Definition get_value_at (T : native_type) (st : store) (js : json_cview)
  (idx : nat) (value : native T) (error : string)
  : option (bool * native T * string) :=
  elem <- get_element st js idx ;;
  if is_valid elem then get_value T st elem value error
  else
    msg <- format_error st js ("index out of range " ++ to_string idx) ;;
    Some (false, value, msg).

(** Get value at a key or nothing if the key is not present. *)
Definition get_value_if (T : native_type) (st : store) (js : json_cview)
  (key : string) (value : native T) (error : string)
  : option (bool * native T * string) :=
  ejs <- get_element_key st js key ;;
  if is_valid ejs then get_value T st ejs value error
  else
    b <- is_object st js ;;
    if b then Some (true, value, error)
    else
      msg <- format_error st js "object expected" ;; Some (false, value, msg).

(** *** Conversion to json from values *)

Definition set_value_int64 (st : store) (js : json_view) (value : Z)
  (error : string) : option (store * bool * string) :=
  '(st1, ok) <- set_integer st js value ;;
  if ok then Some (st1, true, error)
  else
    msg <- format_error st1 js "integer expected" ;; Some (st1, false, msg).

Definition set_value_int32 (st : store) (js : json_view) (value : Z)
  (error : string) : option (store * bool * string) :=
  set_value_int64 st js (to_int64 value) error.

Definition set_value_uint64 (st : store) (js : json_view) (value : Z)
  (error : string) : option (store * bool * string) :=
  '(st1, ok) <- set_unsigned st js value ;;
  if ok then Some (st1, true, error)
  else
    msg <- format_error st1 js "unsigned expected" ;; Some (st1, false, msg).

Definition set_value_uint32 (st : store) (js : json_view) (value : Z)
  (error : string) : option (store * bool * string) :=
  set_value_uint64 st js (to_uint64 value) error.

Definition set_value_double (st : store) (js : json_view) (value : float)
  (error : string) : option (store * bool * string) :=
  '(st1, ok) <- set_real st js value ;;
  if ok then Some (st1, true, error)
  else msg <- format_error st1 js "real expected" ;; Some (st1, false, msg).

(** [(double)value] of a [float] is exact: the same number. *)
Definition set_value_float (st : store) (js : json_view) (value : float)
  (error : string) : option (store * bool * string) :=
  set_value_double st js value error.

Definition set_value_bool (st : store) (js : json_view) (value : bool)
  (error : string) : option (store * bool * string) :=
  '(st1, ok) <- set_boolean st js value ;;
  if ok then Some (st1, true, error)
  else
    msg <- format_error st1 js "boolean expected" ;; Some (st1, false, msg).

Definition set_value_string (st : store) (js : json_view) (value : string)
  (error : string) : option (store * bool * string) :=
  '(st1, ok) <- set_string st js value ;;
  if ok then Some (st1, true, error)
  else
    msg <- format_error st1 js "string expected" ;; Some (st1, false, msg).

(** [set_value(js, value, error)] at type [T]: the final store, the boolean
    returned and the final [error].  The loop state is the store, [idx] and
    [error]; the [vector<T>] overload calls the element conversion
    without [error], the [array<T, N>] overload with it. *)
Fixpoint set_value (T : native_type) (st : store) (js : json_view)
  {struct T} : native T -> string -> option (store * bool * string) :=
  match T return native T -> string -> option (store * bool * string) with
  | t_int64 => set_value_int64 st js
  | t_int32 => set_value_int32 st js
  | t_uint64 => set_value_uint64 st js
  | t_uint32 => set_value_uint32 st js
  | t_double => set_value_double st js
  | t_float => set_value_float st js
  | t_bool => set_value_bool st js
  | t_string => set_value_string st js
  | t_vector T' => fun value error =>
      '(st1, ok) <- set_array_size st js (List.length value) ;;
      if ok then
        '(ok, (st2, _, error2)) <-
          for_each
            (fun v '(st, idx, error) =>
               ejs <- get_element st js idx ;;
               '(st', ok) <- without_error (set_value T' st ejs) v ;;
               Some (ok, (st', S idx, error)))
            value (st1, 0%nat, error) ;;
        Some (st2, ok, error2)
      else
        msg <- format_error st1 js "array expected" ;; Some (st1, false, msg)
  | t_array T' N => fun value error =>
      '(st1, ok) <- set_array_size st js (List.length value) ;;
      if ok then
        '(ok, (st2, _, error2)) <-
          for_each
            (fun v '(st, idx, error) =>
               ejs <- get_element st js idx ;;
               '(st', ok, error') <- set_value T' st ejs v error ;;
               Some (ok, (st', S idx, error')))
            value (st1, 0%nat, error) ;;
        Some (st2, ok, error2)
      else
        msg <- format_error st1 js "array expected" ;; Some (st1, false, msg)
  end.

Definition set_value' (T : native_type) (st : store) (js : json_view)
  (value : native T) : option (store * bool) :=
  without_error (set_value T st js) value.

(* ------------------------------------------------------------------------- *)
(** ** Helpers for user-defined types *)
(* ------------------------------------------------------------------------- *)

(** [check_array(js, error)], [check_array(js, size_, error)] and
    [check_object(js, error)]: the boolean returned and the final [error]. *)
Definition check_array (st : store) (js : json_cview) (error : string)
  : option (bool * string) :=
  b <- is_array st js ;;
  if b then Some (true, error)
  else msg <- format_error st js "array expected" ;; Some (false, msg).

Definition check_array_size (st : store) (js : json_cview) (size_ : nat)
  (error : string) : option (bool * string) :=
  b <- is_array st js ;;
  if b then
    n <- array_size st js ;;
    if Nat.eqb n size_ then Some (true, error)
    else msg <- format_error st js "mismatchd array size" ;; Some (false, msg)
  else msg <- format_error st js "array expected" ;; Some (false, msg).

Definition check_object (st : store) (js : json_cview) (error : string)
  : option (bool * string) :=
  b <- is_object st js ;;
  if b then Some (true, error)
  else msg <- format_error st js "object expected" ;; Some (false, msg).

(** [set_array(js, error)] and [set_object(js, error)]. *)
Definition set_array_error (st : store) (js : json_view) (error : string)
  : option (store * bool * string) :=
  '(st1, ok) <- set_array st js ;;
  if ok then Some (st1, true, error)
  else msg <- format_error st1 js "array expected" ;; Some (st1, false, msg).

Definition set_object_error (st : store) (js : json_view) (error : string)
  : option (store * bool * string) :=
  '(st1, ok) <- set_object st js ;;
  if ok then Some (st1, true, error)
  else msg <- format_error st1 js "object expected" ;; Some (st1, false, msg).

(** [set_value_at] by index and by key. *)
Definition set_value_at (T : native_type) (st : store) (js : json_view)
  (idx : nat) (value : native T) (error : string)
  : option (store * bool * string) :=
  ejs <- get_element st js idx ;;
  if is_valid ejs then set_value T st ejs value error
  else msg <- format_error st js "array expected" ;; Some (st, false, msg).

Definition set_value_at_key (T : native_type) (st : store) (js : json_view)
  (key : string) (value : native T) (error : string)
  : option (store * bool * string) :=
  ejs <- get_element_key st js key ;;
  if is_valid ejs then set_value T st ejs value error
  else msg <- format_error st js "object expected" ;; Some (st, false, msg).

(** [append_value], [append_array] and [append_object]. *)
Definition append_value (T : native_type) (st : store) (js : json_view)
  (value : native T) (error : string) : option (store * bool * string) :=
  '(st1, ejs) <- append_element st js ;;
  if is_valid ejs then set_value T st1 ejs value error
  else msg <- format_error st1 js "array expected" ;; Some (st1, false, msg).

Definition append_array (st : store) (js : json_view) (error : string)
  : option (store * json_view * string) :=
  '(st1, ejs) <- append_element st js ;;
  if is_valid ejs then
    '(st2, ok) <- set_array st1 ejs ;;
    if ok then Some (st2, ejs, error)
    else
      msg <- format_error st2 ejs "array expected" ;;
      Some (st2, no_element js, msg)
  else
    msg <- format_error st1 js "array expected" ;;
    Some (st1, no_element js, msg).

Definition append_object (st : store) (js : json_view) (error : string)
  : option (store * json_view * string) :=
  '(st1, ejs) <- append_element st js ;;
  if is_valid ejs then
    '(st2, ok) <- set_object st1 ejs ;;
    if ok then Some (st2, ejs, error)
    else
      msg <- format_error st2 ejs "object expected" ;;
      Some (st2, no_element js, msg)
  else
    msg <- format_error st1 js "array expected" ;;
    Some (st1, no_element js, msg).

(** [operator==] on native values: the IEEE comparison on floating point,
    size and elements on vectors and arrays. *)
Fixpoint list_eqb {A : Type} (eqb : A -> A -> bool) (l l' : list A) : bool :=
  match l, l' with
  | [], [] => true
  | x :: l1, y :: l2 => eqb x y && list_eqb eqb l1 l2
  | _, _ => false
  end.

Fixpoint native_eqb (T : native_type) : native T -> native T -> bool :=
  match T return native T -> native T -> bool with
  | t_int64 | t_int32 | t_uint64 | t_uint32 => Z.eqb
  | t_double | t_float => PrimFloat.eqb
  | t_bool => Bool.eqb
  | t_string => String.eqb
  | t_vector T' => list_eqb (native_eqb T')
  | t_array T' _ => list_eqb (native_eqb T')
  end.

(** [insert_value], [insert_value_if], [insert_array] and
    [insert_object]. *)
Definition insert_value (T : native_type) (st : store) (js : json_view)
  (key : string) (value : native T) (error : string)
  : option (store * bool * string) :=
  '(st1, ejs) <- insert_element st js key ;;
  if is_valid ejs then set_value T st1 ejs value error
  else msg <- format_error st1 js "object expected" ;; Some (st1, false, msg).

Definition insert_value_if (T : native_type) (st : store) (js : json_view)
  (key : string) (value default_ : native T) (error : string)
  : option (store * bool * string) :=
  if native_eqb T value default_ then Some (st, true, error)
  else
    '(st1, ejs) <- insert_element st js key ;;
    if is_valid ejs then set_value T st1 ejs value error
    else
      msg <- format_error st1 js "object expected" ;; Some (st1, false, msg).

Definition insert_array (st : store) (js : json_view) (key : string)
  (error : string) : option (store * json_view * string) :=
  '(st1, ejs) <- insert_element st js key ;;
  if is_valid ejs then
    '(st2, ok) <- set_array st1 ejs ;;
    if ok then Some (st2, ejs, error)
    else
      msg <- format_error st2 ejs "array expected" ;;
      Some (st2, no_element js, msg)
  else
    msg <- format_error st1 js "object expected" ;;
    Some (st1, no_element js, msg).

Definition insert_object (st : store) (js : json_view) (key : string)
  (error : string) : option (store * json_view * string) :=
  '(st1, ejs) <- insert_element st js key ;;
  if is_valid ejs then
    '(st2, ok) <- set_object st1 ejs ;;
    if ok then Some (st2, ejs, error)
    else
      msg <- format_error st2 ejs "object expected" ;;
      Some (st2, no_element js, msg)
  else
    msg <- format_error st1 js "object expected" ;;
    Some (st1, no_element js, msg).

(** Conversion shortcuts.  The value [js] is an allocation of its own and
    the view is [{&js, &js}]; a failed conversion throws
    [json_error{error}]. *)
Definition from_json (T : native_type) (js : json_value)
  : option (Value.result (native T)) :=
  let error := "" in
  let value := native_default T in
  '(ok, value1, error1) <- get_value T [js] (get_root 0) value error ;;
  if negb ok then Some (Value.throw_json_error error1)
  else Some (Value.ret value1).

Definition to_json (T : native_type) (value : native T)
  : option (Value.result json_value) :=
  let error := "" in
  let js := json_value_default in
  '(st1, ok, error1) <- set_value T [js] (get_root 0) value error ;;
  if negb ok then Some (Value.throw_json_error error1)
  else js1 <- nth_error st1 0 ;; Some (Value.ret js1).

(* ------------------------------------------------------------------------- *)
(** ** Formatting and byte order *)
(* ------------------------------------------------------------------------- *)

(** The arguments of [format_values]: strings, the integers of every width
    ([std::to_string], after a widening cast for the 8-bit types), and
    [float] and [double], which reach [snprintf] as a double. *)
Inductive format_arg : Type :=
| arg_string (s : string)
| arg_integer (z : Z)
| arg_real (x : float).

(** [fmt.find("{}")]: the position of the first occurrence, [None] for
    [npos]. *)
Fixpoint find_braces (fmt : string) : option nat :=
  match fmt with
  | EmptyString => None
  | String c fmt' =>
      match fmt' with
      | EmptyString => None
      | String c' _ =>
          if Ascii.eqb c "{" && Ascii.eqb c' "}" then Some 0
          else option_map S (find_braces fmt')
      end
  end.

(** [fmt.substr(0, n)] and [fmt.substr(n)], for [n] up to the size. *)
Fixpoint string_take (n : nat) (s : string) : string :=
  match n, s with
  | S n', String c s' => String c (string_take n' s')
  | _, _ => EmptyString
  end.

Fixpoint string_drop (n : nat) (s : string) : string :=
  match n, s with
  | S n', String _ s' => string_drop n' s'
  | _, _ => s
  end.

(** The outcome of [format_values(str, fmt, args...)]: the final [str], or
    [std::invalid_argument] together with what [str] holds when it is
    thrown. *)
Inductive format_outcome : Type :=
| formatted (str : string)
| throw_invalid_argument (what : string) (str : string).

Section Formatting.

(** The characters that [snprintf] produces for "%g" and a double, which
    the C library fixes. *)
Variable snprintf_g : float -> string.

(** [format_value(str, value)]: the new [str].  The overloads for [float]
    and [double] print into a buffer of 256 characters, so at most 255
    characters arrive. *)
Definition format_value (str : string) (arg : format_arg) : string :=
  match arg with
  | arg_string s => (str ++ s)%string
  | arg_integer z => (str ++ to_string_int z)%string
  | arg_real x => (str ++ string_take 255 (snprintf_g x))%string
  end.

Fixpoint format_values (str fmt : string) (args : list format_arg)
  {struct args} : format_outcome :=
  match args with
  | [] =>
      match find_braces fmt with
      | Some _ => throw_invalid_argument "bad format string" str
      | None => formatted (str ++ fmt)
      end
  | arg :: args' =>
      match find_braces fmt with
      | None => throw_invalid_argument "bad format string" str
      | Some pos =>
          let str1 := (str ++ string_take pos fmt)%string in
          let str2 := format_value str1 arg in
          format_values str2 (string_drop (pos + 2) fmt) args'
      end
  end.

End Formatting.

(** [swap_endian]: [source] is the object representation of the value, a
    byte per [char]; [dest] starts with indeterminate bytes, [dest0], and
    the loop assigns [dest.bytes[k] = source.bytes[sizeof(T) - k - 1]]. *)
Definition swap_endian (dest0 source : list byte) : list byte :=
  let size := List.length source in
  fold_left
    (fun dest k => list_alter k (fun _ => nth (size - k - 1) source x00) dest)
    (seq 0 size) dest0.

(* ------------------------------------------------------------------------- *)
(** ** Command-line values and options *)
(* ------------------------------------------------------------------------- *)

Module Cli.

(** [enum struct cli_type]. *)
Module cli_type.
Inductive t : Set := integer | uinteger | number | boolean | string.
End cli_type.

(** [struct cli_value] and [cli_value{}]. *)
Module cli_value.
Record t : Set := make {
  type : cli_type.t;
  integer : Z;
  uinteger : Z;
  number : float;
  text : string
}.
Definition default : t :=
  {| type := cli_type.integer; integer := 0; uinteger := 0;
     number := 0%float; text := "" |}.
End cli_value.

(** The types [T] of a variable bound to an option, which are the types
    that the [static_assert]s accept: [string], [bool], the signed and the
    unsigned integers of [bits] bits, the enumerations over a signed or an
    unsigned integer of [bits] bits, [float], [double] and [long double].
    The format of [long double] is the platform's: a binary format of
    precision [prec] and exponent bound [emax] (64 and 16384 on x86, 113
    and 16384 for binary128, 53 and 1024 where it is [double]). *)
Inductive native_type : Set :=
| t_string | t_bool
| t_signed (bits : Z) | t_unsigned (bits : Z)
| t_enum (signed : bool) (bits : Z)
| t_float | t_double
| t_long_double (prec emax : Z).

(** A [long double] is a sign, a mantissa and an exponent; an integer and
    an enumerator are numbers. *)
Definition native (T : native_type) : Type :=
  match T with
  | t_string => string
  | t_bool => bool
  | t_signed _ | t_unsigned _ | t_enum _ _ => Z
  | t_float | t_double => float
  | t_long_double _ _ => spec_float
  end.

(** [T{}] *)
Definition native_default (T : native_type) : native T :=
  match T return native T with
  | t_string => ""%string
  | t_bool => false
  | t_signed _ | t_unsigned _ | t_enum _ _ => 0%Z
  | t_float | t_double => 0%float
  | t_long_double _ _ => S754_zero false
  end.

(** [(double)x] for a long double [x], round to nearest even in binary64,
    and [(long double)d] for a double [d]. *)
Definition long_double_to_double (x : spec_float) : float :=
  match x with
  | S754_finite s m e =>
      SF2Prim (binary_normalize 53 1024 (if s then Z.neg m else Z.pos m) e s)
  | _ => SF2Prim x
  end.

Definition double_to_long_double (prec emax : Z) (d : float) : spec_float :=
  match Prim2SF d with
  | S754_finite s m e =>
      binary_normalize prec emax (if s then Z.neg m else Z.pos m) e s
  | x => x
  end.

(** The casts to an integer type of [bits] bits. *)
Definition wrap_signed (bits z : Z) : Z :=
  ((z + 2 ^ (bits - 1)) mod 2 ^ bits - 2 ^ (bits - 1))%Z.
Definition wrap_unsigned (bits z : Z) : Z := (z mod 2 ^ bits)%Z.

Definition get_cli_type (T : native_type) : cli_type.t :=
  match T with
  | t_string => cli_type.string
  | t_bool => cli_type.boolean
  | t_signed _ => cli_type.integer
  | t_unsigned _ => cli_type.uinteger
  | t_enum _ _ => cli_type.integer
  | t_float | t_double | t_long_double _ _ => cli_type.number
  end.

Definition cli_type_eqb (a b : cli_type.t) : bool :=
  match a, b with
  | cli_type.integer, cli_type.integer
  | cli_type.uinteger, cli_type.uinteger
  | cli_type.number, cli_type.number
  | cli_type.boolean, cli_type.boolean
  | cli_type.string, cli_type.string => true
  | _, _ => false
  end.

(** [set_value(cvalue, value)]: the new [cvalue]; the members of the other
    types keep what they held. *)
Definition set_value (cvalue : cli_value.t) (T : native_type)
  : native T -> cli_value.t :=
  match T return native T -> cli_value.t with
  | t_string => fun value =>
      {| cli_value.type := get_cli_type t_string;
         cli_value.integer := cli_value.integer cvalue;
         cli_value.uinteger := cli_value.uinteger cvalue;
         cli_value.number := cli_value.number cvalue;
         cli_value.text := value |}
  | t_bool => fun value =>
      {| cli_value.type := get_cli_type t_bool;
         cli_value.integer := if value then 1 else 0;
         cli_value.uinteger := cli_value.uinteger cvalue;
         cli_value.number := cli_value.number cvalue;
         cli_value.text := cli_value.text cvalue |}
  | t_signed bits => fun value =>
      {| cli_value.type := get_cli_type (t_signed bits);
         cli_value.integer := to_int64 value;
         cli_value.uinteger := cli_value.uinteger cvalue;
         cli_value.number := cli_value.number cvalue;
         cli_value.text := cli_value.text cvalue |}
  | t_unsigned bits => fun value =>
      {| cli_value.type := get_cli_type (t_unsigned bits);
         cli_value.integer := cli_value.integer cvalue;
         cli_value.uinteger := to_uint64 value;
         cli_value.number := cli_value.number cvalue;
         cli_value.text := cli_value.text cvalue |}
  | t_enum signed bits => fun value =>
      {| cli_value.type := get_cli_type (t_enum signed bits);
         cli_value.integer := to_int64 value;
         cli_value.uinteger := cli_value.uinteger cvalue;
         cli_value.number := cli_value.number cvalue;
         cli_value.text := cli_value.text cvalue |}
  | t_float => fun value =>
      {| cli_value.type := get_cli_type t_float;
         cli_value.integer := cli_value.integer cvalue;
         cli_value.uinteger := cli_value.uinteger cvalue;
         cli_value.number := value;
         cli_value.text := cli_value.text cvalue |}
  | t_long_double prec emax => fun value =>
      {| cli_value.type := get_cli_type (t_long_double prec emax);
         cli_value.integer := cli_value.integer cvalue;
         cli_value.uinteger := cli_value.uinteger cvalue;
         cli_value.number := long_double_to_double value;
         cli_value.text := cli_value.text cvalue |}
  | t_double => fun value =>
      {| cli_value.type := get_cli_type t_double;
         cli_value.integer := cli_value.integer cvalue;
         cli_value.uinteger := cli_value.uinteger cvalue;
         cli_value.number := value;
         cli_value.text := cli_value.text cvalue |}
  end.

(** [get_value(cvalue, value)]: the boolean returned and the final
    [value]. *)
Definition get_value (cvalue : cli_value.t) (T : native_type)
  : native T -> bool * native T :=
  match T return native T -> bool * native T with
  | t_string => fun value =>
      if negb (cli_type_eqb (cli_value.type cvalue) cli_type.string)
      then (false, value)
      else (true, cli_value.text cvalue)
  | t_bool => fun value =>
      if negb (cli_type_eqb (cli_value.type cvalue) cli_type.boolean)
      then (false, value)
      else (true, negb (Z.eqb (cli_value.integer cvalue) 0))
  | t_signed bits => fun value =>
      if negb (cli_type_eqb (cli_value.type cvalue) cli_type.integer)
      then (false, value)
      else (true, wrap_signed bits (cli_value.integer cvalue))
  | t_unsigned bits => fun value =>
      if negb (cli_type_eqb (cli_value.type cvalue) cli_type.uinteger)
      then (false, value)
      else (true, wrap_unsigned bits (cli_value.uinteger cvalue))
  | t_enum signed bits => fun value =>
      if negb (cli_type_eqb (cli_value.type cvalue) cli_type.integer)
      then (false, value)
      else (true, if signed then wrap_signed bits (cli_value.integer cvalue)
                  else wrap_unsigned bits (cli_value.integer cvalue))
  | t_float => fun value =>
      if negb (cli_type_eqb (cli_value.type cvalue) cli_type.number)
      then (false, value)
      else (true, to_float (cli_value.number cvalue))
  | t_long_double prec emax => fun value =>
      if negb (cli_type_eqb (cli_value.type cvalue) cli_type.number)
      then (false, value)
      else (true, double_to_long_double prec emax (cli_value.number cvalue))
  | t_double => fun value =>
      if negb (cli_type_eqb (cli_value.type cvalue) cli_type.number)
      then (false, value)
      else (true, cli_value.number cvalue)
  end.




(** [struct cli_option]; [var] is the type of the variable that
    [set_reference] refers to. *)
Module cli_option.
Record t : Type := make {
  name : string;
  type : cli_type.t;
  req : bool;
  nargs : Z;
  usage : string;
  value : list cli_value.t;
  def : list cli_value.t;
  choices : list string;
  set : bool;
  var : Type;
  set_reference : list cli_value.t -> var -> Value.result (bool * var)
}.
End cli_option.

(** [struct cli_state]. *)
Module cli_state.
Record t : Type := make {
  name : string;
  usage : string;
  options : list cli_option.t;
  usage_options : string;
  usage_arguments : string;
  help : bool
}.
End cli_state.






(** The values of the model that are values of the C++ type and that the
    members of a [cli_value] hold exactly: the numbers of an integer type,
    or of the integer type under an enumeration, of at most 64 bits; the
    doubles that are floats; the long doubles that are doubles.  Every
    string, boolean and double is one. *)
Definition native_ok (T : native_type) : native T -> Prop :=
  match T return native T -> Prop with
  | t_signed bits | t_enum true bits => fun x =>
      (0 < bits <= 64 /\ - 2 ^ (bits - 1) <= x < 2 ^ (bits - 1))%Z
  | t_unsigned bits | t_enum false bits => fun x =>
      (0 < bits <= 64 /\ 0 <= x < 2 ^ bits)%Z
  | t_float => fun x => to_float x = x
  | t_long_double prec emax => fun x =>
      double_to_long_double prec emax (long_double_to_double x) = x
  | _ => fun _ => True
  end.

End Cli.

(* ------------------------------------------------------------------------- *)
(** ** Vocabulary of the statements *)
(* ------------------------------------------------------------------------- *)

(** The kinds with a size, and those [resize] accepts. *)
Definition sized (t : json_type) : bool :=
  match t with
  | string_ | array | object | binary => true
  | _ => false
  end.

Definition resizable (t : json_type) : bool :=
  match t with
  | string_ | array | binary => true
  | _ => false
  end.

(** The predicate [is_<k>] of a value and of a view, by kind. *)
Definition is_kind (k : json_type) (v : json_value) : bool :=
  match k with
  | null => Value.is_null v
  | integer => Value.is_integer v
  | unsigned_ => Value.is_unsigned v
  | real => Value.is_real v
  | boolean => Value.is_bool v
  | string_ => Value.is_string v
  | array => Value.is_array v
  | object => Value.is_object v
  | binary => Value.is_binary v
  end.

Definition is_kind_view (k : json_type) (st : store) (js : json_cview)
  : option bool :=
  match k with
  | null => is_null st js
  | integer => is_integer st js
  | unsigned_ => is_unsigned st js
  | real => is_real st js
  | boolean => is_boolean st js
  | string_ => is_string st js
  | array => is_array st js
  | object => is_object st js
  | binary => is_binary st js
  end.

(** The document [{"a":[1,2,{"b":3}]}] and the array [[1,"x"]]. *)
Definition document_a : json_value :=
  j_object
    [("a", j_array [j_integer 1; j_integer 2; j_object [("b", j_integer 3)]])].

Definition array_1_x : json_value := j_array [j_integer 1; j_string "x"].

(** The view with target [p] and the value of allocation [r] as root. *)
Definition view_at (r : nat) (p : ptr) : json_view :=
  {| value := Some p; root := Some {| obj := r; path := [] |} |}.

(** The message [format_error] builds from [message] and the path. *)
Definition error_message (message path : string) : string :=
  if Nat.eqb (String.length path) 0 then (message ++ " in json")%string
  else (message ++ " at " ++ path)%string.

(** The number of pairs of [o] with key [key]. *)
Definition count_key (key : string) (o : json_object) : nat :=
  List.length (filter (fun kv => String.eqb (fst kv) key) o).

(** What [obj[key] = w] makes of the pairs of an object. *)
Definition upsert (key : string) (w : json_value) (o : json_object)
  : json_object :=
  match find_key key o with
  | Some i => list_alter i (set_second w) o
  | None => o ++ [(key, w)]
  end.

(** The node that [set_value] leaves at its target for the native value
    [x] of type [T]. *)
Fixpoint encode (T : native_type) : native T -> json_value :=
  match T return native T -> json_value with
  | t_int64 => fun x => j_integer x
  | t_int32 => fun x => j_integer (to_int64 x)
  | t_uint64 => fun x => j_unsigned x
  | t_uint32 => fun x => j_unsigned (to_uint64 x)
  | t_double => fun x => j_real x
  | t_float => fun x => j_real x
  | t_bool => fun x => j_boolean x
  | t_string => fun x => j_string x
  | t_vector T' => fun l => j_array (map (encode T') l)
  | t_array T' _ => fun l => j_array (map (encode T') l)
  end.

(** The node at [t] lies in the tree below the node [v] stored at [q]. *)
Definition below (v : json_value) (q t : ptr) : Prop :=
  obj t = obj q
  /\ exists s, path t = path q ++ s /\ subvalue v s <> None.

(** The kind named in the message of a failed [set_value] and of a failed
    [get_value], by native type, and the kinds [get_value] accepts. *)
Definition set_value_expected (T : native_type) : string :=
  match T with
  | t_int64 | t_int32 => "integer expected"
  | t_uint64 | t_uint32 => "unsigned expected"
  | t_double | t_float => "real expected"
  | t_bool => "boolean expected"
  | t_string => "string expected"
  | t_vector _ | t_array _ _ => "array expected"
  end.

Definition get_value_expected (T : native_type) : string :=
  match T with
  | t_int64 | t_int32 | t_uint64 | t_uint32 => "integer expected"
  | t_double | t_float => "number expected"
  | t_bool => "boolean expected"
  | t_string => "string expected"
  | t_vector _ | t_array _ _ => "array expected"
  end.

Definition convertible (T : native_type) (k : json_type) : bool :=
  match T, k with
  | (t_int64 | t_int32 | t_uint64 | t_uint32), (integer | unsigned_) => true
  | (t_double | t_float), (integer | unsigned_ | real) => true
  | t_bool, boolean => true
  | t_string, string_ => true
  | (t_vector _ | t_array _ _), array => true
  | _, _ => false
  end.

(** [if (path.back() == '/') path.pop_back();] *)
Definition strip_slash (path : string) : string :=
  if back_is path "/" then pop_back path else path.

(** The path that the search builds for the node reached from [v] through
    the element positions [s]: an array level contributes "/0" whatever the
    position is, an object level "/" and the key of the pair. *)
Fixpoint render (v : json_value) (s : list nat) : option string :=
  match s with
  | [] => Some "/"
  | i :: s' =>
      match v with
      | j_array a =>
          e <- nth_error a i ;; r <- render e s' ;;
          Some ("/" ++ to_string_int 0 ++ strip_slash r)%string
      | j_object o =>
          kv <- nth_error o i ;; r <- render (snd kv) s' ;;
          Some ("/" ++ fst kv ++ strip_slash r)%string
      | _ => None
      end
  end.

(** The keys on the way from [v] through the positions [s], when every
    level on the way is an object. *)
Fixpoint object_keys (v : json_value) (s : list nat) : option (list string) :=
  match s with
  | [] => Some []
  | i :: s' =>
      match v with
      | j_object o =>
          kv <- nth_error o i ;; ks <- object_keys (snd kv) s' ;;
          Some (fst kv :: ks)
      | _ => None
      end
  end.

(** "/k1/k2/.../kn" *)
Definition path_of_keys (ks : list string) : string :=
  fold_right (fun k rest => ("/" ++ k ++ rest)%string) ""%string ks.

(** A key that is not empty and does not end in a slash. *)
Definition plain_key (k : string) : Prop :=
  k <> ""%string /\ back_is k "/" = false.

(** The pointer reached from [q] through the positions [s]. *)
Definition descend (q : ptr) (s : list nat) : ptr :=
  {| obj := obj q; path := path q ++ s |}.

(** The integer payloads of a node are in the range of their C++ type. *)
Definition payload_in_range (v : json_value) : Prop :=
  match v with
  | j_integer i => is_int64 i = true
  | j_unsigned u => is_uint64 u = true
  | _ => True
  end.

(** A text without "{}" in it. *)
Definition brace_free (p : string) : Prop :=
  forall a b : string, p <> (a ++ "{}" ++ b)%string.

(** The format string made of the pieces, a "{}" after each, and the last
    piece. *)
Definition join_braces (pieces : list string) (last : string) : string :=
  fold_right (fun p rest => (p ++ "{}" ++ rest)%string) last pieces.

(** What an argument prints: the string itself, the decimal digits of an
    integer, up to 255 characters of "%g" for a floating-point number. *)
Definition printed (snprintf_g : float -> string) (arg : format_arg)
  : string :=
  match arg with
  | arg_string s => s
  | arg_integer z => to_string_int z
  | arg_real x => string_take 255 (snprintf_g x)
  end.

(** Each piece followed by what its argument prints, as far as both
    last. *)
Fixpoint fill (snprintf_g : float -> string) (pieces : list string)
  (args : list format_arg) : string :=
  match pieces, args with
  | p :: pieces', arg :: args' =>
      (p ++ printed snprintf_g arg ++ fill snprintf_g pieces' args')%string
  | _, _ => ""%string
  end.

(** The number that the bytes spell with the first byte least significant,
    and with the first byte most significant. *)
Definition little_endian (bytes : list byte) : Z :=
  fold_right (fun b acc => (Z.of_N (Byte.to_N b) + 256 * acc)%Z) 0%Z bytes.

Definition big_endian (bytes : list byte) : Z :=
  fold_left (fun acc b => (Z.of_N (Byte.to_N b) + 256 * acc)%Z) bytes 0%Z.

(* ------------------------------------------------------------------------- *)
(** ** Properties *)
(* ------------------------------------------------------------------------- *)

Example to_double_5 : to_double 5 = 5%float.
Proof. reflexivity. Qed.

(** *** Views that point to a node *)

Lemma get_type_live st js p v :
  value js = Some p -> load st p = Some v ->
  get_type st js = Some (Value.type v).
Proof. intros Hp Hl. unfold get_type. rewrite Hp, Hl. reflexivity. Qed.

Lemma deref_live st js p v :
  value js = Some p -> load st p = Some v -> deref st js = Some v.
Proof. intros Hp Hl. unfold deref. rewrite Hp. exact Hl. Qed.

Lemma get_type_null_view st r :
  get_type st {| value := None; root := r |} = Some null.
Proof. reflexivity. Qed.

Lemma get_type_inv st js t :
  get_type st js = Some t ->
  (value js = None /\ t = null) \/
  (exists p v, value js = Some p /\ load st p = Some v /\ t = Value.type v).
Proof.
  unfold get_type. destruct (value js) as [p|] eqn:Hp.
  - destruct (load st p) as [v|] eqn:Hl; simpl; [|discriminate].
    intros [= <-]. right. exists p, v. auto.
  - intros [= <-]. left. auto.
Qed.


Lemma json_type_eqb_eq a b : json_type_eqb a b = true <-> a = b.
Proof.
  unfold json_type_eqb. destruct (json_type_eq_dec a b); split; congruence.
Qed.

(** Rewrites the type queries of a view once its type is known. *)
Ltac known_type H :=
  unfold is_null, is_integer, is_unsigned, is_real, is_integral, is_number,
    is_boolean, is_string, is_array, is_object, is_binary;
  rewrite ?H; cbn [obind].

Lemma length_vector_resize {A : Type} (d : A) n (l : list A) :
  List.length (vector_resize d n l) = n.
Proof.
  unfold vector_resize. rewrite length_app, length_firstn, repeat_length. lia.
Qed.

Lemma length_string_of_list_ascii l :
  String.length (string_of_list_ascii l) = List.length l.
Proof. induction l; simpl; congruence. Qed.

Lemma length_string_resize n s : String.length (string_resize n s) = n.
Proof.
  unfold string_resize.
  now rewrite length_string_of_list_ascii, length_vector_resize.
Qed.

(** C3 (as the code has it): [size], [empty] and [reserve] succeed on a
    value of kind string, array, object or binary and throw
    [json_error{"bad json type"}] on every other kind; [resize] succeeds
    (and gives the value the requested size) on kinds string, array and
    binary, and throws the same error on every other kind, kind object
    included. *)
Theorem C3_sized_operations (v : json_value) (n : nat) :
  (if sized (Value.type v)
   then (exists len, Value.size v = Value.ret len
                     /\ Value.empty v = Value.ret (Nat.eqb len 0))
        /\ Value.reserve n v = Value.ret v
   else Value.size v = Value.throw_json_error "bad json type"
        /\ Value.empty v = Value.throw_json_error "bad json type"
        /\ Value.reserve n v = Value.throw_json_error "bad json type")
  /\
  (if resizable (Value.type v)
   then exists v', Value.resize n v = Value.ret v'
                   /\ Value.type v' = Value.type v
                   /\ Value.size v' = Value.ret n
   else Value.resize n v = Value.throw_json_error "bad json type").
Proof.
  destruct v; cbn; repeat split; eauto.
  - eexists; repeat split. cbn. now rewrite length_string_resize.
  - eexists; repeat split. cbn. now rewrite length_vector_resize.
  - eexists; repeat split. cbn. now rewrite length_vector_resize.
Qed.

(** C3, the claim as stated fails: an object is one of the four sized
    kinds and [resize] throws on it. *)
Lemma C3_resize_object_throws :
  sized (Value.type Value.object) = true
  /\ Value.size Value.object = Value.ret 0%nat
  /\ Value.resize 0 Value.object = Value.throw_json_error "bad json type".
Proof. repeat split. Qed.

(** The view-level functions make the same choice: on an object [reserve]
    returns true and [resize] returns false. *)
Lemma resize_object_view st js p o n :
  value js = Some p -> load st p = Some (j_object o) ->
  reserve st js n = Some (st, true) /\ resize st js n = Some (st, false).
Proof.
  intros Hp Hl. pose proof (get_type_live _ _ _ _ Hp Hl) as Ht.
  unfold reserve, resize. known_type Ht. split; reflexivity.
Qed.

(** C4 (as the code has it): on an invalid view [get_type] returns the null
    kind and every [is_*] predicate returns false, [is_null] included (it
    tests [is_valid] first). *)
Theorem C4_invalid_view_type (st : store) (r : option ptr) :
  let js := {| value := None; root := r |} in
  is_valid js = false
  /\ get_type st js = Some null
  /\ is_null st js = Some false
  /\ is_integer st js = Some false
  /\ is_unsigned st js = Some false
  /\ is_real st js = Some false
  /\ is_integral st js = Some false
  /\ is_number st js = Some false
  /\ is_boolean st js = Some false
  /\ is_string st js = Some false
  /\ is_array st js = Some false
  /\ is_object st js = Some false
  /\ is_binary st js = Some false.
Proof. cbn. repeat split. Qed.

(** C4, the claim as stated fails: [is_null] of an invalid view is false. *)
Lemma C4_is_null_invalid_view_false :
  let js := {| value := None; root := None |} in
  get_type [] js = Some null /\ is_null [] js = Some false
  /\ is_null [] js <> Some true.
Proof. cbn. repeat split. discriminate. Qed.

(** *** Reading and writing the store *)

Lemma nth_error_list_alter_eq {A : Type} (f : A -> A) (l : list A) i x :
  nth_error l i = Some x -> nth_error (list_alter i f l) i = Some (f x).
Proof.
  revert i; induction l as [|y l IH]; intros [|i]; simpl; try discriminate.
  - now intros [= ->].
  - apply IH.
Qed.

Lemma nth_error_list_alter_neq {A : Type} (f : A -> A) (l : list A) i j :
  i <> j -> nth_error (list_alter i f l) j = nth_error l j.
Proof.
  revert i j; induction l as [|y l IH]; intros [|i] [|j] H; simpl; auto;
    try congruence.
Qed.

Lemma length_list_alter {A : Type} (f : A -> A) (l : list A) i :
  List.length (list_alter i f l) = List.length l.
Proof. revert i; induction l; intros [|i]; simpl; auto. Qed.

Lemma subvalue_put_same v p w u :
  subvalue v p = Some u -> subvalue (put v p w) p = Some w.
Proof.
  revert v; induction p as [|i p IH]; intros v; simpl; [reflexivity|].
  destruct v; try discriminate.
  - destruct (nth_error a i) as [e|] eqn:He; [|discriminate].
    intros H. rewrite (nth_error_list_alter_eq _ _ _ _ He). eauto.
  - destruct (nth_error o i) as [[k e]|] eqn:He; [|discriminate].
    intros H. rewrite (nth_error_list_alter_eq _ _ _ _ He). simpl. eauto.
Qed.

Lemma load_store_put_same st p w u :
  load st p = Some u -> load (store_put st p w) p = Some w.
Proof.
  unfold load, store_put.
  destruct (nth_error st (obj p)) as [v|] eqn:Hv; [|discriminate].
  intros H. rewrite (nth_error_list_alter_eq _ _ _ _ Hv).
  eapply subvalue_put_same; eauto.
Qed.

Lemma set_type_live st js p v k :
  value js = Some p -> load st p = Some v ->
  set_type st js k = Some (store_put st p (Value.zero k), true).
Proof. intros Hp Hl. unfold set_type. rewrite Hp, Hl. reflexivity. Qed.

Lemma write_live st js p v w :
  value js = Some p -> load st p = Some v ->
  write st js w = Some (store_put st p w).
Proof. intros Hp Hl. unfold write. rewrite Hp. simpl. rewrite Hl. reflexivity. Qed.

(** C5: [set_type(k)] always succeeds on a value and on a valid view; after
    it the kind is [k], the predicate [is_<k'>] of a kind [k'] holds exactly
    for [k' = k], and the payload is the zero or empty payload of [k]: the
    number 0, [false], the empty string, the array, the object or the
    binary without elements, whatever the value held before.  (The view
    layer also has [is_integral] and [is_number], which are not the
    predicate of one kind: they hold exactly when [k] is one of theirs.) *)
Theorem C5_set_type_kind (k : json_type) :
  (forall v : json_value,
      Value.type (Value.set_type k v) = k
      /\ (forall k', is_kind k' (Value.set_type k v) = json_type_eqb k k')
      /\ Value.set_type k v
         = match k with
           | null => j_null 0
           | integer => j_integer 0
           | unsigned_ => j_unsigned 0
           | real => j_real 0%float
           | boolean => j_boolean false
           | string_ => j_string ""
           | array => j_array []
           | object => j_object []
           | binary => j_binary []
           end)
  /\
  (forall (st : store) (js : json_view) (p : ptr) (old : json_value),
      value js = Some p -> load st p = Some old ->
      exists st',
        set_type st js k = Some (st', true)
        /\ load st' p
           = Some match k with
                  | null => j_null 0
                  | integer => j_integer 0
                  | unsigned_ => j_unsigned 0
                  | real => j_real 0%float
                  | boolean => j_boolean false
                  | string_ => j_string ""
                  | array => j_array []
                  | object => j_object []
                  | binary => j_binary []
                  end
        /\ get_type st' js = Some k
        /\ (forall k', is_kind_view k' st' js = Some (json_type_eqb k k'))
        /\ is_integral st' js
           = Some (json_type_eqb k integer || json_type_eqb k unsigned_)
        /\ is_number st' js
           = Some (json_type_eqb k integer || json_type_eqb k unsigned_
                   || json_type_eqb k real)).
Proof.
  split.
  - intros v. split; [now destruct k|]. split; [|now destruct k].
    intros k'. destruct k, k'; reflexivity.
  - intros st js p old Hp Hl.
    exists (store_put st p (Value.zero k)).
    pose proof (load_store_put_same _ _ (Value.zero k) _ Hl) as Hl'.
    assert (Ht : get_type (store_put st p (Value.zero k)) js = Some k).
    { rewrite (get_type_live _ _ _ _ Hp Hl'). now destruct k. }
    split; [eauto using set_type_live|].
    split; [rewrite Hl'; now destruct k|]. split; [assumption|].
    split; [|split; known_type Ht; now destruct k].
    intros k'. destruct k'; cbn [is_kind_view]; known_type Ht; try reflexivity.
    unfold is_valid. now rewrite Hp.
Qed.

(** A string, an object and a number made an integer, a boolean, a string
    and an array. *)
Lemma C5_set_type_kind_witness :
  Value.set_type integer (j_string "old") = j_integer 0
  /\ Value.set_type boolean (j_object [("k", j_integer 1)]) = j_boolean false
  /\ (exists st',
        set_type [j_integer 7] (get_root 0) string_ = Some (st', true)
        /\ load st' {| obj := 0; path := [] |} = Some (j_string "")
        /\ get_type st' (get_root 0) = Some string_)
  /\ (exists st',
        set_type [j_string "old"] (get_root 0) array = Some (st', true)
        /\ load st' {| obj := 0; path := [] |} = Some (j_array [])
        /\ forall k',
             is_kind_view k' st' (get_root 0) = Some (json_type_eqb array k')).
Proof.
  split; [|split; [|split]].
  - apply (proj1 (C5_set_type_kind integer) (j_string "old")).
  - apply (proj1 (C5_set_type_kind boolean) (j_object [("k", j_integer 1)])).
  - destruct (proj2 (C5_set_type_kind string_) [j_integer 7] (get_root 0)
                {| obj := 0; path := [] |} (j_integer 7) eq_refl eq_refl)
      as (st' & H1 & H2 & H3 & _).
    exists st'. repeat split; assumption.
  - destruct (proj2 (C5_set_type_kind array) [j_string "old"] (get_root 0)
                {| obj := 0; path := [] |} (j_string "old") eq_refl eq_refl)
      as (st' & H1 & H2 & _ & H4 & _).
    exists st'. repeat split; assumption.
Defined.

(** C8: [get_number] succeeds exactly on kinds integer, unsigned and real and
    returns the stored number as a double; [get_integral] succeeds exactly
    on kinds integer and unsigned.  On every other kind, and on an invalid
    view, they return false and leave the output as it was. *)
Theorem C8_numeric_widening (st : store) (js : json_cview) (t : json_type)
  (out : float) (outi : Z) :
  get_type st js = Some t ->
  match t with
  | integer =>
      exists i, deref st js = Some (j_integer i)
        /\ get_number st js out = Some (true, to_double i)
        /\ get_integral st js outi = Some (true, to_int64 i)
        /\ get_integral_u st js outi = Some (true, to_uint64 i)
  | unsigned_ =>
      exists u, deref st js = Some (j_unsigned u)
        /\ get_number st js out = Some (true, to_double u)
        /\ get_integral st js outi = Some (true, to_int64 u)
        /\ get_integral_u st js outi = Some (true, to_uint64 u)
  | real =>
      exists r, deref st js = Some (j_real r)
        /\ get_number st js out = Some (true, r)
        /\ get_integral st js outi = Some (false, outi)
        /\ get_integral_u st js outi = Some (false, outi)
  | _ =>
      get_number st js out = Some (false, out)
      /\ get_integral st js outi = Some (false, outi)
      /\ get_integral_u st js outi = Some (false, outi)
  end.
Proof.
  intros Ht.
  assert (Hn : get_number st js out =
               (if json_type_eqb t real then
                  v <- deref st js ;; r <- _real v ;; Some (true, r)
                else if json_type_eqb t integer then
                  v <- deref st js ;; i <- _integer v ;; Some (true, to_double i)
                else if json_type_eqb t unsigned_ then
                  v <- deref st js ;; u <- _unsigned v ;; Some (true, to_double u)
                else Some (false, out))).
  { unfold get_number. known_type Ht.
    destruct (json_type_eqb t real); [reflexivity|].
    destruct (json_type_eqb t integer); [reflexivity|].
    now destruct (json_type_eqb t unsigned_). }
  assert (Hi : get_integral st js outi =
               (if json_type_eqb t integer then
                  v <- deref st js ;; i <- _integer v ;; Some (true, to_int64 i)
                else if json_type_eqb t unsigned_ then
                  v <- deref st js ;; u <- _unsigned v ;; Some (true, to_int64 u)
                else Some (false, outi))).
  { unfold get_integral. known_type Ht.
    destruct (json_type_eqb t integer); [reflexivity|].
    now destruct (json_type_eqb t unsigned_). }
  assert (Hu : get_integral_u st js outi =
               (if json_type_eqb t integer then
                  v <- deref st js ;; i <- _integer v ;; Some (true, to_uint64 i)
                else if json_type_eqb t unsigned_ then
                  v <- deref st js ;; u <- _unsigned v ;; Some (true, to_uint64 u)
                else Some (false, outi))).
  { unfold get_integral_u. known_type Ht.
    destruct (json_type_eqb t integer); [reflexivity|].
    now destruct (json_type_eqb t unsigned_). }
  rewrite Hn, Hi, Hu. clear Hn Hi Hu.
  destruct (get_type_inv _ _ _ Ht) as [[Hp ->]|(p & v & Hp & Hl & ->)].
  - cbn. auto.
  - rewrite (deref_live _ _ _ _ Hp Hl).
    destruct v; cbn; eauto 10.
Qed.

(** The example of the specification: a node of kind unsigned holding 5
    converts to 5.0, and a node of kind real fails [get_integral]. *)
Lemma C8_numeric_widening_witness :
  get_number [j_unsigned 5] (get_root 0) 0%float = Some (true, 5%float)
  /\ get_integral [j_real 2.5%float] (get_root 0) 7%Z = Some (false, 7%Z).
Proof.
  split.
  - destruct (C8_numeric_widening [j_unsigned 5] (get_root 0) unsigned_
                0%float 0%Z eq_refl) as (u & Hd & Hn & _).
    injection Hd as <-. exact Hn.
  - destruct (C8_numeric_widening [j_real 2.5%float] (get_root 0) real
                0%float 7%Z eq_refl) as (r & _ & _ & Hi & _).
    exact Hi.
Defined.

(** C10: on a view whose kind is none of array, object, string and binary,
    an invalid view included (its kind is null), the view-level [size]
    returns 1 and the view-level [empty] returns true. *)
Theorem C10_size_of_unsized_view (st : store) (js : json_cview)
  (t : json_type) :
  get_type st js = Some t -> sized t = false ->
  size st js = Some 1%nat /\ empty st js = Some true.
Proof.
  intros Ht Hs. unfold size, empty. known_type Ht.
  destruct t; try discriminate; split; reflexivity.
Qed.

Lemma C10_size_of_unsized_view_witness :
  (size [j_integer 7] (get_root 0) = Some 1%nat
   /\ empty [j_integer 7] (get_root 0) = Some true)
  /\ (size [] {| value := None; root := None |} = Some 1%nat
      /\ empty [] {| value := None; root := None |} = Some true).
Proof.
  split.
  - exact (C10_size_of_unsized_view [j_integer 7] (get_root 0) integer
             eq_refl eq_refl).
  - exact (C10_size_of_unsized_view [] {| value := None; root := None |} null
             eq_refl eq_refl).
Defined.

(** *** The path resolver *)

(** C1 (the code at the inputs of the claim): in [{"a":[1,2,{"b":3}]}] the
    node holding 3 is element 0 of element 2 of element 0 of the root, and
    [compute_path] of the view onto it returns ["/a/0/b"], not ["/a/2/b"]:
    the array segment is [idx], which stays 0.  The root view gives ["/"];
    an invalid view and a target outside the root's tree give [""]. *)
Theorem C1_compute_path_document :
  let st := [document_a; j_integer 3] in
  let three := {| obj := 0; path := [0; 2; 0]%nat |} in
  load st three = Some (j_integer 3)
  /\ compute_path st (view_at 0 three) = Some "/a/0/b"
  /\ compute_path st (view_at 0 three) <> Some "/a/2/b"
  /\ compute_path st (get_root 0) = Some "/"
  /\ compute_path st {| value := None; root := root (get_root 0) |} = Some ""
  /\ compute_path st (view_at 0 {| obj := 1; path := [] |}) = Some "".
Proof. cbv zeta. repeat split; try reflexivity. vm_compute. discriminate. Qed.

(** Every element of a root array of scalars gets the segment ["/0"]. *)
Example compute_path_second_element :
  compute_path [array_1_x] (element (get_root 0) 1) = Some "/0".
Proof. reflexivity. Qed.

Lemma compute_path_invalid st r :
  compute_path st {| value := None; root := r |} = Some "".
Proof.
  unfold compute_path, _compute_path. cbn.
  now rewrite !orb_true_r.
Qed.

Lemma ptr_eqb_refl p : ptr_eqb p p = true.
Proof.
  unfold ptr_eqb. rewrite Nat.eqb_refl.
  now destruct (list_eq_dec Nat.eq_dec (path p) (path p)).
Qed.

Lemma compute_path_root st r :
  compute_path st {| value := Some r; root := Some r |} = Some "/".
Proof.
  unfold compute_path, _compute_path, same_target. cbn.
  now rewrite ptr_eqb_refl.
Qed.

Lemma format_error_message st js message path :
  compute_path st js = Some path ->
  format_error st js message = Some (error_message message path).
Proof.
  intros H. unfold format_error, error_message. rewrite H. cbn.
  now destruct (Nat.eqb (String.length path) 0).
Qed.

(** *** Composite conversions *)

(** C2 (the code at a failing element): converting the array [[1,"x"]] to a
    [vector<int64_t>] or to an [array<int64_t, 2>] returns false and leaves
    the caller's error string as it was, here empty, although the conversion
    of element 1 on its own produces "integer expected at /0": the element
    conversions are called through the two-argument template, whose error
    string is a local. *)
Theorem C2_element_message_dropped :
  let st := [array_1_x] in
  get_value t_int64 st (element (get_root 0) 1) 0%Z ""
    = Some (false, 0%Z, "integer expected at /0")
  /\ get_value (t_vector t_int64) st (get_root 0) [] ""
     = Some (false, [1%Z; 0%Z], "")
  /\ get_value (t_array t_int64 2) st (get_root 0) [7%Z; 8%Z] ""
     = Some (false, [1%Z; 8%Z], "").
Proof. cbv zeta. repeat split. Qed.

(** In general the [vector<T>] overload of [get_value] never writes the
    error string once its argument is an array. *)
Lemma get_value_vector_error_unchanged T st js value error r :
  is_array st js = Some true ->
  get_value (t_vector T) st js value error = Some r ->
  snd r = error.
Proof.
  intros Ha. cbn [get_value]. rewrite Ha. cbn [obind].
  destruct (array_size st js); cbn [obind]; [|discriminate].
  destruct (iterate_array st js); cbn [obind]; [|discriminate].
  match goal with |- context [for_each ?f ?l ?s] =>
    destruct (for_each f l s) as [[ok v1]|] end; cbn [obind]; [|discriminate].
  now intros [= <-].
Qed.

(** *** Missing elements *)

Lemma deref_inv st js v :
  deref st js = Some v -> exists p, value js = Some p /\ load st p = Some v.
Proof.
  unfold deref. destruct (value js) as [p|]; [|discriminate].
  intros H. exists p. auto.
Qed.

Lemma get_type_deref st js v :
  deref st js = Some v -> get_type st js = Some (Value.type v).
Proof.
  intros H. destruct (deref_inv _ _ _ H) as (p & Hp & Hl).
  eauto using get_type_live.
Qed.

Lemma get_element_array st js a idx :
  deref st js = Some (j_array a) ->
  get_element st js idx =
  Some (if Nat.ltb idx (List.length a) then element js idx else no_element js).
Proof.
  intros H. pose proof (get_type_deref _ _ _ H) as Ht.
  unfold get_element, array_size. known_type Ht. cbn -[Nat.ltb].
  rewrite H. cbn -[Nat.ltb].
  now destruct (Nat.ltb idx (List.length a)).
Qed.

Lemma get_element_key_object st js o key :
  deref st js = Some (j_object o) ->
  get_element_key st js key =
  Some (match find_key key o with
        | Some i => element js i
        | None => no_element js
        end).
Proof.
  intros H. pose proof (get_type_deref _ _ _ H) as Ht.
  unfold get_element_key. known_type Ht. cbn. rewrite H. cbn.
  now destruct (find_key key o).
Qed.

(** C9: on an array view an index past the end, and on an object view a key
    that no pair has, make [get_element] return the invalid view
    [{nullptr, root}]; [get_value_at] then returns false, leaves the output
    value as it was and sets the error string to the message followed by
    the path [compute_path] gives for the container ("... at <path>"; when
    that path is empty, "... in json").  The two cases are independent:
    each holds for every store and view of its kind. *)
Theorem C9_missing_element (T : native_type) (value0 : native T)
  (error : string) :
  (forall (st : store) (jsa : json_view) (a : json_array) (idx : nat)
          (patha : string),
      deref st jsa = Some (j_array a) -> List.length a <= idx ->
      compute_path st jsa = Some patha ->
      get_element st jsa idx = Some (no_element jsa)
      /\ is_valid (no_element jsa) = false
      /\ get_value_at T st jsa idx value0 error =
         Some (false, value0,
               error_message ("index out of range " ++ to_string idx) patha)
      /\ exists prefix,
           error_message ("index out of range " ++ to_string idx) patha
           = (prefix ++ patha)%string)
  /\
  (forall (st : store) (jso : json_view) (o : json_object) (key : string)
          (patho : string),
      deref st jso = Some (j_object o) -> find_key key o = None ->
      compute_path st jso = Some patho ->
      get_element_key st jso key = Some (no_element jso)
      /\ is_valid (no_element jso) = false
      /\ get_value_at_key T st jso key value0 error =
         Some (false, value0, error_message ("missing key " ++ key) patho)
      /\ exists prefix,
           error_message ("missing key " ++ key) patho
           = (prefix ++ patho)%string).
Proof.
  assert (Hsuffix : forall m path,
             exists prefix, error_message m path = (prefix ++ path)%string).
  { intros m path. unfold error_message.
    destruct path as [|c path]; cbn.
    - exists (m ++ " in json")%string.
      clear. induction (m ++ " in json")%string; cbn; congruence.
    - exists (m ++ " at ")%string.
      clear. induction m; cbn; congruence. }
  split.
  - intros st jsa a idx patha Ha Hidx Hpa.
    assert (Ea : get_element st jsa idx = Some (no_element jsa)).
    { rewrite (get_element_array _ _ _ _ Ha).
      now replace (Nat.ltb idx (List.length a)) with false
        by (symmetry; apply Nat.ltb_ge; lia). }
    split; [assumption|]. split; [reflexivity|]. split; [|auto].
    unfold get_value_at. rewrite Ea. cbn.
    now rewrite (format_error_message _ _ _ _ Hpa).
  - intros st jso o key patho Ho Hkey Hpo.
    assert (Eo : get_element_key st jso key = Some (no_element jso)).
    { rewrite (get_element_key_object _ _ _ _ Ho). now rewrite Hkey. }
    split; [assumption|]. split; [reflexivity|]. split; [|auto].
    unfold get_value_at_key. rewrite Eo. cbn.
    now rewrite (format_error_message _ _ _ _ Hpo).
Qed.

(** The examples of the specification: index 5 in a document that is an
    array of 3 elements, and the key "missing" in an object inside another
    document. *)
Lemma C9_missing_element_witness :
  let sta := [j_array [j_integer 1; j_integer 2; j_integer 3]] in
  let sto := [j_object [("o", j_object [("k", j_boolean true)])]] in
  let jso := element (get_root 0) 0 in
  (get_element sta (get_root 0) 5 = Some (no_element (get_root 0))
   /\ get_value_at t_int64 sta (get_root 0) 5 42%Z ""
      = Some (false, 42%Z, "index out of range 5 at /"))
  /\ (get_element_key sto jso "missing" = Some (no_element jso)
      /\ get_value_at_key t_int64 sto jso "missing" 42%Z ""
         = Some (false, 42%Z, "missing key missing at /o")).
Proof.
  cbv zeta. split.
  - destruct (proj1 (C9_missing_element t_int64 42%Z "")
                [j_array [j_integer 1; j_integer 2; j_integer 3]]
                (get_root 0) [j_integer 1; j_integer 2; j_integer 3] 5 "/"
                eq_refl ltac:(simpl; lia) eq_refl)
      as (E & _ & V & _).
    split; assumption.
  - destruct (proj2 (C9_missing_element t_int64 42%Z "")
                [j_object [("o", j_object [("k", j_boolean true)])]]
                (element (get_root 0) 0) [("k", j_boolean true)] "missing"
                "/o" eq_refl eq_refl eq_refl)
      as (E & _ & V & _).
    split; assumption.
Defined.

(** *** Objects: find or insert *)

Lemma find_from_S key o i :
  find_from key o (S i) = option_map S (find_from key o i).
Proof.
  revert i; induction o as [|[k v] o IH]; intros i; simpl; [reflexivity|].
  destruct (String.eqb k key); [reflexivity|apply IH].
Qed.

Lemma find_key_cons key k v o :
  find_key key ((k, v) :: o) =
  if String.eqb k key then Some 0 else option_map S (find_key key o).
Proof. unfold find_key. simpl. now rewrite find_from_S. Qed.

(** [find_key] returns the first pair with the key. *)
Lemma find_key_first key o i :
  find_key key o = Some i ->
  (exists v, nth_error o i = Some (key, v))
  /\ forall j kv, j < i -> nth_error o j = Some kv -> fst kv <> key.
Proof.
  revert i; induction o as [|[k v] o IH]; intros i.
  - discriminate.
  - rewrite find_key_cons. destruct (String.eqb_spec k key) as [->|Hne].
    + intros [= <-]. split; [now exists v|]. intros j kv Hj. lia.
    + destruct (find_key key o) as [i'|]; [|discriminate].
      intros [= <-]. destruct (IH i' eq_refl) as [Hv Hfirst].
      split; [exact Hv|].
      intros [|j] kv Hj; simpl.
      * now intros [= <-].
      * apply Hfirst. lia.
Qed.

Lemma find_key_none_count key o :
  find_key key o = None -> count_key key o = 0.
Proof.
  induction o as [|[k v] o IH]; [reflexivity|].
  rewrite find_key_cons. unfold count_key in *. simpl.
  destruct (String.eqb k key); [discriminate|].
  destruct (find_key key o); [discriminate|]. auto.
Qed.

Lemma find_key_some_count key o i :
  find_key key o = Some i -> 1 <= count_key key o.
Proof.
  revert i; induction o as [|[k v] o IH]; intros i; [discriminate|].
  rewrite find_key_cons. unfold count_key in *. simpl.
  destruct (String.eqb k key); simpl; [lia|].
  destruct (find_key key o) as [i'|]; [|discriminate]. eauto.
Qed.

Lemma find_key_app_new key o w :
  find_key key o = None -> find_key key (o ++ [(key, w)]) = Some (List.length o).
Proof.
  induction o as [|[k v] o IH]; simpl.
  - intros _. rewrite find_key_cons. now rewrite String.eqb_refl.
  - rewrite !find_key_cons. destruct (String.eqb k key); [discriminate|].
    destruct (find_key key o); [discriminate|].
    intros _. now rewrite IH.
Qed.

Lemma count_key_app key o o' :
  count_key key (o ++ o') = count_key key o + count_key key o'.
Proof. unfold count_key. now rewrite filter_app, length_app. Qed.

Lemma map_fst_set_second w o i :
  map fst (list_alter i (set_second w) o) = map fst o.
Proof.
  revert i; induction o as [|kv o IH]; intros [|i]; simpl; auto.
  now rewrite IH.
Qed.

Lemma find_key_keys key o o' :
  map fst o = map fst o' -> find_key key o = find_key key o'.
Proof.
  revert o'; induction o as [|[k v] o IH]; intros [|[k' v'] o']; simpl;
    try discriminate; [reflexivity|].
  intros [= -> H]. rewrite !find_key_cons. now rewrite (IH _ H).
Qed.

Lemma count_key_keys key o o' :
  map fst o = map fst o' -> count_key key o = count_key key o'.
Proof.
  unfold count_key.
  revert o'; induction o as [|[k v] o IH]; intros [|[k' v'] o']; simpl;
    try discriminate; [reflexivity|].
  intros [= -> H]. destruct (String.eqb k' key); simpl; now rewrite (IH _ H).
Qed.

Lemma nth_error_app_last {A : Type} (l : list A) x :
  nth_error (l ++ [x]) (List.length l) = Some x.
Proof. induction l; simpl; auto. Qed.

Lemma assign_subscript_upsert key w o :
  Value.assign_subscript key w (j_object o) = Value.ret (j_object (upsert key w o)).
Proof.
  unfold Value.assign_subscript, Value.subscript, Value.find, upsert. cbn.
  destruct (find_key key o) as [i|] eqn:Hf; cbn; [reflexivity|].
  f_equal. f_equal. clear Hf. induction o as [|kv o IH]; simpl; [reflexivity|].
  now rewrite IH.
Qed.

(** After [obj[key] = w] the first pair with the key holds [w]. *)
Lemma upsert_find key w o :
  exists i, find_key key (upsert key w o) = Some i
            /\ nth_error (upsert key w o) i = Some (key, w)
            /\ (find_key key o = Some i \/
                (find_key key o = None /\ i = List.length o)).
Proof.
  unfold upsert. destruct (find_key key o) as [i|] eqn:Hf.
  - exists i. split; [|split; [|now left]].
    + rewrite <- Hf. apply find_key_keys, map_fst_set_second.
    + destruct (find_key_first _ _ _ Hf) as [[v Hv] _].
      now rewrite (nth_error_list_alter_eq _ _ _ _ Hv).
  - exists (List.length o). split; [|split; [|now right]].
    + now apply find_key_app_new.
    + apply nth_error_app_last.
Qed.

Lemma insert_element_object st js p o key :
  value js = Some p -> load st p = Some (j_object o) ->
  insert_element st js key =
  Some (match find_key key o with
        | Some i => (st, element js i)
        | None =>
            (store_put st p (j_object (o ++ [(key, json_value_default)])),
             element js (List.length o))
        end).
Proof.
  intros Hp Hl. pose proof (get_type_live _ _ _ _ Hp Hl) as Ht.
  unfold insert_element. known_type Ht. cbn.
  rewrite (deref_live _ _ _ _ Hp Hl). cbn.
  destruct (find_key key o); [reflexivity|].
  now rewrite (write_live _ _ _ _ _ Hp Hl).
Qed.

Lemma object_size_object st js p o :
  value js = Some p -> load st p = Some (j_object o) ->
  object_size st js = Some (List.length o).
Proof.
  intros Hp Hl. pose proof (get_type_live _ _ _ _ Hp Hl) as Ht.
  unfold object_size. known_type Ht. cbn.
  now rewrite (deref_live _ _ _ _ Hp Hl).
Qed.

(** *** Pointers to elements *)

Lemma list_alter_ext_at {A : Type} (f g : A -> A) (l : list A) i x :
  nth_error l i = Some x -> f x = g x -> list_alter i f l = list_alter i g l.
Proof.
  revert i; induction l as [|y l IH]; intros [|i]; simpl; try discriminate.
  - intros [= ->] ->. reflexivity.
  - intros H E. f_equal. eauto.
Qed.

Lemma list_alter_ext {A : Type} (f g : A -> A) (l : list A) i :
  (forall x, f x = g x) -> list_alter i f l = list_alter i g l.
Proof.
  intros E. revert i; induction l as [|y l IH]; intros [|i]; simpl; auto.
  - now rewrite E.
  - now rewrite IH.
Qed.

Lemma list_alter_compose {A : Type} (f g : A -> A) (l : list A) i :
  list_alter i g (list_alter i f l) = list_alter i (fun x => g (f x)) l.
Proof.
  revert i; induction l as [|y l IH]; intros [|i]; simpl; auto.
  now rewrite IH.
Qed.

Lemma list_alter_none {A : Type} (f : A -> A) (l : list A) i :
  nth_error l i = None -> list_alter i f l = l.
Proof.
  revert i; induction l as [|y l IH]; intros [|i]; simpl; auto.
  - discriminate.
  - intros H. now rewrite IH.
Qed.

Lemma list_alter_middle {A : Type} (f : A -> A) (l1 l2 : list A) x :
  list_alter (List.length l1) f (l1 ++ x :: l2) = l1 ++ f x :: l2.
Proof. induction l1; simpl; congruence. Qed.

Lemma subvalue_app v p q :
  subvalue v (p ++ q) = (u <- subvalue v p ;; subvalue u q).
Proof.
  revert v; induction p as [|i p IH]; intros v; simpl; [reflexivity|].
  destruct v; try reflexivity.
  - destruct (nth_error a i); auto.
  - destruct (nth_error o i) as [[k e]|]; auto.
Qed.

Lemma put_app v p q w u :
  subvalue v p = Some u -> put v (p ++ q) w = put v p (put u q w).
Proof.
  revert v; induction p as [|i p IH]; intros v; simpl.
  - now intros [= ->].
  - destruct v; try discriminate.
    + destruct (nth_error a i) as [e|] eqn:He; [|discriminate].
      intros H. f_equal. eapply list_alter_ext_at; eauto.
    + destruct (nth_error o i) as [[k e]|] eqn:He; [|discriminate].
      intros H. f_equal. eapply list_alter_ext_at; eauto.
      simpl. f_equal. auto.
Qed.

Lemma put_put v p w1 w2 : put (put v p w1) p w2 = put v p w2.
Proof.
  revert v; induction p as [|i p IH]; intros v; simpl; [reflexivity|].
  destruct v; try reflexivity.
  - f_equal. rewrite list_alter_compose. now apply list_alter_ext.
  - f_equal. rewrite list_alter_compose. apply list_alter_ext.
    intros [k e]. simpl. now rewrite IH.
Qed.

Lemma store_put_put st p w1 w2 :
  store_put (store_put st p w1) p w2 = store_put st p w2.
Proof.
  unfold store_put. rewrite list_alter_compose. apply list_alter_ext.
  intros v. apply put_put.
Qed.

Lemma load_child_array st p a i :
  load st p = Some (j_array a) -> load st (child p i) = nth_error a i.
Proof.
  unfold load, child. simpl.
  destruct (nth_error st (obj p)) as [v|]; [|discriminate].
  intros H. rewrite subvalue_app, H. simpl.
  now destruct (nth_error a i).
Qed.

Lemma store_put_child_array st p a i w :
  load st p = Some (j_array a) ->
  store_put st (child p i) w =
  store_put st p (j_array (list_alter i (fun _ => w) a)).
Proof.
  unfold load, store_put, child. simpl.
  destruct (nth_error st (obj p)) as [v|] eqn:Hv; [|discriminate].
  intros H. eapply list_alter_ext_at; eauto.
  now rewrite (put_app _ _ _ _ _ H).
Qed.

Lemma is_array_array st js p a :
  value js = Some p -> load st p = Some (j_array a) ->
  is_array st js = Some true.
Proof.
  intros Hp Hl. unfold is_array.
  now rewrite (get_type_live _ _ _ _ Hp Hl).
Qed.

Lemma array_size_array st js p a :
  value js = Some p -> load st p = Some (j_array a) ->
  array_size st js = Some (List.length a).
Proof.
  intros Hp Hl. unfold array_size.
  rewrite (is_array_array _ _ _ _ Hp Hl). cbn.
  now rewrite (deref_live _ _ _ _ Hp Hl).
Qed.

Lemma size_array st js p a :
  value js = Some p -> load st p = Some (j_array a) ->
  size st js = Some (List.length a).
Proof.
  intros Hp Hl. unfold size.
  rewrite (is_array_array _ _ _ _ Hp Hl). cbn.
  now rewrite (deref_live _ _ _ _ Hp Hl).
Qed.

Lemma iterate_array_array st js p a :
  value js = Some p -> load st p = Some (j_array a) ->
  iterate_array st js = Some (map (element js) (seq 0 (List.length a))).
Proof.
  intros Hp Hl. unfold iterate_array.
  rewrite (is_array_array _ _ _ _ Hp Hl). cbn.
  now rewrite (deref_live _ _ _ _ Hp Hl).
Qed.

Lemma get_element_in_range st js p a idx :
  value js = Some p -> load st p = Some (j_array a) ->
  idx < List.length a ->
  get_element st js idx = Some (element js idx)
  /\ value (element js idx) = Some (child p idx).
Proof.
  intros Hp Hl Hi.
  rewrite (get_element_array st js a idx (deref_live _ _ _ _ Hp Hl)).
  apply Nat.ltb_lt in Hi. rewrite Hi. unfold element. cbn. now rewrite Hp.
Qed.

Lemma set_array_size_live st js p old n :
  value js = Some p -> load st p = Some old ->
  set_array_size st js n =
  Some (store_put st p (j_array (repeat json_value_default n)), true).
Proof.
  intros Hp Hl. unfold set_array_size.
  rewrite (set_type_live _ _ _ _ array Hp Hl). cbn [obind].
  pose proof (load_store_put_same _ _ (Value.zero array) _ Hl) as Hl1.
  unfold resize_array. rewrite (is_array_array _ _ _ _ Hp Hl1). cbn [obind].
  rewrite (deref_live _ _ _ _ Hp Hl1). cbn [obind _array Value.zero].
  rewrite (write_live _ _ _ _ _ Hp Hl1). cbn [obind].
  rewrite store_put_put. unfold vector_resize. rewrite firstn_nil. simpl.
  now rewrite Nat.sub_0_r.
Qed.

(** *** What [set_value] writes *)

Lemma set_scalar_live st js p old k w :
  value js = Some p -> load st p = Some old ->
  ('(st1, ok) <- set_type st js k ;;
   if ok then st2 <- write st1 js w ;; Some (st2, true) else Some (st1, false))
  = Some (store_put st p w, true).
Proof.
  intros Hp Hl. rewrite (set_type_live _ _ _ _ k Hp Hl). cbn [obind].
  pose proof (load_store_put_same _ _ (Value.zero k) _ Hl) as Hl1.
  rewrite (write_live _ _ _ _ _ Hp Hl1). cbn [obind].
  now rewrite store_put_put.
Qed.

Lemma nth_error_app_middle_here {A : Type} (l1 l2 : list A) x :
  nth_error (l1 ++ x :: l2) (List.length l1) = Some x.
Proof. induction l1; simpl; auto. Qed.

Lemma list_alter_id_at {A : Type} (f : A -> A) (l : list A) i x :
  nth_error l i = Some x -> f x = x -> list_alter i f l = l.
Proof.
  revert i; induction l as [|y l IH]; intros [|i]; simpl; try discriminate.
  - intros [= ->] ->. reflexivity.
  - intros H E. f_equal. eauto.
Qed.

Lemma put_subvalue v p u : subvalue v p = Some u -> put v p u = v.
Proof.
  revert v; induction p as [|i p IH]; intros v; simpl.
  - now intros [= ->].
  - destruct v; try discriminate.
    + destruct (nth_error a i) as [e|] eqn:He; [|discriminate].
      intros H. f_equal. eapply list_alter_id_at; eauto.
    + destruct (nth_error o i) as [[k e]|] eqn:He; [|discriminate].
      intros H. f_equal. eapply list_alter_id_at; eauto.
      simpl. f_equal. auto.
Qed.

Lemma store_put_load st p u : load st p = Some u -> store_put st p u = st.
Proof.
  unfold load, store_put.
  destruct (nth_error st (obj p)) as [v|] eqn:Hv; [|discriminate].
  intros H. eapply list_alter_id_at; eauto using put_subvalue.
Qed.

(** A loop over the elements of a vector whose step [body] writes element
    [idx] of the array at [p] and moves on. *)
Lemma for_each_fill (X : Type) (enc : X -> json_value) (p : ptr)
  (body : X -> store * nat * string -> option (bool * (store * nat * string))) :
  (forall s pre rest v error,
      load s p = Some (j_array (pre ++ json_value_default :: rest)) ->
      body v (s, List.length pre, error) =
      Some (true, (store_put s p (j_array (pre ++ enc v :: rest)),
                   S (List.length pre), error))) ->
  forall vs s pre error,
    load s p = Some (j_array (pre ++ repeat json_value_default (List.length vs))) ->
    for_each body vs (s, List.length pre, error) =
    Some (true, (store_put s p (j_array (pre ++ map enc vs)),
                 List.length pre + List.length vs, error)).
Proof.
  intros Hstep. induction vs as [|v vs IH]; intros s pre error Hl.
  - simpl in *. rewrite app_nil_r in *. rewrite Nat.add_0_r.
    now rewrite (store_put_load _ _ _ Hl).
  - simpl in Hl. cbn [for_each]. rewrite (Hstep _ _ _ v error Hl).
    cbn [obind negb].
    pose proof (load_store_put_same _ _
                  (j_array (pre ++ enc v :: repeat json_value_default
                                                (List.length vs))) _ Hl) as Hl1.
    replace (pre ++ enc v :: repeat json_value_default (List.length vs))
      with ((pre ++ [enc v]) ++ repeat json_value_default (List.length vs))
      in Hl1 |- * by now rewrite <- app_assoc.
    replace (S (List.length pre)) with (List.length (pre ++ [enc v]))
      by (rewrite length_app; simpl; lia).
    rewrite (IH _ _ error Hl1). rewrite store_put_put.
    rewrite <- app_assoc. simpl. rewrite length_app. simpl.
    do 4 f_equal. lia.
Qed.

Section SetValue.

Variable T' : native_type.
Hypothesis set_value_T' :
  forall st js p old v error,
    value js = Some p -> load st p = Some old ->
    set_value T' st js v error = Some (store_put st p (encode T' v), true, error).

Lemma set_element_step st js p pre rest v :
  value js = Some p ->
  load st p = Some (j_array (pre ++ json_value_default :: rest)) ->
  exists ejs,
    get_element st js (List.length pre) = Some ejs
    /\ forall error,
        set_value T' st ejs v error =
        Some (store_put st p (j_array (pre ++ encode T' v :: rest)), true, error).
Proof.
  intros Hp Hl.
  destruct (get_element_in_range st js p _ (List.length pre) Hp Hl) as [He Hv].
  { rewrite length_app. simpl. lia. }
  exists (element js (List.length pre)). split; [exact He|]. intros error.
  assert (Hle : load st (child p (List.length pre)) = Some json_value_default).
  { rewrite (load_child_array _ _ _ _ Hl). apply nth_error_app_middle_here. }
  rewrite (set_value_T' _ _ _ _ v error Hv Hle).
  rewrite (store_put_child_array _ _ _ _ _ Hl).
  now rewrite list_alter_middle.
Qed.

End SetValue.

Lemma set_value_encode T :
  forall st js p old v error,
    value js = Some p -> load st p = Some old ->
    set_value T st js v error = Some (store_put st p (encode T v), true, error).
Proof.
  induction T as [| | | | | | | |T' IH|T' IH N];
    intros st js p old v error Hp Hl; cbn [set_value encode];
    try (unfold set_value_int64, set_value_int32, set_value_int64,
           set_value_uint64, set_value_uint32, set_value_uint64,
           set_value_double, set_value_float, set_value_double,
           set_value_bool, set_value_string,
           set_integer, set_unsigned, set_real, set_boolean, set_string;
         now rewrite (set_scalar_live _ _ _ _ _ _ Hp Hl)).
  - rewrite (set_array_size_live _ _ _ _ (List.length v) Hp Hl). cbn [obind].
    set (s1 := store_put st p _).
    assert (Hl1 : load s1 p =
                  Some (j_array ([] ++ repeat json_value_default (List.length v))))
      by (apply (load_store_put_same _ _ _ _ Hl)).
    match goal with |- context [for_each ?b v _] =>
      pose proof (for_each_fill _ (encode T') p b) as Hfill end.
    rewrite (Hfill) with (pre := @nil json_value); [| |exact Hl1].
    + cbn [obind app]. subst s1. now rewrite store_put_put.
    + intros s pre rest x e Hs.
      destruct (set_element_step T' IH s js p pre rest x Hp Hs) as (ejs & He & Hset).
      cbn beta iota. rewrite He. cbn [obind]. unfold without_error.
      rewrite Hset. reflexivity.
  - rewrite (set_array_size_live _ _ _ _ (List.length v) Hp Hl). cbn [obind].
    set (s1 := store_put st p _).
    assert (Hl1 : load s1 p =
                  Some (j_array ([] ++ repeat json_value_default (List.length v))))
      by (apply (load_store_put_same _ _ _ _ Hl)).
    match goal with |- context [for_each ?b v _] =>
      pose proof (for_each_fill _ (encode T') p b) as Hfill end.
    rewrite (Hfill) with (pre := @nil json_value); [| |exact Hl1].
    + cbn [obind app]. subst s1. now rewrite store_put_put.
    + intros s pre rest x e Hs.
      destruct (set_element_step T' IH s js p pre rest x Hp Hs) as (ejs & He & Hset).
      cbn beta iota. rewrite He. cbn [obind].
      rewrite Hset. reflexivity.
Qed.

(** *** What [get_value] reads *)

Lemma to_int64_id x : is_int64 x = true -> to_int64 x = x.
Proof.
  unfold is_int64, to_int64. rewrite andb_true_iff, Z.leb_le, Z.ltb_lt.
  intros [H1 H2]. rewrite Z.mod_small; lia.
Qed.

Lemma to_uint64_id x : is_uint64 x = true -> to_uint64 x = x.
Proof.
  unfold is_uint64, to_uint64. rewrite andb_true_iff, Z.leb_le, Z.ltb_lt.
  intros [H1 H2]. rewrite Z.mod_small; lia.
Qed.

Lemma to_int32_id x : is_int32 x = true -> to_int32 x = x.
Proof.
  unfold is_int32, to_int32. rewrite andb_true_iff, Z.leb_le, Z.ltb_lt.
  intros [H1 H2]. rewrite Z.mod_small; lia.
Qed.

Lemma to_uint32_id x : is_uint32 x = true -> to_uint32 x = x.
Proof.
  unfold is_uint32, to_uint32. rewrite andb_true_iff, Z.leb_le, Z.ltb_lt.
  intros [H1 H2]. rewrite Z.mod_small; lia.
Qed.

Lemma is_int32_int64 x : is_int32 x = true -> is_int64 x = true.
Proof.
  unfold is_int32, is_int64. rewrite !andb_true_iff, !Z.leb_le, !Z.ltb_lt. lia.
Qed.

Lemma is_uint32_uint64 x : is_uint32 x = true -> is_uint64 x = true.
Proof.
  unfold is_uint32, is_uint64. rewrite !andb_true_iff, !Z.leb_le, !Z.ltb_lt. lia.
Qed.

Lemma native_default_ok T : native_ok T (native_default T).
Proof.
  induction T; cbn; try reflexivity; auto.
  split; [apply repeat_length|].
  apply Forall_forall. intros x Hx. now rewrite (repeat_spec _ _ _ Hx).
Qed.

(** A loop over the element views that converts each element and appends
    it. *)
Lemma for_each_read (X : Type) (enc : X -> json_value) (P : X -> Prop)
  (st : store) (js : json_view) (p : ptr)
  (body : json_view -> list X -> option (bool * list X)) :
  (forall i x acc,
      load st (child p i) = Some (enc x) -> P x ->
      body (element js i) acc = Some (true, acc ++ [x])) ->
  forall vs pre acc,
    load st p = Some (j_array (pre ++ map enc vs)) -> Forall P vs ->
    for_each body (map (element js) (seq (List.length pre) (List.length vs))) acc
    = Some (true, acc ++ vs).
Proof.
  intros Hstep. induction vs as [|v vs IH]; intros pre acc Hl Hok.
  - simpl. now rewrite app_nil_r.
  - inversion Hok as [|? ? Hv Hvs]; subst. simpl in Hl. cbn [List.length seq map for_each].
    rewrite (Hstep _ v acc); [|now rewrite (load_child_array _ _ _ _ Hl),
                                 nth_error_app_middle_here|exact Hv].
    cbn [obind negb].
    replace (pre ++ enc v :: map enc vs) with ((pre ++ [enc v]) ++ map enc vs)
      in Hl by now rewrite <- app_assoc.
    replace (S (List.length pre)) with (List.length (pre ++ [enc v]))
      by (rewrite length_app; simpl; lia).
    rewrite (IH _ _ Hl Hvs). now rewrite <- app_assoc.
Qed.

(** A loop over the indices that converts each element in place. *)
Lemma for_each_overwrite (X : Type) (enc : X -> json_value) (P : X -> Prop)
  (st : store) (p : ptr) (n : nat)
  (body : nat -> list X -> option (bool * list X)) :
  (forall i x x0 value,
      load st (child p i) = Some (enc x) -> i < n -> P x ->
      nth_error value i = Some x0 -> P x0 ->
      body i value = Some (true, list_alter i (fun _ => x) value)) ->
  forall vs pre done outs,
    load st p = Some (j_array (pre ++ map enc vs)) ->
    n = List.length (pre ++ map enc vs) ->
    List.length done = List.length pre -> List.length outs = List.length vs ->
    Forall P vs -> Forall P outs ->
    for_each body (seq (List.length pre) (List.length vs)) (done ++ outs)
    = Some (true, done ++ vs).
Proof.
  intros Hstep. induction vs as [|v vs IH];
    intros pre done outs Hl Hn Hd Ho Hok Hout.
  - destruct outs; [reflexivity|discriminate].
  - destruct outs as [|x0 outs]; [discriminate|].
    apply Forall_cons_iff in Hok as [Hv Hvs].
    apply Forall_cons_iff in Hout as [Hx0 Houts].
    simpl in Hl, Hn, Ho. cbn [List.length seq for_each].
    rewrite (Hstep _ v x0 (done ++ x0 :: outs)); auto.
    + cbn [obind negb]. rewrite <- Hd, list_alter_middle.
      assert (E : pre ++ enc v :: map enc vs = (pre ++ [enc v]) ++ map enc vs)
        by now rewrite <- app_assoc.
      rewrite E in Hl, Hn.
      replace (S (List.length done)) with (List.length (pre ++ [enc v]))
        by (rewrite length_app; simpl; lia).
      replace (done ++ v :: outs) with ((done ++ [v]) ++ outs)
        by now rewrite <- app_assoc.
      rewrite (IH (pre ++ [enc v]) (done ++ [v]) outs); auto;
        try (rewrite ?length_app in *; simpl in *; lia).
      now rewrite <- app_assoc.
    + now rewrite (load_child_array _ _ _ _ Hl), nth_error_app_middle_here.
    + rewrite Hn, length_app. simpl. lia.
    + rewrite <- Hd. apply nth_error_app_middle_here.
Qed.

Ltac read_scalar Hp Hl :=
  let Ht := fresh "Ht" in
  let Hd := fresh "Hd" in
  pose proof (get_type_live _ _ _ _ Hp Hl) as Ht;
  pose proof (deref_live _ _ _ _ Hp Hl) as Hd;
  cbn [Value.type] in Ht;
  unfold get_value_int32, get_value_uint32, get_value_float,
    get_value_int64, get_value_uint64, get_value_double,
    get_value_bool, get_value_string,
    get_integral, get_integral_u, get_number, get_boolean, get_string;
  known_type Ht;
  cbn -[to_int64 to_uint64 to_int32 to_uint32 to_float to_double];
  rewrite ?Hd;
  cbn -[to_int64 to_uint64 to_int32 to_uint32 to_float to_double].

Lemma get_value_encode T :
  forall v, native_ok T v ->
  forall st js p out error,
    native_ok T out -> value js = Some p -> load st p = Some (encode T v) ->
    get_value T st js out error = Some (true, v, error).
Proof.
  induction T as [| | | | | | | |T' IH|T' IH N];
    intros v Hv st js p out error Hout Hp Hl;
    cbn [encode] in Hl; cbn [native_ok] in Hv, Hout; cbn [get_value].
  - read_scalar Hp Hl. now rewrite to_int64_id.
  - read_scalar Hp Hl.
    rewrite !(to_int64_id v) by auto using is_int32_int64.
    now rewrite to_int32_id.
  - read_scalar Hp Hl. now rewrite to_uint64_id.
  - read_scalar Hp Hl.
    rewrite !(to_uint64_id v) by auto using is_uint32_uint64.
    now rewrite to_uint32_id.
  - read_scalar Hp Hl. reflexivity.
  - read_scalar Hp Hl. now rewrite Hv.
  - read_scalar Hp Hl. reflexivity.
  - read_scalar Hp Hl. reflexivity.
  - rewrite (is_array_array _ _ _ _ Hp Hl). cbn [obind].
    rewrite (array_size_array _ _ _ _ Hp Hl),
      (iterate_array_array _ _ _ _ Hp Hl). cbn [obind].
    rewrite length_map.
    match goal with |- context [for_each ?b _ _] =>
      pose proof (for_each_read _ (encode T') (native_ok T') st js p b) as Hread
    end.
    rewrite (Hread) with (pre := @nil json_value) (vs := v); auto.
    intros i x acc Hi Hx. unfold without_error.
    rewrite (IH x Hx st (element js i) (child p i) _ "");
      auto using native_default_ok.
    unfold element. cbn. now rewrite Hp.
  - destruct Hv as [Hlen0 Hv]. destruct Hout as [Hlen0' Hout].
    assert (Hlen : @List.length (native T') v = N) by exact Hlen0.
    assert (Hlen' : @List.length (native T') out = N) by exact Hlen0'.
    clear Hlen0 Hlen0'.
    rewrite (is_array_array _ _ _ _ Hp Hl). cbn [obind].
    rewrite (array_size_array _ _ _ _ Hp Hl). cbn [obind].
    rewrite length_map, Hlen, Nat.eqb_refl. cbn [andb].
    rewrite (size_array _ _ _ _ Hp Hl). cbn [obind]. rewrite length_map.
    match goal with |- context [for_each ?b _ _] => set (body := b) end.
    assert (Hstep : forall i x x0 (value0 : list (native T')),
               load st (child p i) = Some (encode T' x) ->
               i < List.length (map (encode T') v) -> native_ok T' x ->
               nth_error value0 i = Some x0 -> native_ok T' x0 ->
               body i value0 = Some (true, list_alter i (fun _ => x) value0)).
    { intros i x x0 value0 Hi Hn Hx Hnth Hx0. subst body. cbn beta.
      destruct (get_element_in_range st js p _ i Hp Hl Hn) as [He Hval].
      rewrite He. cbn [obind]. rewrite Hnth. cbn [obind]. unfold without_error.
      now rewrite (IH x Hx st (element js i) (child p i) x0 "" Hx0 Hval Hi). }
    pose proof (for_each_overwrite _ (encode T') (native_ok T') st p
                  (List.length (map (encode T') v)) body Hstep v [] [] out
                  Hl eq_refl eq_refl) as Hover.
    cbn [List.length app] in Hover.
    rewrite Hover; auto. congruence.
Qed.

(** C7: for every native value [v] of a supported type [T], [set_value]
    through a valid view (a fresh one in particular) succeeds, and
    [get_value] into a [T] through the same view then succeeds and yields
    [v]; neither call writes the error string. *)
Theorem C7_round_trip (T : native_type) (v out : native T) (st : store)
  (js : json_view) (p : ptr) (old : json_value) (error error' : string) :
  native_ok T v -> native_ok T out ->
  value js = Some p -> load st p = Some old ->
  exists st',
    set_value T st js v error = Some (st', true, error)
    /\ get_value T st' js out error' = Some (true, v, error').
Proof.
  intros Hv Hout Hp Hl.
  exists (store_put st p (encode T v)). split.
  - eapply set_value_encode; eauto.
  - eapply get_value_encode; eauto using load_store_put_same.
Qed.

(** A vector of fixed-size arrays of 32-bit integers and a single-precision
    float, each written through a fresh view and read back. *)
Lemma C7_round_trip_witness :
  (exists st',
      set_value (t_vector (t_array t_int32 2)) [json_value_default] (get_root 0)
        [[1; 2]; [3; -4]]%Z "" = Some (st', true, "")
      /\ get_value (t_vector (t_array t_int32 2)) st' (get_root 0) [] ""
         = Some (true, [[1; 2]; [3; -4]]%Z, ""))
  /\ (exists st',
         set_value t_float [json_value_default] (get_root 0) 0.5%float ""
         = Some (st', true, "")
         /\ get_value t_float st' (get_root 0) 0%float ""
            = Some (true, 0.5%float, "")).
Proof.
  split.
  - apply (C7_round_trip (t_vector (t_array t_int32 2)) [[1; 2]; [3; -4]]%Z []
             [json_value_default] (get_root 0) {| obj := 0; path := [] |}
             json_value_default "" "").
    + repeat constructor.
    + constructor.
    + reflexivity.
    + reflexivity.
  - apply (C7_round_trip t_float 0.5%float 0%float
             [json_value_default] (get_root 0) {| obj := 0; path := [] |}
             json_value_default "" "").
    + reflexivity.
    + reflexivity.
    + reflexivity.
    + reflexivity.
Defined.

(** *** Targets outside the tree of the root *)

Section json_value_induction.

Variable P : json_value -> Prop.
Hypothesis P_null : forall bits, P (j_null bits).
Hypothesis P_integer : forall i, P (j_integer i).
Hypothesis P_unsigned : forall u, P (j_unsigned u).
Hypothesis P_real : forall r, P (j_real r).
Hypothesis P_boolean : forall b, P (j_boolean b).
Hypothesis P_string : forall s, P (j_string s).
Hypothesis P_array : forall a, Forall P a -> P (j_array a).
Hypothesis P_object :
  forall o, Forall (fun kv => P (snd kv)) o -> P (j_object o).
Hypothesis P_binary : forall d, P (j_binary d).

Fixpoint json_value_induction (v : json_value) : P v :=
  match v with
  | j_null bits => P_null bits
  | j_integer i => P_integer i
  | j_unsigned u => P_unsigned u
  | j_real r => P_real r
  | j_boolean b => P_boolean b
  | j_string s => P_string s
  | j_array a =>
      P_array a
        ((fix elements (l : list json_value) : Forall P l :=
            match l with
            | [] => Forall_nil P
            | e :: l' => Forall_cons e (json_value_induction e) (elements l')
            end) a)
  | j_object o =>
      P_object o
        ((fix pairs (l : list (string * json_value))
            : Forall (fun kv => P (snd kv)) l :=
            match l with
            | [] => Forall_nil _
            | kv :: l' =>
                Forall_cons kv (json_value_induction (snd kv)) (pairs l')
            end) o)
  | j_binary d => P_binary d
  end.

End json_value_induction.

Lemma ptr_eqb_eq p q : ptr_eqb p q = true -> p = q.
Proof.
  unfold ptr_eqb. destruct p as [o1 p1], q as [o2 p2]. cbn [obj path].
  intros H. apply andb_true_iff in H as [Ho Hp].
  apply Nat.eqb_eq in Ho.
  destruct (list_eq_dec Nat.eq_dec p1 p2); [now subst|discriminate].
Qed.

(** A target that is not below the node searched is not found, and the
    path is left as it was. *)
Lemma _compute_path_in_not_below v :
  forall js jsv q t path,
    value js = Some q -> value jsv = Some t -> ~ below v q t ->
    _compute_path_in v js jsv path = (false, path).
Proof.
  induction v as [bits|i|u|r|b|s|a IH|o IH|d] using json_value_induction;
    intros js jsv q t path Hq Ht Hnot;
    cbn [_compute_path_in];
    (destruct (negb (is_some (value js)) || negb (is_some (root js))
               || negb (is_some (value jsv)) || negb (is_some (root jsv)));
     [reflexivity|]);
    (destruct (same_target js jsv) eqn:Hsame;
     [exfalso; apply Hnot; unfold same_target in Hsame;
      rewrite Hq, Ht in Hsame; apply ptr_eqb_eq in Hsame; subst t;
      split; [reflexivity|exists []; rewrite app_nil_r; split;
                          [reflexivity|discriminate]]|]);
    try reflexivity.
  - (* array *)
    assert (Hloop : forall es pre n path0,
               a = pre ++ es -> n = List.length pre ->
               (fix iterate (es : list json_value) (i : nat) (path : string)
                  {struct es} : bool * string :=
                  match es with
                  | [] => (false, path)
                  | e :: es' =>
                      let '(found, path1) :=
                        _compute_path_in e (element js i) jsv path in
                      if negb found then iterate es' (S i) path1
                      else
                        let path2 :=
                          if back_is path1 "/" then pop_back path1 else path1 in
                        (true, ("/" ++ to_string_int 0 ++ path2)%string)
                  end) es n path0 = (false, path0)).
    { induction es as [|e es IHes]; intros pre n path0 Ha Hn; [reflexivity|].
      assert (He : _compute_path_in e (element js n) jsv path0 = (false, path0)).
      { rewrite Forall_forall in IH.
        apply (IH e) with (q := child q n) (t := t).
        - rewrite Ha. apply in_elt.
        - unfold element. cbn. now rewrite Hq.
        - exact Ht.
        - intros [Ho (s' & Hs' & Hsub)]. apply Hnot. split; [exact Ho|].
          exists (n :: s'). split.
          + rewrite Hs'. cbn. now rewrite <- app_assoc.
          + cbn. subst a n. now rewrite nth_error_app_middle_here. }
      rewrite He. cbn [negb].
      apply (IHes (pre ++ [e]) (S n)).
      - now rewrite <- app_assoc.
      - rewrite length_app. simpl. lia. }
    apply (Hloop a [] 0 path); reflexivity.
  - (* object *)
    assert (Hloop : forall es pre n path0,
               o = pre ++ es -> n = List.length pre ->
               (fix iterate (es : list (string * json_value)) (i : nat)
                  (path : string) {struct es} : bool * string :=
                  match es with
                  | [] => (false, path)
                  | (key, e) :: es' =>
                      let '(found, path1) :=
                        _compute_path_in e (element js i) jsv path in
                      if negb found then iterate es' (S i) path1
                      else
                        let path2 :=
                          if back_is path1 "/" then pop_back path1 else path1 in
                        (true, ("/" ++ key ++ path2)%string)
                  end) es n path0 = (false, path0)).
    { induction es as [|[key e] es IHes]; intros pre n path0 Ho Hn;
        [reflexivity|].
      assert (He : _compute_path_in e (element js n) jsv path0 = (false, path0)).
      { rewrite Forall_forall in IH.
        apply (IH (key, e)) with (q := child q n) (t := t).
        - rewrite Ho. apply in_elt.
        - unfold element. cbn. now rewrite Hq.
        - exact Ht.
        - intros [Hobj (s' & Hs' & Hsub)]. apply Hnot. split; [exact Hobj|].
          exists (n :: s'). split.
          + rewrite Hs'. cbn. now rewrite <- app_assoc.
          + cbn. subst o n. now rewrite nth_error_app_middle_here. }
      rewrite He. cbn [negb].
      apply (IHes (pre ++ [(key, e)]) (S n)).
      - now rewrite <- app_assoc.
      - rewrite length_app. simpl. lia. }
    apply (Hloop o [] 0 path); reflexivity.
Qed.

(** [compute_path] returns [""] for a view whose target does not lie in the
    tree of its root. *)
Lemma compute_path_not_below st js r t v :
  root js = Some r -> value js = Some t -> load st r = Some v ->
  ~ below v r t ->
  compute_path st js = Some "".
Proof.
  intros Hr Ht Hl Hnot. unfold compute_path, _compute_path.
  rewrite Hr, Ht. cbn [value root is_some negb orb].
  destruct (same_target _ js) eqn:Hsame.
  - exfalso. apply Hnot. unfold same_target in Hsame. cbn in Hsame.
    rewrite Ht in Hsame. apply ptr_eqb_eq in Hsame. subst t.
    split; [reflexivity|]. exists []. rewrite app_nil_r.
    split; [reflexivity|discriminate].
  - unfold deref. cbn [value obind]. rewrite Hl. cbn [obind].
    rewrite (_compute_path_in_not_below v _ js r t "") by auto.
    reflexivity.
Qed.

(* ------------------------------------------------------------------------- *)
(** ** Further properties of the view layer *)
(* ------------------------------------------------------------------------- *)

(** *** Invalid views *)

Lemma set_value_invalid (T : native_type) (st : store)
  (r : option ptr) (v : native T) (error : string) :
  set_value T st {| value := None; root := r |} v error
  = Some (st, false, (set_value_expected T ++ " in json")%string).
Proof.
  destruct T; cbn [set_value set_value_expected];
    unfold set_value_int64, set_value_int32, set_value_int64,
      set_value_uint64, set_value_uint32, set_value_uint64,
      set_value_double, set_value_float, set_value_double,
      set_value_bool, set_value_string, format_error;
    cbn [set_integer set_unsigned set_real set_boolean set_string
         set_array_size set_type value obind];
    rewrite compute_path_invalid; reflexivity.
Qed.

(** X1: Nothing is written through an invalid view.  Each setter returns
    false, or the invalid view, and leaves the store as it was.
    [set_value] fails for every native type with the message of the type
    followed by " in json", and the helpers that go through an element
    fail with "array expected in json" or "object expected in json". *)
Theorem invalid_view_is_not_written (T : native_type) (st : store)
  (r : option ptr) (k : json_type) (x : Z) (d : float) (b : bool)
  (s key : string) (bytes : json_binary) (n idx : nat) (v : native T)
  (error : string) :
  let js := {| value := None; root := r |} in
  set_type st js k = Some (st, false)
  /\ set_null st js = Some (st, false)
  /\ set_integer st js x = Some (st, false)
  /\ set_unsigned st js x = Some (st, false)
  /\ set_real st js d = Some (st, false)
  /\ set_boolean st js b = Some (st, false)
  /\ set_string st js s = Some (st, false)
  /\ set_binary st js bytes = Some (st, false)
  /\ set_array st js = Some (st, false)
  /\ set_array_size st js n = Some (st, false)
  /\ set_object st js = Some (st, false)
  /\ resize_array st js n = Some (st, false)
  /\ resize st js n = Some (st, false)
  /\ append_element st js = Some (st, no_element js)
  /\ insert_element st js key = Some (st, no_element js)
  /\ set_value T st js v error
     = Some (st, false, (set_value_expected T ++ " in json")%string)
  /\ set_value_at T st js idx v error
     = Some (st, false, "array expected in json")
  /\ append_value T st js v error
     = Some (st, false, "array expected in json")
  /\ set_value_at_key T st js key v error
     = Some (st, false, "object expected in json")
  /\ insert_value T st js key v error
     = Some (st, false, "object expected in json").
Proof.
  cbv zeta. repeat (split; [reflexivity|]).
  split; [apply set_value_invalid|].
  repeat split;
    unfold set_value_at, append_value, set_value_at_key, insert_value,
      format_error;
    cbn -[compute_path set_value]; now rewrite compute_path_invalid.
Qed.

(** *** Failed and wrapping conversions *)

Lemma get_value_rejects (T : native_type) (st : store)
  (js : json_cview) (k : json_type) (path : string) (out : native T)
  (error : string) :
  get_type st js = Some k -> convertible T k = false ->
  compute_path st js = Some path ->
  get_value T st js out error
  = Some (false, out, error_message (get_value_expected T) path).
Proof.
  intros Ht Hk Hpath.
  destruct T; cbn [get_value get_value_expected];
    unfold get_value_int32, get_value_uint32, get_value_float,
      get_value_int64, get_value_uint64, get_value_double,
      get_value_bool, get_value_string,
      get_integral, get_integral_u, get_number, get_boolean, get_string;
    known_type Ht; destruct k; try discriminate Hk;
    cbn -[format_error]; rewrite ?(format_error_message _ _ _ _ Hpath);
    reflexivity.
Qed.

(** X2: [get_value] on a view whose kind the native type does not accept (an
    invalid view counts as null) returns false, leaves the output value as
    it was, and sets the error to the message of the type followed by the
    path of the view: " at <path>", or " in json" when the path is
    empty. *)
Theorem get_value_kind_mismatch (T : native_type) (st : store)
  (js : json_cview) (k : json_type) (path : string) (out : native T)
  (error : string) :
  get_type st js = Some k -> convertible T k = false ->
  compute_path st js = Some path ->
  get_value T st js out error
  = Some (false, out,
          if Nat.eqb (String.length path) 0
          then (get_value_expected T ++ " in json")%string
          else (get_value_expected T ++ " at " ++ path)%string).
Proof.
  intros Ht Hk Hpath.
  rewrite (get_value_rejects T st js k path out error Ht Hk Hpath).
  unfold error_message. now destruct (Nat.eqb (String.length path) 0).
Qed.

Lemma get_value_kind_mismatch_witness :
  get_value t_string [document_a] (view_at 0 {| obj := 0; path := [0; 1]%nat |})
    "old" ""
  = Some (false, "old", "string expected at /a/0").
Proof.
  exact (get_value_kind_mismatch t_string [document_a]
           (view_at 0 {| obj := 0; path := [0; 1]%nat |}) integer "/a/0"
           "old" "" eq_refl eq_refl eq_refl).
Defined.

(** X3: [get_value] into an [array<T, N>] from an array of another size returns
    false with "array size mismatched" and the path, and leaves the
    destination as it was. *)
Theorem get_value_array_size_mismatch (T : native_type) (N : nat)
  (st : store) (js : json_cview) (p : ptr) (a : json_array) (path : string)
  (out : native (t_array T N)) (error : string) :
  value js = Some p -> load st p = Some (j_array a) ->
  List.length a <> N -> compute_path st js = Some path ->
  get_value (t_array T N) st js out error
  = Some (false, out, error_message "array size mismatched" path).
Proof.
  intros Hp Hl Hn Hpath. cbn [get_value].
  rewrite (is_array_array _ _ _ _ Hp Hl). cbn [obind].
  rewrite (array_size_array _ _ _ _ Hp Hl). cbn [obind andb].
  apply Nat.eqb_neq in Hn. rewrite Hn. cbn [negb].
  now rewrite (format_error_message _ _ _ _ Hpath).
Qed.

Lemma get_value_array_size_mismatch_witness :
  get_value (t_array t_int64 3)
    [j_array [j_integer 1; j_integer 2; j_integer 3; j_integer 4]]
    (get_root 0) [7; 8; 9]%Z ""
  = Some (false, [7; 8; 9]%Z, "array size mismatched at /").
Proof.
  apply (get_value_array_size_mismatch t_int64 3
           [j_array [j_integer 1; j_integer 2; j_integer 3; j_integer 4]]
           (get_root 0) {| obj := 0; path := [] |}
           [j_integer 1; j_integer 2; j_integer 3; j_integer 4] "/"
           [7; 8; 9]%Z "" eq_refl eq_refl).
  - simpl. lia.
  - reflexivity.
Defined.

(** X4: The numeric overloads of [get_value] accept every integer or unsigned
    node and never report a range error: the stored number is cast to the
    requested type, wrapping around for the integer types and rounding for
    the floating-point types. *)
Theorem get_value_number_is_cast (st : store) (js : json_cview) (p : ptr)
  (x o : Z) (f : float) (error : string) :
  value js = Some p ->
  load st p = Some (j_integer x) \/ load st p = Some (j_unsigned x) ->
  get_value t_int64 st js o error = Some (true, to_int64 x, error)
  /\ get_value t_int32 st js o error
     = Some (true, to_int32 (to_int64 x), error)
  /\ get_value t_uint64 st js o error = Some (true, to_uint64 x, error)
  /\ get_value t_uint32 st js o error
     = Some (true, to_uint32 (to_uint64 x), error)
  /\ get_value t_double st js f error = Some (true, to_double x, error)
  /\ get_value t_float st js f error
     = Some (true, to_float (to_double x), error).
Proof.
  intros Hp [Hl|Hl]; repeat split; cbn [get_value]; read_scalar Hp Hl;
    reflexivity.
Qed.

(** Minus one read as unsigned, and a number past 32 bits read as
    [int32_t]. *)
Lemma get_value_number_is_cast_witness :
  get_value t_uint32 [j_integer (-1)] (get_root 0) 0%Z ""
  = Some (true, 4294967295%Z, "")
  /\ get_value t_int32 [j_unsigned 2147483648] (get_root 0) 0%Z ""
     = Some (true, (-2147483648)%Z, "").
Proof.
  split.
  - exact (proj1 (proj2 (proj2 (proj2
             (get_value_number_is_cast [j_integer (-1)] (get_root 0)
                {| obj := 0; path := [] |} (-1) 0 0%float ""
                eq_refl (or_introl eq_refl)))))).
  - exact (proj1 (proj2
             (get_value_number_is_cast [j_unsigned 2147483648] (get_root 0)
                {| obj := 0; path := [] |} 2147483648 0 0%float ""
                eq_refl (or_intror eq_refl)))).
Defined.

(** *** Scalars through a view *)

(** X5: The getters of one kind do not coerce: each returns true exactly on a
    node of its kind, with the payload, and otherwise (an invalid view
    included) returns false and leaves the output as it was.  So
    [get_integer] fails on an unsigned node, where [get_integral]
    succeeds. *)
Theorem exact_getters_do_not_coerce (st : store) (js : json_cview)
  (t : json_type) (oz : Z) (ofl : float) (ob : bool) (os : string)
  (od : json_binary) :
  get_type st js = Some t ->
  (exists r, get_integer st js oz = Some (json_type_eqb t integer, r)
             /\ (t <> integer -> r = oz)
             /\ (t = integer -> deref st js = Some (j_integer r)))
  /\ (exists r, get_unsigned st js oz = Some (json_type_eqb t unsigned_, r)
                /\ (t <> unsigned_ -> r = oz)
                /\ (t = unsigned_ -> deref st js = Some (j_unsigned r)))
  /\ (exists r, get_real st js ofl = Some (json_type_eqb t real, r)
                /\ (t <> real -> r = ofl)
                /\ (t = real -> deref st js = Some (j_real r)))
  /\ (exists r, get_boolean st js ob = Some (json_type_eqb t boolean, r)
                /\ (t <> boolean -> r = ob)
                /\ (t = boolean -> deref st js = Some (j_boolean r)))
  /\ (exists r, get_string st js os = Some (json_type_eqb t string_, r)
                /\ (t <> string_ -> r = os)
                /\ (t = string_ -> deref st js = Some (j_string r)))
  /\ (exists r, get_binary st js od = Some (json_type_eqb t binary, r)
                /\ (t <> binary -> r = od)
                /\ (t = binary -> deref st js = Some (j_binary r))).
Proof.
  intros Ht.
  destruct (get_type_inv _ _ _ Ht) as [[Hp ->]|(p & v & Hp & Hl & ->)].
  - unfold get_integer, get_unsigned, get_real, get_boolean, get_string,
      get_binary. known_type Ht. cbn.
    repeat split; eexists; (split; [reflexivity|]); split; congruence.
  - pose proof (deref_live _ _ _ _ Hp Hl) as Hd.
    unfold get_integer, get_unsigned, get_real, get_boolean, get_string,
      get_binary. known_type Ht. rewrite Hd.
    destruct v; cbn; repeat split; eexists; (split; [reflexivity|]);
      split; congruence.
Qed.

Lemma exact_getters_do_not_coerce_witness :
  get_integer [j_unsigned 5] (get_root 0) 7%Z = Some (false, 7%Z)
  /\ get_integral [j_unsigned 5] (get_root 0) 7%Z = Some (true, 5%Z).
Proof.
  split; [|reflexivity].
  destruct (exact_getters_do_not_coerce [j_unsigned 5] (get_root 0) unsigned_
              7%Z 0%float false "" [] eq_refl) as [(r & E & Hr & _) _].
  rewrite E. rewrite (Hr ltac:(discriminate)). reflexivity.
Defined.

(** X6: Each scalar setter followed by the getter of the same kind returns the
    value set, whatever the node held before. *)
Theorem scalar_set_get (st : store) (js : json_view) (p : ptr)
  (old : json_value) (x oz : Z) (d ofl : float) (b ob : bool) (s os : string)
  (bytes od : json_binary) :
  value js = Some p -> load st p = Some old ->
  (exists st', set_integer st js x = Some (st', true)
               /\ get_integer st' js oz = Some (true, x))
  /\ (exists st', set_unsigned st js x = Some (st', true)
                  /\ get_unsigned st' js oz = Some (true, x))
  /\ (exists st', set_real st js d = Some (st', true)
                  /\ get_real st' js ofl = Some (true, d))
  /\ (exists st', set_boolean st js b = Some (st', true)
                  /\ get_boolean st' js ob = Some (true, b))
  /\ (exists st', set_string st js s = Some (st', true)
                  /\ get_string st' js os = Some (true, s))
  /\ (exists st', set_binary st js bytes = Some (st', true)
                  /\ get_binary st' js od = Some (true, bytes))
  /\ (exists st', set_null st js = Some (st', true)
                  /\ is_null st' js = Some true).
Proof.
  intros Hp Hl.
  assert (Hread : forall w, exists st',
             load st' p = Some w /\
             forall k, ('(st1, ok) <- set_type st js k ;;
                        if ok then st2 <- write st1 js w ;; Some (st2, true)
                        else Some (st1, false)) = Some (st', true)).
  { intros w. exists (store_put st p w). split.
    - eapply load_store_put_same; eauto.
    - intros k. eapply set_scalar_live; eauto. }
  repeat split.
  - destruct (Hread (j_integer x)) as (st' & Hl' & Hs). exists st'.
    split; [apply Hs|].
    unfold get_integer, is_integer.
    now rewrite (get_type_live _ _ _ _ Hp Hl'), (deref_live _ _ _ _ Hp Hl').
  - destruct (Hread (j_unsigned x)) as (st' & Hl' & Hs). exists st'.
    split; [apply Hs|].
    unfold get_unsigned, is_unsigned.
    now rewrite (get_type_live _ _ _ _ Hp Hl'), (deref_live _ _ _ _ Hp Hl').
  - destruct (Hread (j_real d)) as (st' & Hl' & Hs). exists st'.
    split; [apply Hs|].
    unfold get_real, is_real.
    now rewrite (get_type_live _ _ _ _ Hp Hl'), (deref_live _ _ _ _ Hp Hl').
  - destruct (Hread (j_boolean b)) as (st' & Hl' & Hs). exists st'.
    split; [apply Hs|].
    unfold get_boolean, is_boolean.
    now rewrite (get_type_live _ _ _ _ Hp Hl'), (deref_live _ _ _ _ Hp Hl').
  - destruct (Hread (j_string s)) as (st' & Hl' & Hs). exists st'.
    split; [apply Hs|].
    unfold get_string, is_string.
    now rewrite (get_type_live _ _ _ _ Hp Hl'), (deref_live _ _ _ _ Hp Hl').
  - destruct (Hread (j_binary bytes)) as (st' & Hl' & Hs). exists st'.
    split; [apply Hs|].
    unfold get_binary, is_binary.
    now rewrite (get_type_live _ _ _ _ Hp Hl'), (deref_live _ _ _ _ Hp Hl').
  - exists (store_put st p (Value.zero null)).
    unfold set_null. rewrite (set_type_live _ _ _ _ null Hp Hl). cbn [obind negb].
    split; [reflexivity|].
    pose proof (load_store_put_same _ _ (Value.zero null) _ Hl) as Hl'.
    unfold is_null, is_valid. rewrite Hp.
    now rewrite (get_type_live _ _ _ _ Hp Hl').
Qed.

Lemma scalar_set_get_witness :
  exists st', set_binary [j_string "old"] (get_root 0) [x01; xff]
              = Some (st', true)
              /\ get_binary st' (get_root 0) [] = Some (true, [x01; xff]).
Proof.
  exact (proj1 (proj2 (proj2 (proj2 (proj2 (proj2
           (scalar_set_get [j_string "old"] (get_root 0)
              {| obj := 0; path := [] |} (j_string "old")
              0%Z 0%Z 0%float 0%float false false "" "" [x01; xff] []
              eq_refl eq_refl))))))).
Defined.

(** *** Arrays through a view *)

Lemma nth_error_vector_resize {A : Type} (d : A) n (l : list A) i :
  i < n -> nth_error (vector_resize d n l) i = Some (nth i l d).
Proof.
  intros Hi. unfold vector_resize.
  destruct (Nat.lt_ge_cases i (List.length l)) as [Hl|Hl].
  - rewrite nth_error_app1 by (rewrite length_firstn; lia).
    rewrite nth_error_firstn.
    apply Nat.ltb_lt in Hi. rewrite Hi.
    now apply nth_error_nth'.
  - rewrite nth_error_app2 by (rewrite length_firstn; lia).
    rewrite length_firstn, (nth_overflow l d Hl).
    apply nth_error_repeat. lia.
Qed.

Lemma is_null_element st js p i :
  value js = Some p -> load st (child p i) = Some json_value_default ->
  is_null st (element js i) = Some true.
Proof.
  intros Hp Hl. unfold is_null, is_valid, get_type, element. cbn.
  rewrite Hp. cbn. now rewrite Hl.
Qed.

(** X7: [set_array(js, n)] on a valid view discards what the node held and
    leaves an array of [n] null elements: indices below [n] give valid
    views onto null nodes, the others the invalid view. *)
Theorem set_array_size_makes_nulls (st : store) (js : json_view) (p : ptr)
  (old : json_value) (n : nat) :
  value js = Some p -> load st p = Some old ->
  exists st',
    set_array_size st js n = Some (st', true)
    /\ array_size st' js = Some n
    /\ (forall i, i < n ->
          get_element st' js i = Some (element js i)
          /\ load st' (child p i) = Some json_value_default
          /\ is_null st' (element js i) = Some true)
    /\ (forall i, n <= i -> get_element st' js i = Some (no_element js)).
Proof.
  intros Hp Hl.
  exists (store_put st p (j_array (repeat json_value_default n))).
  pose proof (load_store_put_same _ _
                (j_array (repeat json_value_default n)) _ Hl) as Hl'.
  split; [eapply set_array_size_live; eauto|].
  split; [rewrite (array_size_array _ _ _ _ Hp Hl'); now rewrite repeat_length|].
  split.
  - intros i Hi.
    assert (Hc : load (store_put st p (j_array (repeat json_value_default n)))
                   (child p i) = Some json_value_default).
    { rewrite (load_child_array _ _ _ _ Hl'). now apply nth_error_repeat. }
    split; [|split; [exact Hc|eapply is_null_element; eauto]].
    apply (get_element_in_range _ _ _ _ _ Hp Hl'). now rewrite repeat_length.
  - intros i Hi. rewrite (get_element_array _ _ _ i (deref_live _ _ _ _ Hp Hl')).
    rewrite repeat_length.
    now replace (Nat.ltb i n) with false by (symmetry; apply Nat.ltb_ge; lia).
Qed.

Lemma set_array_size_makes_nulls_witness :
  exists st',
    set_array_size [document_a] (get_root 0) 2 = Some (st', true)
    /\ array_size st' (get_root 0) = Some 2
    /\ nth_error st' 0 = Some (j_array [j_null 0; j_null 0]).
Proof.
  destruct (set_array_size_makes_nulls [document_a] (get_root 0)
              {| obj := 0; path := [] |} document_a 2 eq_refl eq_refl)
    as (st' & Hs & Hn & _).
  exists st'. repeat split; try assumption.
  cbv in Hs. injection Hs as <-. reflexivity.
Defined.

(** X8: [resize_array] on an array view keeps the elements below the new size,
    fills up with null nodes, and makes the size the one asked for; on a
    view of another kind it returns false and changes nothing. *)
Theorem resize_array_keeps_prefix (st : store) (js : json_view) (p : ptr)
  (a : json_array) (n : nat) :
  value js = Some p -> load st p = Some (j_array a) ->
  (exists st',
      resize_array st js n = Some (st', true)
      /\ array_size st' js = Some n
      /\ forall i, i < n ->
           load st' (child p i) = Some (nth i a json_value_default))
  /\ (forall st0 js0 k, get_type st0 js0 = Some k -> k <> array ->
        resize_array st0 js0 n = Some (st0, false)).
Proof.
  intros Hp Hl. split.
  - exists (store_put st p (j_array (vector_resize json_value_default n a))).
    pose proof (load_store_put_same _ _
                  (j_array (vector_resize json_value_default n a)) _ Hl) as Hl'.
    split; [|split].
    + unfold resize_array. rewrite (is_array_array _ _ _ _ Hp Hl). cbn [obind].
      rewrite (deref_live _ _ _ _ Hp Hl). cbn [obind _array].
      now rewrite (write_live _ _ _ _ _ Hp Hl).
    + rewrite (array_size_array _ _ _ _ Hp Hl').
      now rewrite length_vector_resize.
    + intros i Hi. rewrite (load_child_array _ _ _ _ Hl').
      now apply nth_error_vector_resize.
  - intros st0 js0 k Hk Hne. unfold resize_array. known_type Hk.
    destruct k; try reflexivity. congruence.
Qed.

Lemma resize_array_keeps_prefix_witness :
  exists st',
    resize_array [array_1_x] (get_root 0) 3 = Some (st', true)
    /\ array_size st' (get_root 0) = Some 3
    /\ nth_error st' 0 = Some (j_array [j_integer 1; j_string "x"; j_null 0]).
Proof.
  destruct (proj1 (resize_array_keeps_prefix [array_1_x] (get_root 0)
                     {| obj := 0; path := [] |}
                     [j_integer 1; j_string "x"] 3 eq_refl eq_refl))
    as (st' & Hs & Hn & _).
  exists st'. repeat split; try assumption.
  cbv in Hs. injection Hs as <-. reflexivity.
Defined.

Lemma append_element_array st js p a :
  value js = Some p -> load st p = Some (j_array a) ->
  append_element st js
  = Some (store_put st p (j_array (a ++ [json_value_default])),
          element js (List.length a)).
Proof.
  intros Hp Hl. unfold append_element.
  rewrite (is_array_array _ _ _ _ Hp Hl). cbn [obind].
  rewrite (deref_live _ _ _ _ Hp Hl). cbn [obind _array].
  now rewrite (write_live _ _ _ _ _ Hp Hl).
Qed.

(** X9: [append_element] on an array view adds one null element at the end and
    returns the valid view onto it; the elements before it are the same. *)
Theorem append_element_grows (st : store) (js : json_view) (p : ptr)
  (a : json_array) :
  value js = Some p -> load st p = Some (j_array a) ->
  exists st',
    append_element st js = Some (st', element js (List.length a))
    /\ is_valid (element js (List.length a)) = true
    /\ array_size st' js = Some (S (List.length a))
    /\ load st' (child p (List.length a)) = Some json_value_default
    /\ forall i, i < List.length a -> load st' (child p i) = nth_error a i.
Proof.
  intros Hp Hl.
  exists (store_put st p (j_array (a ++ [json_value_default]))).
  pose proof (load_store_put_same _ _
                (j_array (a ++ [json_value_default])) _ Hl) as Hl'.
  split; [|split; [|split; [|split]]].
  - now apply append_element_array.
  - unfold is_valid, element. cbn. now rewrite Hp.
  - rewrite (array_size_array _ _ _ _ Hp Hl'). rewrite length_app. simpl.
    f_equal. lia.
  - rewrite (load_child_array _ _ _ _ Hl'). apply nth_error_app_last.
  - intros i Hi. rewrite (load_child_array _ _ _ _ Hl').
    now apply nth_error_app1.
Qed.

Lemma append_element_grows_witness :
  exists st',
    append_element [array_1_x] (get_root 0)
    = Some (st', element (get_root 0) 2)
    /\ array_size st' (get_root 0) = Some 3.
Proof.
  destruct (append_element_grows [array_1_x] (get_root 0)
              {| obj := 0; path := [] |} [j_integer 1; j_string "x"]
              eq_refl eq_refl) as (st' & Hs & _ & Hn & _).
  exists st'. split; assumption.
Defined.

(** *** Building and reading containers *)

Lemma load_child_object st p o i :
  load st p = Some (j_object o) ->
  load st (child p i) = option_map snd (nth_error o i).
Proof.
  unfold load, child. simpl.
  destruct (nth_error st (obj p)) as [v|]; [|discriminate].
  intros H. rewrite subvalue_app, H. simpl.
  now destruct (nth_error o i) as [[k e]|].
Qed.

Lemma store_put_child_object st p o i w :
  load st p = Some (j_object o) ->
  store_put st (child p i) w =
  store_put st p (j_object (list_alter i (set_second w) o)).
Proof.
  unfold load, store_put, child. simpl.
  destruct (nth_error st (obj p)) as [v|] eqn:Hv; [|discriminate].
  intros H. eapply list_alter_ext_at; eauto.
  now rewrite (put_app _ _ _ _ _ H).
Qed.

Lemma value_element js p i :
  value js = Some p -> value (element js i) = Some (child p i).
Proof. intros Hp. unfold element. cbn. now rewrite Hp. Qed.

Lemma is_valid_element js p i :
  value js = Some p -> is_valid (element js i) = true.
Proof. intros Hp. unfold is_valid. now rewrite (value_element _ _ i Hp). Qed.

(** *** Objects: find or insert, on a view and on a value *)

Lemma upsert_pairs key w o :
  exists i,
    find_key key (upsert key w o) = Some i
    /\ nth_error (upsert key w o) i = Some (key, w)
    /\ (forall j, j <> i -> j < List.length o ->
          nth_error (upsert key w o) j = nth_error o j)
    /\ List.length (upsert key w o)
       = (if Nat.eqb (count_key key o) 0 then S (List.length o)
          else List.length o)
    /\ count_key key (upsert key w o) = Nat.max 1 (count_key key o)
    /\ (find_key key o = Some i
        \/ (find_key key o = None /\ i = List.length o)).
Proof.
  destruct (upsert_find key w o) as (i & Hf & Hn & Hi). exists i.
  split; [exact Hf|]. split; [exact Hn|].
  unfold upsert in *. destruct (find_key key o) as [i0|] eqn:Ho.
  - destruct Hi as [[= <-]|[[=] _]].
    pose proof (find_key_some_count _ _ _ Ho) as Hc.
    split; [|split; [|split; [|now left]]].
    + intros j Hj _. now apply nth_error_list_alter_neq.
    + rewrite length_list_alter.
      destruct (Nat.eqb_spec (count_key key o) 0); [lia|reflexivity].
    + rewrite (count_key_keys key _ o) by apply map_fst_set_second. lia.
  - destruct Hi as [[=]|[_ ->]].
    pose proof (find_key_none_count _ _ Ho) as Hc.
    split; [|split; [|split; [|now right]]].
    + intros j _ Hj. now apply nth_error_app1.
    + rewrite Hc, length_app. cbn. lia.
    + rewrite count_key_app, Hc. unfold count_key. cbn.
      now rewrite String.eqb_refl.
Qed.

(** C6 (as the code has it): on an object view, [insert_element] returns
    the valid view onto the element of the first pair that has the key,
    which is a node of the store; it adds a pair, null and at the end, only
    when no pair had the key, so it never adds a second pair with the key.
    [get_element] with the key returns the same view, and so does a second
    [insert_element], which leaves the store, hence the size, as the first
    left it.  On a value of kind object, after [obj[key] = 1; obj[key] = 2]
    the first pair with the key holds 2 and [find] returns it, the second
    assignment added no pair, every other pair is as it was, and the number
    of pairs with the key is the number before, or one if there was none:
    a single pair when the object had at most one. *)
Theorem C6_find_or_insert (key : string) :
  (forall (st : store) (js : json_view) (p : ptr) (o : json_object),
      value js = Some p -> load st p = Some (j_object o) ->
      exists st1 i w o1,
        insert_element st js key = Some (st1, element js i)
        /\ is_valid (element js i) = true
        /\ value (element js i) = Some (child p i)
        /\ load st1 p = Some (j_object o1)
        /\ o1 = (if Nat.eqb (count_key key o) 0
                 then o ++ [(key, json_value_default)] else o)
        /\ find_key key o1 = Some i
        /\ nth_error o1 i = Some (key, w)
        /\ load st1 (child p i) = Some w
        /\ (forall j kv, j < i -> nth_error o1 j = Some kv -> fst kv <> key)
        /\ count_key key o1 = Nat.max 1 (count_key key o)
        /\ get_element_key st1 js key = Some (element js i)
        /\ insert_element st1 js key = Some (st1, element js i)
        /\ object_size st1 js = Some (List.length o1))
  /\
  (forall obj : json_object,
      exists obj1 obj2 i,
        Value.assign_subscript key (Value.of_int32 1) (j_object obj)
        = Value.ret (j_object obj1)
        /\ Value.assign_subscript key (Value.of_int32 2) (j_object obj1)
           = Value.ret (j_object obj2)
        /\ List.length obj1
           = (if Nat.eqb (count_key key obj) 0 then S (List.length obj)
              else List.length obj)
        /\ List.length obj2 = List.length obj1
        /\ Value.find key (j_object obj2) = Value.ret (Some i)
        /\ nth_error obj2 i = Some (key, j_integer 2)
        /\ (forall j kv, j < i -> nth_error obj2 j = Some kv -> fst kv <> key)
        /\ (forall j, j <> i -> j < List.length obj ->
              nth_error obj2 j = nth_error obj j)
        /\ count_key key obj2 = Nat.max 1 (count_key key obj)
        /\ (count_key key obj <= 1 -> count_key key obj2 = 1)).
Proof.
  split.
  - intros st js p o Hp Hl.
    rewrite (insert_element_object _ _ _ _ key Hp Hl).
    destruct (find_key key o) as [i|] eqn:Hf.
    + pose proof (find_key_some_count _ _ _ Hf) as Hc.
      destruct (find_key_first _ _ _ Hf) as [[w Hw] Hfirst].
      exists st, i, w, o.
      split; [reflexivity|]. split; [eapply is_valid_element; eauto|].
      split; [eapply value_element; eauto|]. split; [exact Hl|].
      split; [destruct (Nat.eqb_spec (count_key key o) 0); [lia|reflexivity]|].
      split; [exact Hf|]. split; [exact Hw|].
      split; [now rewrite (load_child_object _ _ _ _ Hl), Hw|].
      split; [exact Hfirst|]. split; [lia|].
      split; [rewrite (get_element_key_object _ _ _ key
                         (deref_live _ _ _ _ Hp Hl)); now rewrite Hf|].
      split; [rewrite (insert_element_object _ _ _ _ key Hp Hl);
              now rewrite Hf|].
      now apply object_size_object with (p := p).
    + pose proof (find_key_none_count _ _ Hf) as Hc.
      set (o1 := o ++ [(key, json_value_default)]).
      pose proof (load_store_put_same _ _ (j_object o1) _ Hl) as Hl1.
      pose proof (find_key_app_new _ _ json_value_default Hf) as Hf1.
      fold o1 in Hf1.
      destruct (find_key_first _ _ _ Hf1) as [_ Hfirst].
      assert (Hw : nth_error o1 (List.length o)
                   = Some (key, json_value_default))
        by apply nth_error_app_last.
      exists (store_put st p (j_object o1)), (List.length o),
        json_value_default, o1.
      split; [reflexivity|]. split; [eapply is_valid_element; eauto|].
      split; [eapply value_element; eauto|]. split; [exact Hl1|].
      split; [now rewrite Hc|].
      split; [exact Hf1|]. split; [exact Hw|].
      split; [now rewrite (load_child_object _ _ _ _ Hl1), Hw|].
      split; [exact Hfirst|].
      split; [unfold o1; rewrite count_key_app, Hc; unfold count_key; cbn;
              now rewrite String.eqb_refl|].
      split; [rewrite (get_element_key_object _ _ _ key
                         (deref_live _ _ _ _ Hp Hl1)); now rewrite Hf1|].
      split; [rewrite (insert_element_object _ _ _ _ key Hp Hl1);
              now rewrite Hf1|].
      now apply object_size_object with (p := p).
  - intros obj.
    set (obj1 := upsert key (Value.of_int32 1) obj).
    destruct (upsert_pairs key (Value.of_int32 1) obj)
      as (i1 & Hf1 & _ & Hrest1 & Hlen1 & Hc1 & Hi1).
    destruct (upsert_pairs key (Value.of_int32 2) obj1)
      as (i & Hf2 & Hn2 & Hrest2 & Hlen2 & Hc2 & Hi2).
    fold obj1 in Hf1, Hrest1, Hlen1, Hc1.
    assert (Ei : i1 = i).
    { destruct Hi2 as [Hi2|[Hi2 _]]; congruence. }
    subst i1.
    assert (Hpos : Nat.eqb (count_key key obj1) 0 = false).
    { apply Nat.eqb_neq. lia. }
    rewrite Hpos in Hlen2.
    exists obj1, (upsert key (Value.of_int32 2) obj1), i.
    rewrite !assign_subscript_upsert.
    split; [reflexivity|]. split; [reflexivity|].
    split; [exact Hlen1|]. split; [exact Hlen2|].
    split; [unfold Value.find; cbn; now rewrite Hf2|].
    split; [exact Hn2|]. split; [apply (find_key_first _ _ _ Hf2)|].
    split.
    { intros j Hj Hlt. rewrite Hrest2; [now apply Hrest1|exact Hj|].
      rewrite Hlen1. destruct (Nat.eqb (count_key key obj) 0); lia. }
    split; lia.
Qed.

(** The scenario of the specification, on an empty object and on an object
    that has the key already. *)
Lemma C6_find_or_insert_witness :
  (exists st1 e,
      insert_element [Value.object] (get_root 0) "k" = Some (st1, e)
      /\ is_valid e = true
      /\ load st1 {| obj := 0; path := [] |}
         = Some (j_object [("k", json_value_default)])
      /\ get_element_key st1 (get_root 0) "k" = Some e
      /\ insert_element st1 (get_root 0) "k" = Some (st1, e)
      /\ object_size st1 (get_root 0) = Some 1)
  /\
  (exists obj1 obj2 i,
      Value.assign_subscript "k" (Value.of_int32 1)
        (j_object [("a", j_boolean true); ("k", j_string "old")])
      = Value.ret (j_object obj1)
      /\ Value.assign_subscript "k" (Value.of_int32 2) (j_object obj1)
         = Value.ret (j_object obj2)
      /\ List.length obj2 = 2
      /\ Value.find "k" (j_object obj2) = Value.ret (Some i)
      /\ nth_error obj2 i = Some ("k", j_integer 2)
      /\ count_key "k" obj2 = 1).
Proof.
  split.
  - destruct (proj1 (C6_find_or_insert "k") [Value.object] (get_root 0)
                {| obj := 0; path := [] |} [] eq_refl eq_refl)
      as (st1 & i & w & o1 & H1 & H2 & _ & H4 & H5 & _ & _ & _ & _ & _
          & H11 & H12 & H13).
    exists st1, (element (get_root 0) i). subst o1.
    repeat split; assumption.
  - destruct (proj2 (C6_find_or_insert "k")
                [("a", j_boolean true); ("k", j_string "old")])
      as (obj1 & obj2 & i & H1 & H2 & H3 & H4 & H5 & H6 & _ & _ & _ & H10).
    exists obj1, obj2, i.
    split; [exact H1|]. split; [exact H2|].
    split; [now rewrite H4, H3|]. split; [exact H5|]. split; [exact H6|].
    apply H10. cbn. lia.
Defined.

(** C6, the claim as stated fails: an object may hold two pairs with one
    key (as [json_value(const json_object&)] or [get_object()] make it),
    and the two assignments write the first and keep the second. *)
Lemma C6_duplicate_keys_kept :
  let obj := [("k", j_string "first"); ("k", j_string "second")] in
  exists obj1 obj2,
    Value.assign_subscript "k" (Value.of_int32 1) (j_object obj)
    = Value.ret (j_object obj1)
    /\ Value.assign_subscript "k" (Value.of_int32 2) (j_object obj1)
       = Value.ret (j_object obj2)
    /\ obj2 = [("k", j_integer 2); ("k", j_string "second")]
    /\ count_key "k" obj2 = 2
    /\ Value.at_key "k" (j_object obj2) = Value.ret 0.
Proof. cbv zeta. eexists. eexists. repeat split. Qed.

(** X10: [append_value] on an array view appends the converted value and
    [get_value_at] at the old size reads it back. *)
Theorem append_value_get_value_at (T : native_type) (v out : native T)
  (st : store) (js : json_view) (p : ptr) (a : json_array)
  (error error' : string) :
  native_ok T v -> native_ok T out ->
  value js = Some p -> load st p = Some (j_array a) ->
  exists st',
    append_value T st js v error = Some (st', true, error)
    /\ load st' p = Some (j_array (a ++ [encode T v]))
    /\ get_value_at T st' js (List.length a) out error'
       = Some (true, v, error').
Proof.
  intros Hv Hout Hp Hl.
  pose proof (append_element_array st js p a Hp Hl) as Happ.
  set (st1 := store_put st p (j_array (a ++ [json_value_default]))) in *.
  assert (Hl1 : load st1 p = Some (j_array (a ++ [json_value_default])))
    by (eapply load_store_put_same; eauto).
  assert (Hvalid : is_valid (element js (List.length a)) = true)
    by (eapply is_valid_element; eauto).
  assert (Hlast : load st1 (child p (List.length a)) = Some json_value_default)
    by (rewrite (load_child_array _ _ _ _ Hl1); apply nth_error_app_last).
  exists (store_put st1 p (j_array (a ++ [encode T v]))).
  pose proof (load_store_put_same _ _ (j_array (a ++ [encode T v])) _ Hl1)
    as Hl2.
  split; [|split; [exact Hl2|]].
  - unfold append_value. rewrite Happ. cbn [obind]. rewrite Hvalid.
    rewrite (set_value_encode T st1 _ _ _ v error
               (value_element _ _ _ Hp) Hlast).
    rewrite (store_put_child_array _ _ _ _ _ Hl1).
    now rewrite list_alter_middle.
  - unfold get_value_at.
    destruct (get_element_in_range _ js p _ (List.length a) Hp Hl2) as [He Hval].
    { rewrite length_app. simpl. lia. }
    rewrite He. cbn [obind]. rewrite (is_valid_element _ _ _ Hp).
    apply get_value_encode with (p := child p (List.length a)); auto.
    rewrite (load_child_array _ _ _ _ Hl2). apply nth_error_app_last.
Qed.

Lemma append_value_get_value_at_witness :
  exists st',
    append_value t_string [array_1_x] (get_root 0) "y" "" = Some (st', true, "")
    /\ load st' {| obj := 0; path := [] |}
       = Some (j_array [j_integer 1; j_string "x"; j_string "y"])
    /\ get_value_at t_string st' (get_root 0) 2 "" "" = Some (true, "y", "").
Proof.
  exact (append_value_get_value_at t_string "y" "" [array_1_x] (get_root 0)
           {| obj := 0; path := [] |} [j_integer 1; j_string "x"] "" ""
           I I eq_refl eq_refl).
Defined.

Lemma nth_error_upsert key w o :
  exists i, find_key key (upsert key w o) = Some i
            /\ nth_error (upsert key w o) i = Some (key, w).
Proof. destruct (upsert_find key w o) as (i & H1 & H2 & _). eauto. Qed.

Lemma insert_then_write st js p o key w :
  value js = Some p -> load st p = Some (j_object o) ->
  exists st1 ejs q,
    insert_element st js key = Some (st1, ejs)
    /\ is_valid ejs = true /\ value ejs = Some q
    /\ load st1 q = Some (match find_key key o with
                          | Some i => nth i (map snd o) json_value_default
                          | None => json_value_default
                          end)
    /\ store_put st1 q w = store_put st p (j_object (upsert key w o)).
Proof.
  intros Hp Hl. rewrite (insert_element_object _ _ _ _ key Hp Hl).
  unfold upsert. destruct (find_key key o) as [i|] eqn:Hf.
  - exists st, (element js i), (child p i).
    destruct (find_key_first _ _ _ Hf) as [[e He] _].
    split; [reflexivity|]. split; [eapply is_valid_element; eauto|].
    split; [eapply value_element; eauto|]. split.
    + rewrite (load_child_object _ _ _ _ Hl), He. cbn. f_equal.
      symmetry. apply nth_error_nth. now rewrite nth_error_map, He.
    + apply (store_put_child_object _ _ _ _ _ Hl).
  - set (o1 := o ++ [(key, json_value_default)]).
    pose proof (load_store_put_same _ _ (j_object o1) _ Hl) as Hl1.
    exists (store_put st p (j_object o1)), (element js (List.length o)),
      (child p (List.length o)).
    split; [reflexivity|]. split; [eapply is_valid_element; eauto|].
    split; [eapply value_element; eauto|]. split.
    + rewrite (load_child_object _ _ _ _ Hl1). unfold o1.
      now rewrite nth_error_app_last.
    + rewrite (store_put_child_object _ _ _ _ _ Hl1), store_put_put.
      unfold o1. now rewrite list_alter_middle.
Qed.

Lemma insert_value_object (T : native_type) (v : native T)
  (st : store) (js : json_view) (p : ptr) (o : json_object) (key : string)
  (error : string) :
  native_ok T v ->
  value js = Some p -> load st p = Some (j_object o) ->
  insert_value T st js key v error
  = Some (store_put st p (j_object (upsert key (encode T v) o)), true, error).
Proof.
  intros Hv Hp Hl.
  destruct (insert_then_write st js p o key (encode T v) Hp Hl)
    as (st1 & ejs & q & Hins & Hvalid & Hq & Hlq & Hput).
  unfold insert_value. rewrite Hins. cbn [obind]. rewrite Hvalid.
  rewrite (set_value_encode T st1 _ _ _ v error Hq Hlq). now rewrite Hput.
Qed.

Lemma get_element_upsert (T : native_type) (v : native T)
  (st : store) (js : json_view) (p : ptr) (o : json_object) (key : string) :
  value js = Some p ->
  load st p = Some (j_object (upsert key (encode T v) o)) ->
  exists i, get_element_key st js key = Some (element js i)
            /\ is_valid (element js i) = true
            /\ value (element js i) = Some (child p i)
            /\ load st (child p i) = Some (encode T v).
Proof.
  intros Hp Hl.
  destruct (nth_error_upsert key (encode T v) o) as (i & Hf & Hn).
  exists i.
  rewrite (get_element_key_object _ _ _ key (deref_live _ _ _ _ Hp Hl)), Hf.
  split; [reflexivity|]. split; [now apply (is_valid_element _ _ _ Hp)|].
  split; [now apply value_element|].
  now rewrite (load_child_object _ _ _ _ Hl), Hn.
Qed.

(** X11: [insert_value] on an object view stores the converted value under the
    key, in the first pair that has the key or in a new last pair, and
    [get_value_at] with the key reads it back. *)
Theorem insert_value_get_value_at_key (T : native_type) (v out : native T)
  (st : store) (js : json_view) (p : ptr) (o : json_object) (key : string)
  (error error' : string) :
  native_ok T v -> native_ok T out ->
  value js = Some p -> load st p = Some (j_object o) ->
  exists st',
    insert_value T st js key v error = Some (st', true, error)
    /\ load st' p = Some (j_object (upsert key (encode T v) o))
    /\ get_value_at_key T st' js key out error' = Some (true, v, error').
Proof.
  intros Hv Hout Hp Hl.
  exists (store_put st p (j_object (upsert key (encode T v) o))).
  pose proof (load_store_put_same _ _
                (j_object (upsert key (encode T v) o)) _ Hl) as Hl2.
  split; [|split; [exact Hl2|]].
  - now apply insert_value_object.
  - destruct (get_element_upsert T v _ js p o key Hp Hl2)
      as (i & Hget & Hvalid & Hq & Hlq).
    unfold get_value_at_key. rewrite Hget. cbn [obind]. rewrite Hvalid.
    now apply get_value_encode with (p := child p i).
Qed.

Lemma insert_value_get_value_at_key_witness :
  exists st',
    insert_value t_int32 [Value.object] (get_root 0) "x" 1%Z ""
    = Some (st', true, "")
    /\ load st' {| obj := 0; path := [] |}
       = Some (j_object [("x", j_integer 1)])
    /\ get_value_at_key t_int32 st' (get_root 0) "x" 0%Z ""
       = Some (true, 1%Z, "").
Proof.
  exact (insert_value_get_value_at_key t_int32 1%Z 0%Z [Value.object]
           (get_root 0) {| obj := 0; path := [] |} [] "x" "" ""
           eq_refl eq_refl eq_refl eq_refl).
Defined.

(** X12: [get_value_if] tells an omitted key from a wrong shape: on an object
    without the key it returns true and touches neither the output nor the
    error; on a view that is not an object, in any store, it returns false,
    leaves the output and reports "object expected" with the path. *)
Theorem get_value_if_absent (T : native_type) (out : native T)
  (key : string) (error : string) :
  (forall (st : store) (js : json_view) (p : ptr) (o : json_object),
      value js = Some p -> load st p = Some (j_object o) ->
      find_key key o = None ->
      get_value_if T st js key out error = Some (true, out, error))
  /\
  (forall (st : store) (js : json_view) (k : json_type) (path : string),
      get_type st js = Some k -> k <> object ->
      compute_path st js = Some path ->
      get_value_if T st js key out error
      = Some (false, out, error_message "object expected" path)).
Proof.
  split.
  - intros st js p o Hp Hl Hf. unfold get_value_if.
    rewrite (get_element_key_object _ _ _ key (deref_live _ _ _ _ Hp Hl)), Hf.
    cbn [obind no_element is_valid value]. unfold is_object.
    now rewrite (get_type_live _ _ _ _ Hp Hl).
  - intros st js k path Hk Hne Hpath.
    unfold get_value_if, get_element_key. known_type Hk.
    destruct k; try congruence;
      cbn [json_type_eqb obind no_element is_valid value];
      cbn -[format_error];
      now rewrite (format_error_message _ _ _ _ Hpath).
Qed.

(** An object without the key; and an array under a key of that name, in a
    document whose only object has the key. *)
Lemma get_value_if_absent_witness :
  get_value_if t_int64 [document_a] (get_root 0) "missing" 42%Z "e"
  = Some (true, 42%Z, "e")
  /\ get_value_if t_int64 [j_object [("a", j_array [])]]
       (element (get_root 0) 0) "a" 42%Z "e"
     = Some (false, 42%Z, "object expected at /a").
Proof.
  split.
  - apply (proj1 (get_value_if_absent t_int64 42%Z "missing" "e")
             [document_a] (get_root 0) {| obj := 0; path := [] |}
             [("a", j_array [j_integer 1; j_integer 2;
                             j_object [("b", j_integer 3)]])]);
      reflexivity.
  - apply (proj2 (get_value_if_absent t_int64 42%Z "a" "e")
             [j_object [("a", j_array [])]] (element (get_root 0) 0)
             array "/a"); try reflexivity. discriminate.
Defined.

(** X13: [insert_value_if] and [get_value_if] make a round trip with omitted
    defaults: on an object that has no pair with the key, writing [v] with
    default [d] and then reading into a variable that holds [d] succeeds
    both times and yields [d] when [v == d] (nothing is written, the store
    is the same) and [v] otherwise.  When [v == d] the write returns true
    on any view at all, without looking at it. *)
Theorem default_omission_round_trip (T : native_type) (v d : native T)
  (st : store) (js : json_view) (p : ptr) (o : json_object) (key : string)
  (error error' : string) :
  native_ok T v -> native_ok T d ->
  value js = Some p -> load st p = Some (j_object o) ->
  find_key key o = None ->
  (exists st' r,
      insert_value_if T st js key v d error = Some (st', true, error)
      /\ get_value_if T st' js key d error' = Some (true, r, error')
      /\ (if native_eqb T v d then st' = st /\ r = d else r = v))
  /\ (forall st0 js0, native_eqb T v d = true ->
        insert_value_if T st0 js0 key v d error = Some (st0, true, error)).
Proof.
  intros Hv Hd Hp Hl Hf. split.
  - unfold insert_value_if. destruct (native_eqb T v d) eqn:He.
    + exists st, d. split; [reflexivity|]. split; [|auto].
      unfold get_value_if.
      rewrite (get_element_key_object _ _ _ key (deref_live _ _ _ _ Hp Hl)), Hf.
      cbn [obind no_element is_valid value]. unfold is_object.
      now rewrite (get_type_live _ _ _ _ Hp Hl).
    + exists (store_put st p (j_object (upsert key (encode T v) o))), v.
      pose proof (load_store_put_same _ _
                    (j_object (upsert key (encode T v) o)) _ Hl) as Hl2.
      split; [now apply insert_value_object|]. split; [|reflexivity].
      destruct (get_element_upsert T v _ js p o key Hp Hl2)
        as (i & Hget & Hvalid & Hq & Hlq).
      unfold get_value_if. rewrite Hget. cbn [obind]. rewrite Hvalid.
      now apply get_value_encode with (p := child p i).
  - intros st0 js0 He. unfold insert_value_if. now rewrite He.
Qed.

Lemma default_omission_round_trip_witness :
  (exists st' r,
      insert_value_if t_int32 [Value.object] (get_root 0) "x" 0%Z 0%Z ""
      = Some (st', true, "")
      /\ get_value_if t_int32 st' (get_root 0) "x" 0%Z "" = Some (true, r, "")
      /\ st' = [Value.object] /\ r = 0%Z)
  /\ (exists st' r,
         insert_value_if t_int32 [Value.object] (get_root 0) "x" 1%Z 0%Z ""
         = Some (st', true, "")
         /\ get_value_if t_int32 st' (get_root 0) "x" 0%Z "" = Some (true, r, "")
         /\ r = 1%Z).
Proof.
  split.
  - destruct (proj1 (default_omission_round_trip t_int32 0%Z 0%Z [Value.object]
                       (get_root 0) {| obj := 0; path := [] |} [] "x" "" ""
                       eq_refl eq_refl eq_refl eq_refl eq_refl))
      as (st' & r & H1 & H2 & H3 & H4).
    exists st', r. auto.
  - destruct (proj1 (default_omission_round_trip t_int32 1%Z 0%Z [Value.object]
                       (get_root 0) {| obj := 0; path := [] |} [] "x" "" ""
                       eq_refl eq_refl eq_refl eq_refl eq_refl))
      as (st' & r & H1 & H2 & H3).
    exists st', r. auto.
Defined.

(** X14: [set_value_at] never creates an element.  With an index inside the
    array, or a key some pair has, it converts into that element; with an
    index past the end or an absent key it returns false, leaves the store
    as it was and reports "array expected" (by index) or "object expected"
    (by key) with the path of the container. *)
Theorem set_value_at_needs_element (T : native_type) (v : native T)
  (error : string) :
  (forall (st : store) (jsa : json_view) (pa : ptr) (a : json_array)
          (idx : nat) (patha : string),
      value jsa = Some pa -> load st pa = Some (j_array a) ->
      compute_path st jsa = Some patha ->
      set_value_at T st jsa idx v error
      = (if Nat.ltb idx (List.length a)
         then Some (store_put st pa
                      (j_array (list_alter idx (fun _ => encode T v) a)),
                    true, error)
         else Some (st, false, error_message "array expected" patha)))
  /\
  (forall (st : store) (jso : json_view) (po : ptr) (o : json_object)
          (key : string) (patho : string),
      value jso = Some po -> load st po = Some (j_object o) ->
      compute_path st jso = Some patho ->
      set_value_at_key T st jso key v error
      = (match find_key key o with
         | Some i =>
             Some (store_put st po
                     (j_object (list_alter i (set_second (encode T v)) o)),
                   true, error)
         | None => Some (st, false, error_message "object expected" patho)
         end)).
Proof.
  split.
  - intros st jsa pa a idx patha Hpa Hla Hpatha. unfold set_value_at.
    rewrite (get_element_array _ _ _ idx (deref_live _ _ _ _ Hpa Hla)).
    destruct (Nat.ltb idx (List.length a)) eqn:Hi; cbn [obind].
    + rewrite (is_valid_element _ _ _ Hpa).
      apply Nat.ltb_lt in Hi.
      destruct (nth_error a idx) as [e|] eqn:He;
        [|apply nth_error_None in He; lia].
      rewrite (set_value_encode T st _ (child pa idx) e v error
                 (value_element _ _ _ Hpa));
        [|now rewrite (load_child_array _ _ _ _ Hla)].
      now rewrite (store_put_child_array _ _ _ _ _ Hla).
    + cbn [no_element is_valid value].
      now rewrite (format_error_message _ _ _ _ Hpatha).
  - intros st jso po o key patho Hpo Hlo Hpatho. unfold set_value_at_key.
    rewrite (get_element_key_object _ _ _ key (deref_live _ _ _ _ Hpo Hlo)).
    destruct (find_key key o) as [i|] eqn:Hf; cbn [obind].
    + rewrite (is_valid_element _ _ _ Hpo).
      destruct (find_key_first _ _ _ Hf) as [[e He] _].
      rewrite (set_value_encode T st _ (child po i) e v error
                 (value_element _ _ _ Hpo));
        [|now rewrite (load_child_object _ _ _ _ Hlo), He].
      now rewrite (store_put_child_object _ _ _ _ _ Hlo).
    + cbn [no_element is_valid value].
      now rewrite (format_error_message _ _ _ _ Hpatho).
Qed.

(** An array alone and an object alone; an index inside the array. *)
Lemma set_value_at_needs_element_witness :
  set_value_at t_bool [array_1_x] (get_root 0) 2 true ""
  = Some ([array_1_x], false, "array expected at /")
  /\ set_value_at t_bool [array_1_x] (get_root 0) 1 true ""
     = Some ([j_array [j_integer 1; j_boolean true]], true, "")
  /\ set_value_at_key t_bool [Value.object] (get_root 0) "k" true ""
     = Some ([Value.object], false, "object expected at /").
Proof.
  split; [|split].
  - exact (proj1 (set_value_at_needs_element t_bool true "") [array_1_x]
             (get_root 0) {| obj := 0; path := [] |}
             [j_integer 1; j_string "x"] 2 "/" eq_refl eq_refl eq_refl).
  - exact (proj1 (set_value_at_needs_element t_bool true "") [array_1_x]
             (get_root 0) {| obj := 0; path := [] |}
             [j_integer 1; j_string "x"] 1 "/" eq_refl eq_refl eq_refl).
  - exact (proj2 (set_value_at_needs_element t_bool true "") [Value.object]
             (get_root 0) {| obj := 0; path := [] |} [] "k" "/"
             eq_refl eq_refl eq_refl).
Defined.

(** X15: The builders of nested containers.  [append_array] and
    [append_object] add an empty array or object at the end of an array and
    return the valid view onto it.  [insert_array] and [insert_object] put
    an empty array or object under the key of an object: in a new last pair
    when no pair has the key, and otherwise in place of what the first pair
    with the key held. *)
Theorem container_builders (error : string) :
  (forall (st : store) (jsa : json_view) (pa : ptr) (a : json_array),
      value jsa = Some pa -> load st pa = Some (j_array a) ->
      (exists st', append_array st jsa error
                   = Some (st', element jsa (List.length a), error)
                   /\ is_valid (element jsa (List.length a)) = true
                   /\ load st' pa = Some (j_array (a ++ [j_array []])))
      /\ (exists st', append_object st jsa error
                      = Some (st', element jsa (List.length a), error)
                      /\ load st' pa = Some (j_array (a ++ [j_object []]))))
  /\
  (forall (st : store) (jso : json_view) (po : ptr) (o : json_object)
          (key : string),
      value jso = Some po -> load st po = Some (j_object o) ->
      (exists st' i, insert_array st jso key error
                     = Some (st', element jso i, error)
                     /\ is_valid (element jso i) = true
                     /\ find_key key (upsert key (j_array []) o) = Some i
                     /\ load st' po
                        = Some (j_object (upsert key (j_array []) o)))
      /\ (exists st' i, insert_object st jso key error
                        = Some (st', element jso i, error)
                        /\ find_key key (upsert key (j_object []) o) = Some i
                        /\ load st' po
                           = Some (j_object (upsert key (j_object []) o)))).
Proof.
  split.
  - intros st jsa pa a Hpa Hla.
    assert (Happend : forall k, exists st',
               ('(st1, ejs) <- append_element st jsa ;;
                if is_valid ejs then
                  '(st2, ok) <- set_type st1 ejs k ;;
                  if ok then Some (st2, ejs, error)
                  else
                    msg <- format_error st2 ejs
                             (match k with
                              | array => "array expected"
                              | _ => "object expected"
                              end) ;;
                    Some (st2, no_element jsa, msg)
                else
                  msg <- format_error st1 jsa "array expected" ;;
                  Some (st1, no_element jsa, msg))
               = Some (st', element jsa (List.length a), error)
               /\ load st' pa = Some (j_array (a ++ [Value.zero k]))).
    { intros k.
      pose proof (append_element_array st jsa pa a Hpa Hla) as Happ.
      set (st1 := store_put st pa (j_array (a ++ [json_value_default]))) in *.
      assert (Hl1 : load st1 pa = Some (j_array (a ++ [json_value_default])))
        by (eapply load_store_put_same; eauto).
      assert (Hvalid : is_valid (element jsa (List.length a)) = true)
        by (eapply is_valid_element; eauto).
      assert (Hlast : load st1 (child pa (List.length a))
                      = Some json_value_default)
        by (rewrite (load_child_array _ _ _ _ Hl1); apply nth_error_app_last).
      exists (store_put st1 pa (j_array (a ++ [Value.zero k]))).
      rewrite Happ. cbn [obind]. rewrite Hvalid.
      rewrite (set_type_live _ _ _ _ k (value_element _ _ _ Hpa) Hlast).
      cbn [obind]. rewrite (store_put_child_array _ _ _ _ _ Hl1).
      rewrite list_alter_middle.
      split; [reflexivity|eapply load_store_put_same; eauto]. }
    split.
    + destruct (Happend array) as (st' & H1 & H2). exists st'.
      split; [exact H1|]. split; [eapply is_valid_element; eauto|exact H2].
    + exact (Happend object).
  - intros st jso po o key Hpo Hlo.
    assert (Hinsert : forall k, exists st' i,
               ('(st1, ejs) <- insert_element st jso key ;;
                if is_valid ejs then
                  '(st2, ok) <- set_type st1 ejs k ;;
                  if ok then Some (st2, ejs, error)
                  else
                    msg <- format_error st2 ejs
                             (match k with
                              | array => "array expected"
                              | _ => "object expected"
                              end) ;;
                    Some (st2, no_element jso, msg)
                else
                  msg <- format_error st1 jso "object expected" ;;
                  Some (st1, no_element jso, msg))
               = Some (st', element jso i, error)
               /\ find_key key (upsert key (Value.zero k) o) = Some i
               /\ load st' po
                  = Some (j_object (upsert key (Value.zero k) o))).
    { intros k.
      destruct (insert_then_write st jso po o key (Value.zero k) Hpo Hlo)
        as (st1 & ejs & q & Hins & Hvalid & Hq & Hlq & Hput).
      destruct (upsert_find key (Value.zero k) o) as (i & Hf & _ & Hi).
      exists (store_put st po (j_object (upsert key (Value.zero k) o))), i.
      assert (Hejs : ejs = element jso i).
      { rewrite (insert_element_object _ _ _ _ key Hpo Hlo) in Hins.
        destruct Hi as [Hi|[Hi ->]]; rewrite Hi in Hins;
          now injection Hins as _ <-. }
      rewrite Hins. cbn [obind]. rewrite Hvalid.
      rewrite (set_type_live _ _ _ _ k Hq Hlq). cbn [obind].
      rewrite Hput, Hejs.
      split; [reflexivity|]. split; [exact Hf|].
      eapply load_store_put_same; eauto. }
    split.
    + destruct (Hinsert array) as (st' & i & H1 & H2 & H3). exists st', i.
      split; [exact H1|]. split; [eapply is_valid_element; eauto|].
      split; assumption.
    + exact (Hinsert object).
Qed.

(** An array appended to an empty array, which is the whole document, and
    an object put under a key that holds an array. *)
Lemma container_builders_witness :
  (exists st',
      append_array [Value.array] (get_root 0) ""
      = Some (st', element (get_root 0) 0, "")
      /\ load st' {| obj := 0; path := [] |} = Some (j_array [j_array []]))
  /\ (exists st' i,
         insert_object [document_a] (get_root 0) "a" ""
         = Some (st', element (get_root 0) i, "")
         /\ load st' {| obj := 0; path := [] |}
            = Some (j_object [("a", j_object [])])).
Proof.
  split.
  - destruct (proj1 (container_builders "") [Value.array] (get_root 0)
                {| obj := 0; path := [] |} [] eq_refl eq_refl)
      as ((st' & H1 & _ & H2) & _).
    exists st'. split; assumption.
  - destruct (proj2 (container_builders "") [document_a] (get_root 0)
                {| obj := 0; path := [] |}
                [("a", j_array [j_integer 1; j_integer 2;
                                j_object [("b", j_integer 3)]])] "a"
                eq_refl eq_refl)
      as (_ & (st' & i & H1 & _ & H2)).
    exists st', i. split; assumption.
Defined.

(** *** Conversion shortcuts *)

(** X16: [to_json] never throws on a native value and [from_json] of its result
    returns the value; [from_json] on a value whose kind the type does not
    accept throws [json_error] with the message of the type and the path
    of the root, "/". *)
Theorem to_json_from_json (T : native_type) (v : native T) :
  native_ok T v ->
  to_json T v = Some (Value.ret (encode T v))
  /\ from_json T (encode T v) = Some (Value.ret v)
  /\ forall js, convertible T (Value.type js) = false ->
       from_json T js
       = Some (Value.throw_json_error (get_value_expected T ++ " at /")).
Proof.
  intros Hv. split; [|split].
  - unfold to_json.
    rewrite (set_value_encode T [json_value_default] (get_root 0)
               {| obj := 0; path := [] |} json_value_default v ""
               eq_refl eq_refl).
    reflexivity.
  - unfold from_json.
    rewrite (get_value_encode T v Hv [encode T v] (get_root 0)
               {| obj := 0; path := [] |} (native_default T) ""
               (native_default_ok T) eq_refl eq_refl).
    reflexivity.
  - intros js Hk. unfold from_json.
    rewrite (get_value_rejects T [js] (get_root 0) (Value.type js) "/"
               (native_default T) "" eq_refl Hk (compute_path_root _ _)).
    reflexivity.
Qed.

Lemma to_json_from_json_witness :
  to_json (t_vector t_string) ["a"; "b"]
  = Some (Value.ret (j_array [j_string "a"; j_string "b"]))
  /\ from_json (t_vector t_string) (j_array [j_string "a"; j_string "b"])
     = Some (Value.ret ["a"; "b"]).
Proof.
  destruct (to_json_from_json (t_vector t_string) ["a"; "b"]
              ltac:(repeat constructor)) as (H1 & H2 & _).
  split; assumption.
Defined.

(** *** The path that is computed *)

Lemma ptr_eqb_descend_cons q i s : ptr_eqb q (descend q (i :: s)) = false.
Proof.
  unfold ptr_eqb, descend. cbn [obj path].
  destruct (list_eq_dec Nat.eq_dec (path q) (path q ++ i :: s)) as [E|];
    [|now rewrite andb_false_r].
  exfalso. apply (f_equal (@List.length nat)) in E.
  rewrite length_app in E. simpl in E. lia.
Qed.

Lemma descend_child q i s : descend (child q i) s = descend q (i :: s).
Proof. unfold descend, child. cbn. now rewrite <- app_assoc. Qed.

Lemma not_below_sibling v q i j s :
  i <> j -> ~ below v (child q j) (descend q (i :: s)).
Proof.
  intros Hij [_ (s' & Hs & _)]. unfold child, descend in Hs. cbn in Hs.
  rewrite <- app_assoc in Hs. apply app_inv_head in Hs.
  cbn in Hs. congruence.
Qed.

(** The search finds a node of the tree below [v] and builds [render]. *)
Lemma _compute_path_in_render v :
  forall js jsv q rj rv s r path0,
    value js = Some q -> root js = Some rj ->
    value jsv = Some (descend q s) -> root jsv = Some rv ->
    render v s = Some r ->
    _compute_path_in v js jsv path0 = (true, r).
Proof.
  induction v as [bits|i0|u|r0|b|s0|a IH|o IH|d] using json_value_induction;
    intros js jsv q rj rv s r path0 Hq Hrj Ht Hrv Hr;
    cbn [_compute_path_in]; rewrite Hq, Hrj, Ht, Hrv;
    cbn [is_some negb orb]; unfold same_target; rewrite Hq, Ht;
    (destruct s as [|i s];
     [unfold descend; rewrite app_nil_r;
      (replace {| obj := obj q; path := path q |} with q by now destruct q);
      rewrite ptr_eqb_refl; cbn in Hr; congruence
     |rewrite ptr_eqb_descend_cons]);
    try discriminate Hr.
  - (* array *)
    cbn [render] in Hr.
    destruct (nth_error a i) as [e|] eqn:He; [|discriminate]. cbn [obind] in Hr.
    destruct (render e s) as [r'|] eqn:Hr'; [|discriminate]. cbn [obind] in Hr.
    injection Hr as <-.
    destruct (nth_error_split _ _ He) as (pre & post & -> & Hlen).
    assert (Hloop : forall pre1 pre0 path1,
               pre = pre0 ++ pre1 ->
               (fix iterate (es : list json_value) (i : nat) (path : string)
                  {struct es} : bool * string :=
                  match es with
                  | [] => (false, path)
                  | e :: es' =>
                      let '(found, path1) :=
                        _compute_path_in e (element js i) jsv path in
                      if negb found then iterate es' (S i) path1
                      else
                        let path2 :=
                          if back_is path1 "/" then pop_back path1 else path1 in
                        (true, ("/" ++ to_string_int 0 ++ path2)%string)
                  end) (pre1 ++ e :: post) (List.length pre0) path1
               = (true, ("/" ++ to_string_int 0 ++ strip_slash r')%string)).
    { induction pre1 as [|x pre1 IHpre]; intros pre0 path1 Hpre.
      - rewrite app_nil_r in Hpre. subst pre0. cbn [app].
        rewrite Forall_forall in IH.
        rewrite (IH e (in_elt _ _ _) (element js (List.length pre)) jsv
                   (child q (List.length pre)) rj rv s r' path1); auto.
        + now apply value_element.
        + rewrite Hlen, descend_child. exact Ht.
      - cbn [app].
        rewrite (_compute_path_in_not_below x (element js (List.length pre0))
                   jsv (child q (List.length pre0)) (descend q (i :: s)) path1).
        + cbn [negb].
          replace (S (List.length pre0)) with (List.length (pre0 ++ [x]))
            by (rewrite length_app; simpl; lia).
          apply IHpre. now rewrite <- app_assoc.
        + now apply value_element.
        + exact Ht.
        + apply not_below_sibling. subst pre i.
          rewrite length_app. simpl. lia. }
    apply (Hloop pre [] path0). reflexivity.
  - (* object *)
    cbn [render] in Hr.
    destruct (nth_error o i) as [[key e]|] eqn:He; [|discriminate].
    cbn [obind fst snd] in Hr.
    destruct (render e s) as [r'|] eqn:Hr'; [|discriminate]. cbn [obind] in Hr.
    injection Hr as <-.
    destruct (nth_error_split _ _ He) as (pre & post & -> & Hlen).
    assert (Hloop : forall pre1 pre0 path1,
               pre = pre0 ++ pre1 ->
               (fix iterate (es : list (string * json_value)) (i : nat)
                  (path : string) {struct es} : bool * string :=
                  match es with
                  | [] => (false, path)
                  | (key, e) :: es' =>
                      let '(found, path1) :=
                        _compute_path_in e (element js i) jsv path in
                      if negb found then iterate es' (S i) path1
                      else
                        let path2 :=
                          if back_is path1 "/" then pop_back path1 else path1 in
                        (true, ("/" ++ key ++ path2)%string)
                  end) (pre1 ++ (key, e) :: post) (List.length pre0) path1
               = (true, ("/" ++ key ++ strip_slash r')%string)).
    { induction pre1 as [|[kx x] pre1 IHpre]; intros pre0 path1 Hpre.
      - rewrite app_nil_r in Hpre. subst pre0. cbn [app].
        rewrite Forall_forall in IH.
        pose proof (IH (key, e) (in_elt _ _ _)) as IHe. cbn [snd] in IHe.
        rewrite (IHe (element js (List.length pre)) jsv
                   (child q (List.length pre)) rj rv s r' path1); auto.
        + now apply value_element.
        + rewrite Hlen, descend_child. exact Ht.
      - cbn [app].
        rewrite (_compute_path_in_not_below x (element js (List.length pre0))
                   jsv (child q (List.length pre0)) (descend q (i :: s)) path1).
        + cbn [negb].
          replace (S (List.length pre0)) with (List.length (pre0 ++ [(kx, x)]))
            by (rewrite length_app; simpl; lia).
          apply IHpre. now rewrite <- app_assoc.
        + now apply value_element.
        + exact Ht.
        + apply not_below_sibling. subst pre i.
          rewrite length_app. simpl. lia. }
    apply (Hloop pre [] path0). reflexivity.
Qed.

Lemma render_none_subvalue s :
  forall v, render v s = None -> subvalue v s = None.
Proof.
  induction s as [|i s IH]; intros v; cbn; [discriminate|].
  destruct v; try reflexivity.
  - destruct (nth_error a i) as [e|]; [|reflexivity]. cbn.
    destruct (render e s) eqn:Hr; [discriminate|]. intros _. now apply IH.
  - destruct (nth_error o i) as [[k e]|]; [|reflexivity]. cbn.
    destruct (render e s) eqn:Hr; [discriminate|]. intros _. now apply IH.
Qed.

Lemma render_starts_with_slash v s r :
  render v s = Some r -> exists rest, r = String "/" rest.
Proof.
  destruct s as [|i s]; cbn.
  - intros [= <-]. now exists ""%string.
  - destruct v; try discriminate.
    + destruct (nth_error a i) as [e|]; [|discriminate]. cbn.
      destruct (render e s); [|discriminate]. cbn. intros [= <-]. eauto.
    + destruct (nth_error o i) as [kv|]; [|discriminate]. cbn.
      destruct (render (snd kv) s); [|discriminate]. cbn. intros [= <-]. eauto.
Qed.

(** [compute_path] of a view whose target lies the positions [s] below its
    root is the path rendered along [s]: "/" and the key at an object
    level, "/0" at an array level whatever the position, with a trailing
    slash of the rest removed at each level; it is [""] when no node is
    there. *)
Lemma compute_path_render (st : store) (js : json_view) (r : ptr)
  (s : list nat) (v : json_value) :
  root js = Some r -> value js = Some (descend r s) -> load st r = Some v ->
  compute_path st js
  = Some (match render v s with Some path => path | None => ""%string end).
Proof.
  intros Hr Ht Hl.
  destruct (render v s) as [rendered|] eqn:Hrender.
  - unfold compute_path, _compute_path. rewrite Hr, Ht.
    cbn [value root is_some negb orb]. unfold same_target. cbn [value].
    rewrite Ht. destruct s as [|i s].
    + unfold descend. rewrite app_nil_r.
      replace {| obj := obj r; path := path r |} with r by now destruct r.
      rewrite ptr_eqb_refl. cbn in *. congruence.
    + rewrite ptr_eqb_descend_cons. unfold deref. cbn [value obind].
      rewrite Hl. cbn [obind].
      now rewrite (_compute_path_in_render v {| value := Some r; root := Some r |}
                     js r r r (i :: s) rendered ""
                     eq_refl eq_refl Ht Hr Hrender).
  - apply (compute_path_not_below st js r (descend r s) v Hr Ht Hl).
    intros [_ (s' & Hs & Hsub)]. unfold descend in Hs. cbn in Hs.
    apply app_inv_head in Hs. subst s'.
    now apply Hsub, render_none_subvalue.
Qed.



Lemma string_app_empty_r (s : string) : (s ++ "")%string = s.
Proof. induction s; cbn; congruence. Qed.

Lemma string_app_assoc (a b c : string) :
  ((a ++ b) ++ c)%string = (a ++ (b ++ c))%string.
Proof. induction a; cbn; congruence. Qed.

Lemma back_app (s1 s2 : string) :
  s2 <> ""%string -> back (s1 ++ s2) = back s2.
Proof.
  intros H. induction s1 as [|c s1 IH]; [reflexivity|].
  cbn [append back]. destruct (s1 ++ s2)%string eqn:E; [|exact IH].
  destruct s1; cbn in E; [congruence|discriminate].
Qed.

Lemma path_of_keys_cons k ks :
  path_of_keys (k :: ks) = ("/" ++ k ++ path_of_keys ks)%string.
Proof. reflexivity. Qed.

Lemma back_is_path_of_keys ks :
  ks <> [] -> Forall plain_key ks -> back_is (path_of_keys ks) "/" = false.
Proof.
  induction ks as [|k ks IH]; [congruence|]. intros _ Hks.
  apply Forall_cons_iff in Hks as [[Hne Hback] Hks].
  rewrite path_of_keys_cons. unfold back_is in *.
  destruct ks as [|k' ks].
  - cbn [path_of_keys fold_right]. rewrite string_app_empty_r.
    now rewrite (back_app "/" k Hne).
  - rewrite <- string_app_assoc.
    rewrite back_app by (rewrite path_of_keys_cons; discriminate).
    apply IH; [discriminate|exact Hks].
Qed.

Lemma render_object_keys s :
  forall v ks,
    object_keys v s = Some ks -> Forall plain_key ks ->
    render v s = Some (match ks with
                       | [] => "/"%string
                       | _ => path_of_keys ks
                       end).
Proof.
  induction s as [|i s IH]; intros v ks; cbn.
  - now intros [= <-].
  - destruct v; try discriminate.
    destruct (nth_error o i) as [[k e]|]; [|discriminate]. cbn.
    destruct (object_keys e s) as [ks'|] eqn:Hks; [|discriminate]. cbn.
    intros [= <-] Hplain. apply Forall_cons_iff in Hplain as [Hk Hplain].
    rewrite (IH e ks' Hks Hplain). cbn [obind]. f_equal.
    rewrite path_of_keys_cons. do 2 f_equal.
    destruct ks' as [|k' ks']; [reflexivity|].
    unfold strip_slash.
    now rewrite back_is_path_of_keys by (auto; discriminate).
Qed.

(** X18: When every level between the root and the target is an object, and no
    key on the way is empty or ends in a slash, [compute_path] is the keys
    on the way, each after a slash: "/k1/k2/.../kn". *)
Theorem compute_path_object_keys (st : store) (js : json_view) (r : ptr)
  (s : list nat) (v : json_value) (ks : list string) :
  root js = Some r -> value js = Some (descend r s) -> load st r = Some v ->
  object_keys v s = Some ks -> ks <> [] -> Forall plain_key ks ->
  compute_path st js = Some (path_of_keys ks).
Proof.
  intros Hr Ht Hl Hks Hne Hplain.
  rewrite (compute_path_render st js r s v Hr Ht Hl).
  rewrite (render_object_keys s v ks Hks Hplain).
  destruct ks; congruence.
Qed.

Lemma compute_path_object_keys_witness :
  compute_path
    [j_object [("x", j_null 0);
               ("scene", j_object [("camera", j_object [("lens", j_real 0.5)])])]]
    (view_at 0 {| obj := 0; path := [1; 0; 0]%nat |})
  = Some "/scene/camera/lens".
Proof.
  apply (compute_path_object_keys _ _ {| obj := 0; path := [] |}
           [1; 0; 0]%nat
           (j_object [("x", j_null 0);
                      ("scene",
                       j_object [("camera", j_object [("lens", j_real 0.5)])])])
           ["scene"; "camera"; "lens"]); try reflexivity.
  - discriminate.
  - repeat constructor; discriminate.
Defined.

Lemma render_array_element s :
  forall v a i j,
    subvalue v s = Some (j_array a) ->
    i < List.length a -> j < List.length a ->
    render v (s ++ [i]) = render v (s ++ [j]).
Proof.
  induction s as [|x s IH]; intros v a i j; cbn.
  - intros [= ->] Hi Hj.
    destruct (nth_error a i) eqn:Ei; [|apply nth_error_None in Ei; lia].
    destruct (nth_error a j) eqn:Ej; [|apply nth_error_None in Ej; lia].
    reflexivity.
  - destruct v; try discriminate.
    + destruct (nth_error a0 x) as [e|]; [|discriminate]. cbn.
      intros Hs Hi Hj. now rewrite (IH e a i j Hs Hi Hj).
    + destruct (nth_error o x) as [[k e]|]; [|discriminate]. cbn.
      intros Hs Hi Hj. now rewrite (IH e a i j Hs Hi Hj).
Qed.

(** X19: The path does not tell the elements of an array apart: two views onto
    elements of the same array get the same path, and it is not empty. *)
Theorem compute_path_array_elements (st : store) (jsi jsj : json_view)
  (r : ptr) (s : list nat) (v : json_value) (a : json_array) (i j : nat) :
  root jsi = Some r -> root jsj = Some r -> load st r = Some v ->
  subvalue v s = Some (j_array a) ->
  i < List.length a -> j < List.length a ->
  value jsi = Some (descend r (s ++ [i])) ->
  value jsj = Some (descend r (s ++ [j])) ->
  exists rest,
    compute_path st jsi = Some (String "/" rest)
    /\ compute_path st jsj = Some (String "/" rest).
Proof.
  intros Hri Hrj Hl Hs Hi Hj Hvi Hvj.
  rewrite (compute_path_render st jsi r _ v Hri Hvi Hl).
  rewrite (compute_path_render st jsj r _ v Hrj Hvj Hl).
  rewrite (render_array_element s v a i j Hs Hi Hj).
  destruct (render v (s ++ [j])) as [rendered|] eqn:Hrender.
  - destruct (render_starts_with_slash _ _ _ Hrender) as [rest ->]. eauto.
  - apply render_none_subvalue in Hrender.
    rewrite subvalue_app, Hs in Hrender. cbn in Hrender.
    destruct (nth_error a j) eqn:Ej; [discriminate|].
    apply nth_error_None in Ej. lia.
Qed.

Lemma compute_path_array_elements_witness :
  exists rest,
    compute_path [document_a] (view_at 0 {| obj := 0; path := [0; 0]%nat |})
    = Some (String "/" rest)
    /\ compute_path [document_a]
         (view_at 0 {| obj := 0; path := [0; 2]%nat |})
       = Some (String "/" rest).
Proof.
  apply (compute_path_array_elements [document_a] _ _
           {| obj := 0; path := [] |} [0]%nat document_a
           [j_integer 1; j_integer 2; j_object [("b", j_integer 3)]] 0 2);
    try reflexivity; simpl; lia.
Defined.

(* ------------------------------------------------------------------------- *)
(** ** Further properties of the value *)
(* ------------------------------------------------------------------------- *)

(** X20: The throwing conversions of a value and the checked getters of a view
    onto it compute the same number: [operator double] returns what
    [get_number] yields and throws "real expected" exactly where
    [get_number] returns false; likewise [operator int64_t] with
    [get_integral] ("integer expected") and [operator uint64_t] with the
    unsigned [get_integral] ("unsigned expected"). *)
Theorem conversions_agree_with_getters (st : store) (js : json_cview)
  (p : ptr) (v : json_value) (out : float) (outi : Z) :
  value js = Some p -> load st p = Some v -> payload_in_range v ->
  get_number st js out
  = Some (match Value.operator_double v with
          | Value.ret d => (true, d)
          | _ => (false, out)
          end)
  /\ get_integral st js outi
     = Some (match Value.operator_int64_t v with
             | Value.ret i => (true, i)
             | _ => (false, outi)
             end)
  /\ get_integral_u st js outi
     = Some (match Value.operator_uint64_t v with
             | Value.ret u => (true, u)
             | _ => (false, outi)
             end)
  /\ (Value.type v <> integer -> Value.type v <> unsigned_ ->
      Value.operator_int64_t v = Value.throw_json_error "integer expected"
      /\ Value.operator_uint64_t v = Value.throw_json_error "unsigned expected"
      /\ (Value.type v <> real ->
          Value.operator_double v = Value.throw_json_error "real expected")).
Proof.
  intros Hp Hl Hrange.
  pose proof (get_type_live _ _ _ _ Hp Hl) as Ht.
  pose proof (deref_live _ _ _ _ Hp Hl) as Hd.
  unfold get_number, get_integral, get_integral_u. known_type Ht. rewrite Hd.
  destruct v; cbn -[to_int64 to_uint64 to_double] in *;
    rewrite ?to_int64_id, ?to_uint64_id by assumption;
    repeat split; congruence.
Qed.

Lemma conversions_agree_with_getters_witness :
  get_number [j_unsigned 5] (get_root 0) 0%float
  = Some (match Value.operator_double (j_unsigned 5) with
          | Value.ret d => (true, d)
          | _ => (false, 0%float)
          end)
  /\ Value.operator_double (j_unsigned 5) = Value.ret 5%float.
Proof.
  split; [|reflexivity].
  exact (proj1 (conversions_agree_with_getters [j_unsigned 5] (get_root 0)
                  {| obj := 0; path := [] |} (j_unsigned 5) 0%float 0%Z
                  eq_refl eq_refl eq_refl)).
Defined.

(** X21: Keys of an object value.  [contains(key)] tells whether [at(key)]
    returns; [at(key)] returns the first pair with the key and throws
    [std::out_of_range] "missing key <key>" when there is none;
    [operator[](key)] never throws on an object, leaves the object as it is
    when a pair has the key and otherwise adds one null pair at the end,
    and [at(key)] afterwards returns the pair it named.  On a value that is
    not an object all of them throw [json_error] "object expected". *)
Theorem object_key_access (key : string) (v : json_value) :
  match v with
  | j_object o =>
      Value.contains key v = Value.ret (is_some (find_key key o))
      /\ Value.at_key key v
         = (match find_key key o with
            | Some i => Value.ret i
            | None => Value.throw_out_of_range ("missing key " ++ key)
            end)
      /\ exists o' i,
           Value.subscript key v = Value.ret (j_object o', i)
           /\ o' = (match find_key key o with
                    | Some _ => o
                    | None => o ++ [(key, json_value_default)]
                    end)
           /\ Value.at_key key (j_object o') = Value.ret i
           /\ Value.contains key (j_object o') = Value.ret true
  | _ =>
      Value.find key v = Value.throw_json_error "object expected"
      /\ Value.contains key v = Value.throw_json_error "object expected"
      /\ Value.at_key key v = Value.throw_json_error "object expected"
      /\ Value.subscript key v = Value.throw_json_error "object expected"
  end.
Proof.
  destruct v; try (cbn; repeat split; reflexivity).
  unfold Value.contains, Value.at_key, Value.subscript, Value.find. cbn.
  split; [now destruct (find_key key o)|]. split; [reflexivity|].
  destruct (find_key key o) as [i|] eqn:Hf; cbn.
  - exists o, i. rewrite Hf. repeat split.
  - exists (o ++ [(key, json_value_default)]), (List.length o).
    rewrite (find_key_app_new _ _ json_value_default Hf). repeat split.
Qed.

(** X22: Elements of an array value.  [push_back] adds the value at the end:
    the size grows by one, [at] of the old size returns the value and the
    elements before it are the same.  [at] past the end throws
    [std::out_of_range]; on a value that is not an array [push_back],
    [at] and [size] throw [json_error]. *)
Theorem array_push_back_at (what : string) (w v : json_value) (idx : nat) :
  match v with
  | j_array a =>
      exists v',
        Value.push_back w v = Value.ret v'
        /\ Value.size v' = Value.ret (S (List.length a))
        /\ Value.at_idx what (List.length a) v' = Value.ret w
        /\ Value.at_idx what idx v'
           = (if Nat.ltb idx (List.length a) then Value.at_idx what idx v
              else if Nat.eqb idx (List.length a) then Value.ret w
                   else Value.throw_out_of_range what)
        /\ (if Nat.ltb idx (List.length a)
            then exists e, Value.at_idx what idx v = Value.ret e
            else Value.at_idx what idx v = Value.throw_out_of_range what)
  | j_string _ | j_object _ | j_binary _ =>
      Value.push_back w v = Value.throw_json_error "array expected"
      /\ Value.at_idx what idx v = Value.throw_json_error "array expected"
  | _ =>
      Value.push_back w v = Value.throw_json_error "array expected"
      /\ Value.at_idx what idx v = Value.throw_json_error "array expected"
      /\ Value.size v = Value.throw_json_error "bad json type"
  end.
Proof.
  destruct v; try (cbn; repeat split; reflexivity).
  exists (j_array (a ++ [w])). unfold Value.push_back, Value.at_idx.
  cbn -[Nat.ltb Nat.eqb].
  split; [reflexivity|].
  split; [rewrite length_app; simpl; do 2 f_equal; lia|].
  split; [now rewrite nth_error_app_last|]. split.
  - destruct (Nat.ltb idx (List.length a)) eqn:Hlt.
    + apply Nat.ltb_lt in Hlt. now rewrite nth_error_app1 by assumption.
    + apply Nat.ltb_ge in Hlt.
      destruct (Nat.eqb idx (List.length a)) eqn:He.
      * apply Nat.eqb_eq in He. subst. now rewrite nth_error_app_last.
      * apply Nat.eqb_neq in He.
        replace (nth_error (a ++ [w]) idx) with (@None json_value);
          [reflexivity|].
        symmetry. apply nth_error_None. rewrite length_app. simpl. lia.
  - destruct (Nat.ltb idx (List.length a)) eqn:Hlt.
    + apply Nat.ltb_lt in Hlt.
      destruct (nth_error a idx) as [e|] eqn:He;
        [now exists e|apply nth_error_None in He; lia].
    + apply Nat.ltb_ge, nth_error_None in Hlt. now rewrite Hlt.
Qed.

(* ------------------------------------------------------------------------- *)
(** ** Iteration *)
(* ------------------------------------------------------------------------- *)




(* ------------------------------------------------------------------------- *)
(** ** Formatting *)
(* ------------------------------------------------------------------------- *)

Lemma string_length_app (a b : string) :
  String.length (a ++ b) = String.length a + String.length b.
Proof. induction a; cbn; congruence. Qed.

Lemma find_braces_cons c c' rest :
  find_braces (String c (String c' rest))
  = if Ascii.eqb c "{" && Ascii.eqb c' "}" then Some 0
    else option_map S (find_braces (String c' rest)).
Proof. reflexivity. Qed.

Lemma find_braces_at (a b : string) :
  exists pos, find_braces (a ++ "{}" ++ b) = Some pos.
Proof.
  induction a as [|c a IH]; [now exists 0|].
  destruct IH as [pos IH].
  change (String c a ++ "{}" ++ b)%string with (String c (a ++ "{}" ++ b)).
  destruct (a ++ "{}" ++ b)%string as [|c' rest]; [discriminate IH|].
  rewrite find_braces_cons, IH.
  destruct (Ascii.eqb c "{" && Ascii.eqb c' "}"); cbn [option_map]; eauto.
Qed.

Lemma find_braces_split fmt :
  forall pos, find_braces fmt = Some pos ->
    fmt = (string_take pos fmt ++ "{}" ++ string_drop (pos + 2) fmt)%string
    /\ find_braces (string_take pos fmt) = None.
Proof.
  induction fmt as [|c fmt IH]; intros pos; [discriminate|].
  destruct fmt as [|c' rest]; [discriminate|].
  rewrite find_braces_cons.
  destruct (Ascii.eqb c "{" && Ascii.eqb c' "}") eqn:Hb.
  - intros [= <-]. apply andb_true_iff in Hb as [Hc Hc'].
    apply Ascii.eqb_eq in Hc, Hc'. subst. split; reflexivity.
  - destruct (find_braces (String c' rest)) as [pos'|] eqn:Hf; [|discriminate].
    cbn [option_map]. intros [= <-].
    destruct (IH pos' eq_refl) as [Hsplit Hnone].
    change (string_take (S pos') (String c (String c' rest)))
      with (String c (string_take pos' (String c' rest))).
    change (string_drop (S pos' + 2) (String c (String c' rest)))
      with (string_drop (pos' + 2) (String c' rest)).
    split.
    + change (String c (string_take pos' (String c' rest)) ++ "{}"
              ++ string_drop (pos' + 2) (String c' rest))%string
        with (String c (string_take pos' (String c' rest) ++ "{}"
                        ++ string_drop (pos' + 2) (String c' rest))).
      now rewrite <- Hsplit.
    + destruct pos' as [|pos']; [reflexivity|].
      change (string_take (S pos') (String c' rest))
        with (String c' (string_take pos' rest)) in *.
      now rewrite find_braces_cons, Hb, Hnone.
Qed.

Lemma brace_free_find (p : string) : brace_free p <-> find_braces p = None.
Proof.
  split.
  - intros Hp. destruct (find_braces p) as [pos|] eqn:Hf; [|reflexivity].
    destruct (find_braces_split _ _ Hf) as [Hsplit _].
    now destruct (Hp _ _ Hsplit).
  - intros Hf a b ->. destruct (find_braces_at a b) as [pos H]. congruence.
Qed.

Lemma find_braces_piece (p rest : string) :
  find_braces p = None ->
  find_braces (p ++ "{}" ++ rest) = Some (String.length p).
Proof.
  induction p as [|c p IH]; [reflexivity|].
  destruct p as [|c' p'].
  - intros _.
    change (find_braces (String c (String "{" (String "}" rest))) = Some 1).
    rewrite find_braces_cons.
    now replace (Ascii.eqb c "{" && Ascii.eqb "{" "}") with false
      by (symmetry; apply andb_false_r).
  - rewrite find_braces_cons.
    change (String c (String c' p') ++ "{}" ++ rest)%string
      with (String c (String c' (p' ++ "{}" ++ rest))).
    rewrite find_braces_cons.
    destruct (Ascii.eqb c "{" && Ascii.eqb c' "}"); [discriminate|].
    destruct (find_braces (String c' p')) eqn:Hf; [discriminate|]. intros _.
    change (String c' (p' ++ "{}" ++ rest))
      with (String c' p' ++ "{}" ++ rest)%string.
    now rewrite (IH eq_refl).
Qed.

Lemma string_take_app (p x : string) : string_take (String.length p) (p ++ x) = p.
Proof. induction p as [|c p IH]; cbn; [now destruct x|now rewrite IH]. Qed.

Lemma string_drop_app (p x : string) :
  string_drop (String.length p + 2) (p ++ "{}" ++ x) = x.
Proof. induction p as [|c p IH]; cbn; [reflexivity|exact IH]. Qed.

Lemma format_value_printed snprintf_g str arg :
  format_value snprintf_g str arg = (str ++ printed snprintf_g arg)%string.
Proof. now destruct arg. Qed.

Lemma join_braces_complete (fmt : string) :
  exists pieces last,
    fmt = join_braces pieces last
    /\ Forall brace_free pieces /\ brace_free last.
Proof.
  remember (String.length fmt) as n eqn:Hn.
  revert fmt Hn. induction n as [n IH] using lt_wf_ind. intros fmt ->.
  destruct (find_braces fmt) as [pos|] eqn:Hf.
  - destruct (find_braces_split _ _ Hf) as [Hsplit Hnone].
    destruct (IH (String.length (string_drop (pos + 2) fmt)))
      with (fmt := string_drop (pos + 2) fmt)
      as (pieces & last & E & Hpieces & Hlast); [|reflexivity|].
    + rewrite Hsplit at 2. rewrite !string_length_app. cbn. lia.
    + exists (string_take pos fmt :: pieces), last.
      split; [cbn [join_braces fold_right]; fold (join_braces pieces last);
              now rewrite <- E|].
      split; [|exact Hlast].
      constructor; [now apply brace_free_find|exact Hpieces].
  - exists [], fmt. split; [reflexivity|].
    split; [constructor|now apply brace_free_find].
Qed.

(** X24: [format_values] puts the arguments in the places of the "{}", in
    order.  For a format made of pieces without "{}", one "{}" after each,
    and a last piece, it returns exactly when there are as many arguments
    as "{}": the result is what was in [str], then each piece followed by
    what its argument prints, then the last piece; the text of an argument
    is not read again as a format.  Otherwise it throws
    [std::invalid_argument] "bad format string", after it has added the
    pieces and arguments that it could pair.  Every format string is made
    of such pieces. *)
Theorem format_values_fills (snprintf_g : float -> string) (str : string) :
  (forall (pieces : list string) (last : string) (args : list format_arg),
      Forall brace_free pieces -> brace_free last ->
      format_values snprintf_g str (join_braces pieces last) args
      = if Nat.eqb (List.length pieces) (List.length args)
        then formatted (str ++ fill snprintf_g pieces args ++ last)
        else throw_invalid_argument "bad format string"
               (str ++ fill snprintf_g pieces args))
  /\
  (forall fmt : string,
      exists pieces last,
        fmt = join_braces pieces last
        /\ Forall brace_free pieces /\ brace_free last).
Proof.
  split; [|apply join_braces_complete].
  intros pieces last args Hpieces Hlast. revert str args.
  induction Hpieces as [|p pieces Hp Hpieces IH]; intros str args.
  - apply brace_free_find in Hlast. cbn [join_braces fold_right].
    destruct args as [|arg args]; cbn [format_values]; rewrite Hlast; cbn.
    + reflexivity.
    + now rewrite string_app_empty_r.
  - apply brace_free_find in Hp. cbn [join_braces fold_right].
    fold (join_braces pieces last).
    destruct args as [|arg args]; cbn [format_values];
      rewrite (find_braces_piece p (join_braces pieces last) Hp).
    + cbn. now rewrite string_app_empty_r.
    + cbn zeta. rewrite string_take_app, string_drop_app.
      rewrite IH, format_value_printed.
      cbn [List.length Nat.eqb fill].
      destruct (Nat.eqb (List.length pieces) (List.length args));
        now rewrite !string_app_assoc.
Qed.

(** The text "a {} b {} c" with a string and an integer, with one argument
    too few, and with a floating-point number. *)
Lemma format_values_fills_witness :
  format_values (fun _ => "0.5") "pre:" "a {} b {} c"
    [arg_string "X"; arg_integer 7]
  = formatted "pre:a X b 7 c"
  /\ format_values (fun _ => "0.5") "pre:" "a {} b {} c" [arg_string "X"]
     = throw_invalid_argument "bad format string" "pre:a X"
  /\ format_values (fun _ => "0.5") "" "x = {}" [arg_real 0.5%float]
     = formatted "x = 0.5".
Proof.
  assert (Hfree : forall p, find_braces p = None -> brace_free p)
    by (intros p; apply brace_free_find).
  split; [|split].
  - apply (proj1 (format_values_fills (fun _ => "0.5") "pre:")
             ["a "; " b "] " c" [arg_string "X"; arg_integer 7]);
      repeat constructor; now apply Hfree.
  - apply (proj1 (format_values_fills (fun _ => "0.5") "pre:")
             ["a "; " b "] " c" [arg_string "X"]);
      repeat constructor; now apply Hfree.
  - apply (proj1 (format_values_fills (fun _ => "0.5") "")
             ["x = "] "" [arg_real 0.5%float]);
      repeat constructor; now apply Hfree.
Defined.

(* ------------------------------------------------------------------------- *)
(** ** Byte order *)
(* ------------------------------------------------------------------------- *)

Lemma skipn_nth_cons (source : list byte) n :
  n < List.length source ->
  skipn n source = nth n source x00 :: skipn (S n) source.
Proof.
  revert n; induction source as [|b source IH]; intros [|n] H; cbn in *;
    try lia; [reflexivity|].
  apply IH. lia.
Qed.

Lemma swap_endian_loop (source : list byte) :
  forall n (done rest : list byte),
    List.length done + n = List.length source ->
    List.length rest = n ->
    done = rev (skipn n source) ->
    fold_left
      (fun dest k =>
         list_alter k (fun _ => nth (List.length source - k - 1) source x00) dest)
      (seq (List.length done) n) (done ++ rest)
    = rev source.
Proof.
  induction n as [|n IH]; intros done rest Hlen Hrest Hdone.
  - destruct rest; [|discriminate]. cbn in *. now rewrite app_nil_r.
  - destruct rest as [|x rest]; [discriminate|]. cbn [seq fold_left].
    rewrite list_alter_middle.
    set (b := nth (List.length source - List.length done - 1) source x00).
    replace (done ++ b :: rest) with ((done ++ [b]) ++ rest)
      by now rewrite <- app_assoc.
    replace (S (List.length done)) with (List.length (done ++ [b]))
      by (rewrite length_app; simpl; lia).
    apply IH.
    + rewrite length_app. cbn. lia.
    + cbn in Hrest. lia.
    + subst b.
      replace (List.length source - List.length done - 1) with n by lia.
      rewrite Hdone, (skipn_nth_cons source n) by lia. reflexivity.
Qed.

(** X25: [swap_endian] returns the bytes of the value in the opposite order,
    whatever the destination held; so it keeps the size, applying it twice
    gives the value back, and the number that the result spells with the
    first byte least significant is the number that the argument spells
    with the first byte most significant. *)
Theorem swap_endian_reverses (dest0 dest1 source : list byte) :
  List.length dest0 = List.length source ->
  List.length dest1 = List.length source ->
  swap_endian dest0 source = rev source
  /\ List.length (swap_endian dest0 source) = List.length source
  /\ swap_endian dest1 (swap_endian dest0 source) = source
  /\ little_endian (swap_endian dest0 source) = big_endian source.
Proof.
  intros H0 H1.
  assert (Hrev : forall d s, List.length d = List.length s ->
                             swap_endian d s = rev s).
  { intros d s Hd. unfold swap_endian.
    apply (swap_endian_loop s (List.length s) [] d); cbn; auto.
    now rewrite skipn_all. }
  rewrite (Hrev dest0 source H0).
  split; [reflexivity|]. split; [apply length_rev|]. split.
  - rewrite Hrev by now rewrite length_rev. apply rev_involutive.
  - unfold little_endian, big_endian. rewrite fold_left_rev_right.
    reflexivity.
Qed.

Lemma swap_endian_reverses_witness :
  swap_endian [x00; x00; x00; x00] [x78; x56; x34; x12] = [x12; x34; x56; x78]
  /\ little_endian [x78; x56; x34; x12] = 305419896%Z
  /\ little_endian (swap_endian [x00; x00; x00; x00] [x78; x56; x34; x12])
     = big_endian [x78; x56; x34; x12].
Proof.
  destruct (swap_endian_reverses [x00; x00; x00; x00] [x00; x00; x00; x00]
              [x78; x56; x34; x12] eq_refl eq_refl) as (H1 & _ & _ & H4).
  split; [exact H1|]. split; [reflexivity|exact H4].
Defined.

(* ------------------------------------------------------------------------- *)
(** ** Command-line values *)
(* ------------------------------------------------------------------------- *)

Lemma wrap_signed_id bits x :
  (0 < bits)%Z -> (- 2 ^ (bits - 1) <= x < 2 ^ (bits - 1))%Z ->
  Cli.wrap_signed bits x = x.
Proof.
  intros Hb Hx. unfold Cli.wrap_signed.
  assert (E : (2 ^ bits = 2 * 2 ^ (bits - 1))%Z).
  { replace bits with (Z.succ (bits - 1)) at 1 by lia.
    apply Z.pow_succ_r. lia. }
  rewrite Z.mod_small; lia.
Qed.

Lemma wrap_unsigned_id bits x :
  (0 <= x < 2 ^ bits)%Z -> Cli.wrap_unsigned bits x = x.
Proof. intros Hx. unfold Cli.wrap_unsigned. now apply Z.mod_small. Qed.

Lemma wrap_unsigned_to_int64 bits x :
  (0 < bits <= 64)%Z -> (0 <= x < 2 ^ bits)%Z ->
  Cli.wrap_unsigned bits (to_int64 x) = x.
Proof.
  intros Hb Hx. unfold Cli.wrap_unsigned, to_int64.
  assert (E : (2 ^ 64 = 2 ^ (64 - bits) * 2 ^ bits)%Z).
  { rewrite <- Z.pow_add_r by lia. f_equal. lia. }
  assert (P : (0 < 2 ^ bits)%Z) by (apply Z.pow_pos_nonneg; lia).
  rewrite (Z.mod_eq (x + 2 ^ 63) (2 ^ 64)) by lia.
  set (d := ((x + 2 ^ 63) / 2 ^ 64)%Z).
  replace (x + 2 ^ 63 - 2 ^ 64 * d - 2 ^ 63)%Z
    with (x + (- d * 2 ^ (64 - bits)) * 2 ^ bits)%Z by (rewrite E; ring).
  rewrite Z.mod_add by lia. now apply Z.mod_small.
Qed.

Lemma cli_set_get (T : Cli.native_type) (cvalue : Cli.cli_value.t)
  (v out : Cli.native T) :
  Cli.native_ok T v ->
  Cli.get_value (Cli.set_value cvalue T v) T out = (true, v).
Proof.
  assert (Hsigned : forall bits x,
             (0 < bits <= 64)%Z ->
             (- 2 ^ (bits - 1) <= x < 2 ^ (bits - 1))%Z ->
             Cli.wrap_signed bits (to_int64 x) = x).
  { intros bits x Hb Hx.
    assert (P : (2 ^ (bits - 1) <= 2 ^ 63)%Z)
      by (apply Z.pow_le_mono_r; lia).
    rewrite to_int64_id.
    - now rewrite wrap_signed_id by lia.
    - unfold is_int64. apply andb_true_iff. split;
        [apply Z.leb_le|apply Z.ltb_lt]; lia. }
  destruct T as [| |bits|bits|signed bits| | |prec emax];
    cbn -[to_int64 to_uint64 to_float Cli.long_double_to_double
          Cli.double_to_long_double]; intros Hv.
  - reflexivity.
  - now destruct v.
  - destruct Hv as [Hb Hx]. now rewrite Hsigned.
  - destruct Hv as [Hb Hx].
    assert (P : (2 ^ bits <= 2 ^ 64)%Z) by (apply Z.pow_le_mono_r; lia).
    rewrite to_uint64_id.
    + now rewrite wrap_unsigned_id.
    + unfold is_uint64. apply andb_true_iff. split;
        [apply Z.leb_le|apply Z.ltb_lt]; lia.
  - destruct signed; destruct Hv as [Hb Hx].
    + now rewrite Hsigned.
    + now rewrite wrap_unsigned_to_int64.
  - now rewrite Hv.
  - reflexivity.
  - now rewrite Hv.
Qed.

(** X26: A command-line value set from a variable reads back as the same value
    at the same type, whatever the value held before, when the member of
    the [cli_value] holds the value exactly; read at a type of another
    kind it returns false and leaves the output as it was.  A
    [long double] is stored as a double: it reads back rounded to a
    double, which is the value only when the value is a double. *)
Theorem cli_value_round_trip (T T' : Cli.native_type)
  (cvalue : Cli.cli_value.t) (v out : Cli.native T) (out' : Cli.native T') :
  (Cli.native_ok T v ->
   Cli.get_value (Cli.set_value cvalue T v) T out = (true, v))
  /\ (Cli.cli_type_eqb (Cli.get_cli_type T) (Cli.get_cli_type T') = false ->
      Cli.get_value (Cli.set_value cvalue T v) T' out' = (false, out'))
  /\ (forall (prec emax : Z) (x y : spec_float),
        Cli.get_value
          (Cli.set_value cvalue (Cli.t_long_double prec emax) x)
          (Cli.t_long_double prec emax) y
        = (true, Cli.double_to_long_double prec emax
                   (Cli.long_double_to_double x))).
Proof.
  split; [now apply cli_set_get|]. split; [|reflexivity].
  destruct T, T'; cbn -[Cli.long_double_to_double Cli.double_to_long_double];
    intros H; try discriminate H; reflexivity.
Qed.

(** An [int] read back and read as a string; an enumerator over
    [unsigned char]; and, with the [long double] of x86, 1.5 read back and
    2^53 + 1 read back as 2^53. *)
Lemma cli_value_round_trip_witness :
  Cli.get_value (Cli.set_value Cli.cli_value.default (Cli.t_signed 32) (-7)%Z)
    (Cli.t_signed 32) 0%Z = (true, (-7)%Z)
  /\ Cli.get_value (Cli.set_value Cli.cli_value.default (Cli.t_signed 32) (-7)%Z)
       Cli.t_string "old"%string = (false, "old"%string)
  /\ Cli.get_value
       (Cli.set_value Cli.cli_value.default (Cli.t_enum false 8) 200%Z)
       (Cli.t_enum false 8) 0%Z = (true, 200%Z)
  /\ Cli.get_value
       (Cli.set_value Cli.cli_value.default (Cli.t_long_double 64 16384)
          (S754_finite false 13835058055282163712 (-63)))
       (Cli.t_long_double 64 16384) (S754_zero false)
     = (true, S754_finite false 13835058055282163712 (-63))
  /\ Cli.get_value
       (Cli.set_value Cli.cli_value.default (Cli.t_long_double 64 16384)
          (S754_finite false 9223372036854776832 (-10)))
       (Cli.t_long_double 64 16384) (S754_zero false)
     = (true, S754_finite false 9223372036854775808 (-10)).
Proof.
  split; [|split; [|split; [|split]]].
  - apply (proj1 (cli_value_round_trip (Cli.t_signed 32) Cli.t_string
                    Cli.cli_value.default (-7)%Z 0%Z "old"%string)).
    cbn. lia.
  - now apply (proj1 (proj2 (cli_value_round_trip (Cli.t_signed 32)
                               Cli.t_string Cli.cli_value.default (-7)%Z 0%Z
                               "old"%string))).
  - apply (proj1 (cli_value_round_trip (Cli.t_enum false 8) Cli.t_string
                    Cli.cli_value.default 200%Z 0%Z "old"%string)).
    cbn. lia.
  - apply (proj1 (cli_value_round_trip (Cli.t_long_double 64 16384)
                    Cli.t_string Cli.cli_value.default
                    (S754_finite false 13835058055282163712 (-63))
                    (S754_zero false) "old"%string)).
    vm_compute. reflexivity.
  - exact (proj2 (proj2 (cli_value_round_trip Cli.t_string Cli.t_string
                           Cli.cli_value.default ""%string ""%string
                           ""%string))
             64%Z 16384%Z (S754_finite false 9223372036854776832 (-10))
             (S754_zero false)).
Defined.



